(** * Flood-risk grid analysis: a shallow embedding of [hydrology.py]

    The numerical core of the repository works on numpy arrays of IEEE 754
    floats.  Cells are modelled with the Standard Library's executable
    specification of binary floating point ([SpecFloat]), arrays as a shape
    together with their rows, Python exceptions as an error monad, and the
    temporary files of the radar pipeline as explicit state.

    The float arrays of one call share a dtype, binary32 (the radar and
    elevation rasters) or binary64; Python literals take the dtype of the
    array they meet.  The mask is an integer array.  What the raster
    library, the crop and alignment helpers and the file system do is a
    parameter of the model or is named where it is modelled. *)

From Stdlib Require Import ZArith List Bool Lia PeanoNat.
From Stdlib Require Import SpecFloat.
From Stdlib Require String Ascii.
Import ListNotations.

(** ** Python exceptions *)

Inductive exn := ValueError | IndexError | ExternalError.

Inductive result (A : Type) :=
| Ok (a : A)
| Raise (e : exn).

Arguments Ok {A} a.
Arguments Raise {A} e.

Definition bind {A B} (x : result A) (k : A -> result B) : result B :=
  match x with
  | Ok a => k a
  | Raise e => Raise e
  end.

Notation "x <- e ;; k" := (bind e (fun x => k))
  (at level 61, e at next level, right associativity).

Fixpoint mapM {A B} (f : A -> result B) (l : list A) : result (list B) :=
  match l with
  | [] => Ok []
  | a :: l' => b <- f a ;; bs <- mapM f l' ;; Ok (b :: bs)
  end.

(** ** Floating-point cells *)

Inductive dtype := float32 | float64.

Definition prec (d : dtype) : Z :=
  match d with float32 => 24 | float64 => 53 end.

Definition emax (d : dtype) : Z :=
  match d with float32 => 128 | float64 => 1024 end.

Definition fadd (d : dtype) := SFadd (prec d) (emax d).
Definition fsub (d : dtype) := SFsub (prec d) (emax d).
Definition fmul (d : dtype) := SFmul (prec d) (emax d).
Definition fdiv (d : dtype) := SFdiv (prec d) (emax d).

(** A Python integer literal used in float arithmetic. *)
Definition of_int (d : dtype) (z : Z) : spec_float :=
  binary_normalize (prec d) (emax d) z 0 false.

(** A Python decimal literal [p/q], as the nearest float of the array's
    dtype: [of_ratio d 1 5] is [0.2], [of_ratio d 4 5] is [0.8] and
    [of_ratio d 1 1000000] is [1e-6]. *)
Definition of_ratio (d : dtype) (p q : Z) : spec_float :=
  fdiv d (of_int d p) (of_int d q).

Definition fzero : spec_float := S754_zero false.
Definition pinf : spec_float := S754_infinity false.

Definition isnan (x : spec_float) : bool :=
  match x with S754_nan => true | _ => false end.

Definition isfinite (x : spec_float) : bool :=
  match x with
  | S754_zero _ | S754_finite _ _ _ => true
  | _ => false
  end.

(** [x < y], [x <= y] and [x > y] of IEEE 754: false as soon as one side is
    NaN. *)
Definition flt (x y : spec_float) : bool := SFltb x y.
Definition fle (x y : spec_float) : bool := SFleb x y.
Definition fgt (x y : spec_float) : bool := SFltb y x.

(** Storing a value into an array of dtype [d] ([astype], item assignment). *)
Definition astype (d : dtype) (x : spec_float) : spec_float :=
  match x with
  | S754_finite s m e => binary_round (prec d) (emax d) s m e
  | _ => x
  end.

(** [np.maximum]: the larger operand, NaN as soon as one operand is NaN. *)
Definition maximum (x y : spec_float) : spec_float :=
  if fle y x || isnan x then x else y.

(** [np.minimum], the step of [np.min]. *)
Definition minimum (x y : spec_float) : spec_float :=
  if fle x y || isnan x then x else y.

(** The sign bit is clear, or the value is NaN: the value is not a negative
    number, not [-0.0] and not [-inf]. *)
Definition sign_clear (x : spec_float) : bool :=
  match x with
  | S754_nan => true
  | S754_zero s | S754_infinity s | S754_finite s _ _ => negb s
  end.

(** ** Two-dimensional arrays *)

Record ndarray (A : Type) := mk_ndarray {
  nrows : nat;
  ncols : nat;
  rows_of : list (list A)
}.

Arguments mk_ndarray {A} nrows ncols rows_of.
Arguments nrows {A} n.
Arguments ncols {A} n.
Arguments rows_of {A} n.

Definition shape {A} (g : ndarray A) : nat * nat := (nrows g, ncols g).

(** The rows agree with the recorded shape. *)
Definition wf {A} (g : ndarray A) : Prop :=
  length (rows_of g) = nrows g /\
  Forall (fun row => length row = ncols g) (rows_of g).

Definition tabulate {A} (r c : nat) (f : nat -> nat -> A) : ndarray A :=
  mk_ndarray r c (map (fun i => map (fun j => f i j) (seq 0 c)) (seq 0 r)).

Definition tabulateM {A} (r c : nat) (f : nat -> nat -> result A)
  : result (ndarray A) :=
  rows <- mapM (fun i => mapM (fun j => f i j) (seq 0 c)) (seq 0 r) ;;
  Ok (mk_ndarray r c rows).

(** [g[r, c]] for non-negative indices; out of range raises [IndexError]. *)
Definition get {A} (g : ndarray A) (r c : nat) : result A :=
  match nth_error (rows_of g) r with
  | Some row =>
      match nth_error row c with
      | Some x => Ok x
      | None => Raise IndexError
      end
  | None => Raise IndexError
  end.

(** All cells in row-major order ([ravel]). *)
Definition ravel {A} (g : ndarray A) : list A := concat (rows_of g).

(** [l[1:-1]]. *)
Definition mid {A} (l : list A) : list A := removelast (tl l).

(** [g[1:-1, 1:-1]]. *)
Definition inner {A} (g : ndarray A) : ndarray A :=
  mk_ndarray (nrows g - 2) (ncols g - 2) (map mid (mid (rows_of g))).

(** *** Broadcasting *)

Definition broadcast_dim (a b : nat) : result nat :=
  if a =? b then Ok a
  else if a =? 1 then Ok b
  else if b =? 1 then Ok a
  else Raise ValueError.

Definition broadcast_shape (s t : nat * nat) : result (nat * nat) :=
  r <- broadcast_dim (fst s) (fst t) ;;
  c <- broadcast_dim (snd s) (snd t) ;;
  Ok (r, c).

Definition shape_eqb (s t : nat * nat) : bool :=
  (fst s =? fst t) && (snd s =? snd t).

(** Reading a cell of an operand broadcast to a larger shape: an axis of
    length 1 is repeated. *)
Definition bget {A} (dflt : A) (g : ndarray A) (r c : nat) : A :=
  let r' := if nrows g =? 1 then 0 else r in
  let c' := if ncols g =? 1 then 0 else c in
  nth c' (nth r' (rows_of g) []) dflt.

(** ** compute_runoff (SCS curve-number method) *)

Section Runoff.

Variable d : dtype.

Definition eps : spec_float := of_ratio d 1 1000000.

(** One cell of [compute_runoff]: [p] precipitation, [cn] curve number,
    [m] the mask value. *)
Definition runoff_cell (p cn : spec_float) (m : Z) : spec_float :=
  let cn' := if fle cn fzero || (m =? 0)%Z then eps else cn in
  let p' := if (m =? 0)%Z then fzero else p in
  let S := maximum (fsub d (fdiv d (of_int d 1000) cn') (of_int d 10)) fzero in
  let valid_mask := fgt p' (fmul d (of_ratio d 1 5) S) && (m =? 1)%Z in
  let runoff :=
    if valid_mask then
      let t := fsub d p' (fmul d (of_ratio d 1 5) S) in
      astype float32
        (fdiv d (fmul d t t)
                (fadd d (fadd d p' (fmul d (of_ratio d 4 5) S)) eps))
    else fzero in
  fmul float32 runoff (of_int float32 m).

(** The whole function.  numpy broadcasts the three operands pairwise; the
    boolean-mask assignment needs [valid_mask], [precipitation] and [S] to
    have the shape of [runoff]. *)
Definition compute_runoff (precipitation cn_map : ndarray spec_float)
    (mask : ndarray Z) : result (ndarray spec_float) :=
  s_cn <- broadcast_shape (shape cn_map) (shape mask) ;;
  s_p <- broadcast_shape (shape mask) (shape precipitation) ;;
  s_valid <- broadcast_shape s_p s_cn ;;
  if shape_eqb s_valid s_p && shape_eqb s_valid s_cn then
    Ok (tabulate (fst s_p) (snd s_p)
          (fun r c => runoff_cell (bget S754_nan precipitation r c)
                                  (bget S754_nan cn_map r c)
                                  (bget 0%Z mask r c)))
  else Raise IndexError.

End Runoff.

(** ** calculate_flow_direction (D8) *)

Definition D8_OFFSETS : list (Z * Z) :=
  [(-1, -1); (-1, 0); (-1, 1); (0, 1); (1, 1); (1, 0); (1, -1); (0, -1)]%Z.

Definition D8_VALUES : list Z := [128; 1; 2; 4; 8; 16; 32; 64]%Z.

Definition enumerate {A} (l : list A) : list (nat * A) :=
  combine (seq 0 (length l)) l.

Fixpoint foldM {A S} (f : S -> A -> result S) (l : list A) (s : S)
  : result S :=
  match l with
  | [] => Ok s
  | a :: l' => s' <- f s a ;; foldM f l' s'
  end.

Section FlowDirection.

Variable d : dtype.
Variable window_data : ndarray spec_float.
Variable mask : ndarray Z.

(** The index [r + dr]; the loops keep [r >= 1], so it is never negative. *)
Definition shift (r : nat) (dr : Z) : nat := Z.to_nat (Z.of_nat r + dr).

(** The body of the loop over [enumerate(D8_OFFSETS)]; the state is
    [(min_diff, min_dir)]. *)
Definition neighbor_step (r c : nat) (center : spec_float)
    (st : spec_float * Z) (io : nat * (Z * Z)) : result (spec_float * Z) :=
  let '(i, (dr, dc)) := io in
  neighbor <- get window_data (shift r dr) (shift c dc) ;;
  if negb (isnan neighbor) then
    m <- get mask (shift r dr) (shift c dc) ;;
    if (m =? 1)%Z then
      let diff := fsub d center neighbor in
      if fgt diff fzero && flt diff (fst st)
      then Ok (diff, nth i D8_VALUES 0%Z)
      else Ok st
    else Ok st
  else Ok st.

(** The body of the two loops over the interior cells: the value left in
    [flow_dir[r, c]]. *)
Definition cell_direction (r c : nat) : result Z :=
  m <- get mask r c ;;
  if (m =? 0)%Z then Ok 0%Z
  else
    center <- get window_data r c ;;
    if isnan center then Ok 0%Z
    else
      st <- foldM (neighbor_step r c center) (enumerate D8_OFFSETS)
                  (pinf, 0%Z) ;;
      Ok (snd st).

(** [r in range(1, rows - 1)] and [c in range(1, cols - 1)]. *)
Definition interior (rows cols r c : nat) : bool :=
  (1 <=? r) && (r <? rows - 1) && (1 <=? c) && (c <? cols - 1).

(** [flow_dir] when the loops end: zero where the loops never write. *)
Definition flow_dir_array : result (ndarray Z) :=
  let rows := nrows window_data in
  let cols := ncols window_data in
  tabulateM rows cols
    (fun r c => if interior rows cols r c then cell_direction r c
                else Ok 0%Z).

Definition calculate_flow_direction : result (ndarray Z) :=
  flow_dir <- flow_dir_array ;;
  Ok (inner flow_dir).

End FlowDirection.

(** ** calculate_flow_direction_parallel *)

Record Window := mk_window {
  row_off : nat;
  col_off : nat;
  height : nat;
  width : nat
}.

(** The raster library's windowed read, [src.read(1, window=window)]: the
    cells of the window that lie in the grid. *)
Definition read_window {A} (src : ndarray A) (w : Window) : ndarray A :=
  mk_ndarray (Nat.min (height w) (nrows src - row_off w))
             (Nat.min (width w) (ncols src - col_off w))
             (map (fun row => firstn (width w) (skipn (col_off w) row))
                  (firstn (height w) (skipn (row_off w) (rows_of src)))).

Definition process_window (d : dtype)
    (args : Window * ndarray spec_float * ndarray Z)
  : result (Window * ndarray Z) :=
  let '(window, data, mask) := args in
  res <- calculate_flow_direction d data mask ;;
  Ok (window, res).

Definition cell {A} (dflt : A) (g : ndarray A) (r c : nat) : A :=
  nth c (nth r (rows_of g) []) dflt.

(** What [pool.map] returns: one [(window, result)] per block, in block
    order; an exception in a worker is raised in the caller. *)
Definition pool_results (d : dtype) (src : ndarray spec_float)
    (windows : list Window) (mask : ndarray Z)
  : result (list (Window * ndarray Z)) :=
  let data := map (read_window src) windows in
  mapM (process_window d)
       (combine (combine windows data) (repeat mask (length windows))).

Section TiledEngine.

(** The output raster belongs to the raster library: [raster] is its
    content, [dst_open] creates it from the source's profile (the height
    and width of the source, dtype uint8) and [dst_write] is the windowed
    write [dst.write(result, 1, window=window)].  Either may raise. *)
Variable raster : Type.
Variable dst_open : nat * nat -> result raster.
Variable dst_write : raster -> ndarray Z -> Window -> result raster.

(** [windows] stands for [src.block_windows()], the native tiling of the
    source raster.  The output raster is opened after the pool has
    returned; the value is the content of the output raster when the call
    ends. *)
Definition calculate_flow_direction_parallel (d : dtype)
    (src : ndarray spec_float) (windows : list Window) (mask : ndarray Z)
  : result raster :=
  results <- pool_results d src windows mask ;;
  dst <- dst_open (shape src) ;;
  foldM (fun dst wr => dst_write dst (snd wr) (fst wr)) results dst.

End TiledEngine.

(** ** normalize *)

Definition np_min (l : list spec_float) : result spec_float :=
  match l with
  | [] => Raise ValueError
  | x :: l' => Ok (fold_left minimum l' x)
  end.

Definition np_max (l : list spec_float) : result spec_float :=
  match l with
  | [] => Raise ValueError
  | x :: l' => Ok (fold_left maximum l' x)
  end.

Definition map_array {A B} (f : A -> B) (g : ndarray A) : ndarray B :=
  mk_ndarray (nrows g) (ncols g) (map (map f) (rows_of g)).

Definition normalize_cell (d : dtype) (lo hi x : spec_float) : spec_float :=
  fdiv d (fsub d x lo) (fadd d (fsub d hi lo) (eps d)).

Definition normalize (d : dtype) (array : ndarray spec_float)
  : result (ndarray spec_float) :=
  lo <- np_min (ravel array) ;;
  hi <- np_max (ravel array) ;;
  Ok (map_array (normalize_cell d lo hi) array).

(** ** The radar pipeline: process_radar_file, calculate_accumulated_runoff *)

(** Temporary files are named by a counter; [temp_files] are those on
    disk. *)
Record fs_state := mk_fs {
  next_name : nat;
  temp_files : list nat
}.

(** [NamedTemporaryFile(suffix=".tiff", delete=False)]: a new file that stays
    on disk when the [with] block closes it. *)
Definition NamedTemporaryFile (st : fs_state) : nat * fs_state :=
  (next_name st, mk_fs (S (next_name st)) (next_name st :: temp_files st)).

Definition os_remove (name : nat) (st : fs_state) : fs_state :=
  mk_fs (next_name st) (remove Nat.eq_dec name (temp_files st)).

Definition array_add (a b : ndarray spec_float) : ndarray spec_float :=
  tabulate (nrows a) (ncols a)
    (fun r c => fadd float32 (cell S754_nan a r c) (cell S754_nan b r c)).

Definition zeros_like (a : ndarray spec_float) : ndarray spec_float :=
  tabulate (nrows a) (ncols a) (fun _ _ => fzero).

(** How a run of [calculate_accumulated_runoff] ends: the value it returns
    or the exception it raises; the grid handed to [dst.write] with the
    height and width of the raster opened for it, when one is written; the
    list [individual_runoffs] as the call leaves it; the disk. *)
Record run := mk_run {
  returned : result (option (ndarray spec_float));
  written : option ((nat * nat) * ndarray spec_float);
  individual_runoffs : list (ndarray spec_float);
  disk : fs_state
}.

(** How the [for file in radar_files] loop ends: it runs to the end, with
    [accumulated_runoff] and [individual_runoffs], or it stops at the early
    [return None], after the runoff of the file was appended. *)
Inductive loop_end :=
| Completed (accumulated_runoff : option (ndarray spec_float))
            (individual : list (ndarray spec_float))
| EarlyReturn (individual : list (ndarray spec_float)).

Section Pipeline.

(** The collaborators, by radar file: whether the file is on disk, whether
    [crop_tiff_to_campania] and [align_radar_to_dem] return or raise, and
    what [process_tiff] makes of the aligned raster. *)
Variable path : Type.
Variable os_path_exists : path -> bool.
Variable crop_tiff_to_campania : path -> result unit.
Variable align_radar_to_dem : path -> result unit.
Variable process_tiff : path -> result (ndarray spec_float).

(** The raster library after the loop: the height and width in the profile
    of a file it opens for reading, and the creation of the output raster
    from a profile followed by [dst.write(accumulated_runoff, 1)].  Either
    may raise. *)
Variable raster_profile : path -> result (nat * nat).
Variable write_raster : nat * nat -> ndarray spec_float -> result unit.

Definition process_radar_file (file : path) (st : fs_state)
  : option (ndarray spec_float) * fs_state :=
  let '(cropped_tiff, st1) := NamedTemporaryFile st in
  match crop_tiff_to_campania file with
  | Raise _ => (None, st1)
  | Ok _ =>
      let '(aligned_tiff, st2) := NamedTemporaryFile st1 in
      match align_radar_to_dem file with
      | Raise _ => (None, st2)
      | Ok _ =>
          match process_tiff file with
          | Raise _ => (None, st2)
          | Ok runoff =>
              let st3 := os_remove cropped_tiff st2 in
              let st4 := os_remove aligned_tiff st3 in
              (Some runoff, st4)
          end
      end
  end.

(** The [for file in radar_files] loop, from the state
    [(accumulated_runoff, individual_runoffs)]. *)
Fixpoint accumulate_loop (radar_files : list path)
    (accumulated_runoff : option (ndarray spec_float))
    (individual : list (ndarray spec_float)) (st : fs_state)
  : loop_end * fs_state :=
  match radar_files with
  | [] => (Completed accumulated_runoff individual, st)
  | file :: rest =>
      if negb (os_path_exists file) then
        accumulate_loop rest accumulated_runoff individual st
      else
        let '(runoff, st') := process_radar_file file st in
        match runoff with
        | None => accumulate_loop rest accumulated_runoff individual st'
        | Some runoff =>
            match accumulated_runoff with
            | None =>
                accumulate_loop rest
                  (Some (array_add (zeros_like runoff) runoff))
                  (individual ++ [runoff]) st'
            | Some acc =>
                if negb (shape_eqb (shape runoff) (shape acc)) then
                  (EarlyReturn (individual ++ [runoff]), st')
                else
                  accumulate_loop rest (Some (array_add acc runoff))
                    (individual ++ [runoff]) st'
            end
        end
  end.

(** The figures printed for a grid after the loop: [np.min] and [np.max]
    raise on a grid without cells. *)
Definition print_stats (g : ndarray spec_float) : result unit :=
  lo <- np_min (ravel g) ;;
  hi <- np_max (ravel g) ;;
  Ok tt.

(** The code after the report, reached with an accumulated grid: its
    figures are printed, the profile of [radar_files[0]] is read, the
    output raster is created from it and the grid is written.  An
    exception of the raster library ends the call. *)
Definition save_accumulated (radar_files : list path)
    (accumulated_runoff : ndarray spec_float)
  : result ((nat * nat) * ndarray spec_float) :=
  shown <- print_stats accumulated_runoff ;;
  match radar_files with
  | [] => Raise IndexError
  | first :: _ =>
      profile <- raster_profile first ;;
      done <- write_raster profile accumulated_runoff ;;
      Ok (profile, accumulated_runoff)
  end.

(** [radar_files] stands for [get_radar_files(radar_directory)].  The early
    [return None] leaves at once; a loop that runs to its end is followed
    by the report on the individual runoffs and, with an accumulated grid,
    by the write; the grid is returned. *)
Definition calculate_accumulated_runoff (radar_files : list path)
    (st : fs_state) : run :=
  match accumulate_loop radar_files None [] st with
  | (EarlyReturn individual, st') => mk_run (Ok None) None individual st'
  | (Completed accumulated_runoff individual, st') =>
      match mapM print_stats individual with
      | Raise e => mk_run (Raise e) None individual st'
      | Ok _ =>
          match accumulated_runoff with
          | None => mk_run (Ok None) None individual st'
          | Some accumulated_runoff =>
              match save_accumulated radar_files accumulated_runoff with
              | Ok saved =>
                  mk_run (Ok (Some accumulated_runoff)) (Some saved)
                         individual st'
              | Raise e => mk_run (Raise e) None individual st'
              end
          end
      end
  end.

End Pipeline.

(** ** process_tiff *)

(** [np.nan_to_num(runoff, nan=0.0)] on the cells of a binary32 array: NaN
    becomes 0, the infinities become the largest and the smallest finite
    number. *)
Definition nan_to_num (x : spec_float) : spec_float :=
  match x with
  | S754_nan => fzero
  | S754_infinity false => SFmax_float 24 128
  | S754_infinity true => SFopp (SFmax_float 24 128)
  | _ => x
  end.

(** [a[a < 0] = 0], on one cell. *)
Definition clamp_negative (x : spec_float) : spec_float :=
  if flt x fzero then fzero else x.

Section ProcessTiff.

(** The dtype of the radar raster. *)
Variable d : dtype.

(** The collaborators: what the raster library reads from a file, band 1
    and the [nodata] value of the metadata, and numpy's
    [np.isclose(x, nodata, atol=1e-1)]. *)
Variable path : Type.
Variable rasterio_read :
  path -> result (ndarray spec_float * option spec_float).
Variable isclose : spec_float -> spec_float -> bool.

(** [np.where(np.isclose(precipitation, nodata, atol=tolerance), 0,
    precipitation)], skipped when the file declares no nodata value. *)
Definition replace_nodata (nodata : option spec_float) (x : spec_float)
  : spec_float :=
  match nodata with
  | Some nd => if isclose x nd then fzero else x
  | None => x
  end.

(** [np.max] raises [ValueError] on a raster without cells; the messages
    the function prints are left out. *)
Definition process_tiff (file : path) (cn_map : ndarray spec_float)
    (mask : ndarray Z) : result (ndarray spec_float) :=
  src <- rasterio_read file ;;
  let precipitation := map_array (replace_nodata (snd src)) (fst src) in
  let precipitation := map_array clamp_negative precipitation in
  largest <- np_max (ravel precipitation) ;;
  runoff <- compute_runoff d precipitation cn_map mask ;;
  let runoff := map_array nan_to_num runoff in
  Ok (map_array clamp_negative runoff).

End ProcessTiff.

(** ** The radar pipeline with its own process_tiff *)

(** [calculate_accumulated_runoff(radar_directory, cn_map, mask, dem_tiff,
    output_path)] as the module composes it: every radar file goes through
    [process_radar_file], which hands the aligned raster to [process_tiff]
    with the curve numbers and the mask of the run.  [rasterio_read file] is
    what the raster library reads from the aligned raster of [file]. *)
Definition radar_pipeline (d : dtype) (path : Type)
    (os_path_exists : path -> bool)
    (crop_tiff_to_campania align_radar_to_dem : path -> result unit)
    (rasterio_read : path -> result (ndarray spec_float * option spec_float))
    (isclose : spec_float -> spec_float -> bool)
    (raster_profile : path -> result (nat * nat))
    (write_raster : nat * nat -> ndarray spec_float -> result unit)
    (cn_map : ndarray spec_float) (mask : ndarray Z)
    (radar_files : list path) (st : fs_state) : run :=
  calculate_accumulated_runoff path os_path_exists crop_tiff_to_campania
    align_radar_to_dem
    (fun file => process_tiff d path rasterio_read isclose file cn_map mask)
    raster_profile write_raster radar_files st.

(** ** compute_flood_risk *)

Section FloodRisk.

(** The collaborators: band 1 of the flow-direction raster, and scipy's
    [gaussian_filter(risk_map, sigma=2)]. *)
Variable path : Type.
Variable rasterio_read_band : path -> result (ndarray spec_float).
Variable gaussian_filter : ndarray spec_float -> ndarray spec_float.

(** [(0.7 * runoff_norm) + (0.3 * flow_norm)] on binary32 arrays, the two
    operands broadcast against each other. *)
Definition weighted_sum (runoff_norm flow_norm : ndarray spec_float)
  : result (ndarray spec_float) :=
  s <- broadcast_shape (shape runoff_norm) (shape flow_norm) ;;
  Ok (tabulate (fst s) (snd s)
        (fun r c =>
           fadd float32
             (fmul float32 (of_ratio float32 7 10)
                   (bget S754_nan runoff_norm r c))
             (fmul float32 (of_ratio float32 3 10)
                   (bget S754_nan flow_norm r c)))).

(** [risk_map], the grid handed to the filter. *)
Definition risk_map (flow_direction_tiff : path)
    (runoff : ndarray spec_float) : result (ndarray spec_float) :=
  src <- rasterio_read_band flow_direction_tiff ;;
  let flow_direction := map_array (astype float32) src in
  runoff_norm <- normalize float32 (map_array (astype float32) runoff) ;;
  flow_norm <- normalize float32 flow_direction ;;
  weighted_sum runoff_norm flow_norm.

Definition compute_flood_risk (flow_direction_tiff : path)
    (runoff : ndarray spec_float) : result (ndarray spec_float) :=
  risk <- risk_map flow_direction_tiff runoff ;;
  Ok (gaussian_filter risk).

End FloodRisk.

(** ** get_radar_files *)

Module RadarFiles.

Import String Ascii.
Local Open Scope string_scope.

(** [s.startswith(prefix)] and [s.endswith(suffix)]. *)
Fixpoint startswith (s prefix : string) : bool :=
  match prefix with
  | EmptyString => true
  | String a prefix' =>
      match s with
      | EmptyString => false
      | String b s' => Ascii.eqb a b && startswith s' prefix'
      end
  end.

Fixpoint endswith (s suffix : string) : bool :=
  if String.eqb s suffix then true
  else match s with
       | EmptyString => false
       | String _ s' => endswith s' suffix
       end.

(** [os.path.join(a, b)] of [posixpath]. *)
Definition os_path_join (a b : string) : string :=
  if startswith b "/" then b
  else match a with
       | EmptyString => b
       | _ => if endswith a "/" then a ++ b else a ++ "/" ++ b
       end.

(** [os_listdir] is the directory listing of the operating system, which
    raises when the directory cannot be read. *)
Definition get_radar_files (os_listdir : string -> result (list string))
    (directory : string) : result (list string) :=
  names <- os_listdir directory ;;
  Ok (map (os_path_join directory)
          (filter (fun f => endswith f ".tiff") names)).

End RadarFiles.

(** * Notions used in the statements *)

(** ** Signs, order and validity of floating-point values *)

(** Not a negative number: NaN, a zero of either sign, or positive. *)
Definition not_below_zero (x : spec_float) : bool :=
  match x with
  | S754_finite true _ _ | S754_infinity true => false
  | _ => true
  end.

Definition strictly_positive (x : spec_float) : bool :=
  match x with
  | S754_finite false _ _ | S754_infinity false => true
  | _ => false
  end.

(** A number other than zero whose sign bit is [s]. *)
Definition nonzero_signed (s : bool) (x : spec_float) : bool :=
  match x with
  | S754_finite s' _ _ | S754_infinity s' => Bool.eqb s' s
  | _ => false
  end.

(** A key whose lexicographic order is the order [SFcompare] computes on
    values that are not NaN. *)
Definition order_key (x : spec_float) : Z * Z * Z :=
  match x with
  | S754_zero _ => (0, 0, 0)
  | S754_infinity false => (2, 0, 0)
  | S754_infinity true => (-2, 0, 0)
  | S754_nan => (3, 0, 0)
  | S754_finite false m e => (1, e, Zpos m)
  | S754_finite true m e => (-1, - e, Zneg m)
  end%Z.

Definition lex_lt (a b : Z * Z * Z) : Prop :=
  let '(a1, a2, a3) := a in
  let '(b1, b2, b3) := b in
  (a1 < b1 \/ (a1 = b1 /\ (a2 < b2 \/ (a2 = b2 /\ a3 < b3))))%Z.

(** A value that dtype [d] can hold: its mantissa and exponent are in
    canonical form for the format. *)
Definition valid (d : dtype) (x : spec_float) : bool :=
  valid_binary (prec d) (emax d) x.

(** Every cell is a value of dtype [d]. *)
Definition dtype_grid (d : dtype) (g : ndarray spec_float) : Prop :=
  Forall (Forall (fun x => valid d x = true)) (rows_of g).

(** Every cell is a finite value of dtype [d]. *)
Definition finite_grid (d : dtype) (g : ndarray spec_float) : Prop :=
  Forall (fun x => valid d x = true /\ isfinite x = true) (ravel g).

(** The squared excess [(p - 0.2 S)^2] of a land cell, the numerator of the
    runoff formula. *)
Definition squared_excess (d : dtype) (p cn : spec_float) : spec_float :=
  let cn' := if fle cn fzero then eps d else cn in
  let S := maximum (fsub d (fdiv d (of_int d 1000) cn') (of_int d 10)) fzero in
  let t := fsub d p (fmul d (of_ratio d 1 5) S) in
  fmul d t t.

(** The potential retention [S] of a land cell. *)
Definition retention (d : dtype) (cn : spec_float) : spec_float :=
  let cn' := if fle cn fzero then eps d else cn in
  maximum (fsub d (fdiv d (of_int d 1000) cn') (of_int d 10)) fzero.

(** [valid_mask] at a land cell: [precipitation > 0.2 * S]. *)
Definition in_valid_mask (d : dtype) (p cn : spec_float) : bool :=
  fgt p (fmul d (of_ratio d 1 5) (retention d cn)).

(** The denominator of the runoff formula at a land cell, before and after
    [1e-6] is added. *)
Definition wet_depth (d : dtype) (p cn : spec_float) : spec_float :=
  fadd d p (fmul d (of_ratio d 4 5) (retention d cn)).

Definition runoff_denominator (d : dtype) (p cn : spec_float) : spec_float :=
  fadd d (wet_depth d p cn) (eps d).

(** The largest binary32 number, as a value of dtype [d]. *)
Definition max_binary32 (d : dtype) : spec_float :=
  astype d (SFmax_float 24 128).

(** ** The neighbours of a cell, as the D8 tables pair them *)

(** Offsets and codes in the order the loop visits them: NW, N, NE, E, SE,
    S, SW, W. *)
Definition d8_neighbors : list ((Z * Z) * Z) :=
  [((-1, -1), 128); ((-1, 0), 1); ((-1, 1), 2); ((0, 1), 4);
   ((1, 1), 8); ((1, 0), 16); ((1, -1), 32); ((0, -1), 64)]%Z.

Section Neighbours.

Variable d : dtype.
Variable window_data : ndarray spec_float.
Variable mask : ndarray Z.
Variables r c : nat.
Variable center : spec_float.

(** The elevation drop towards the neighbour at [off], when that neighbour
    is eligible: its elevation is not NaN and its mask value is 1. *)
Definition neighbor_drop (off : Z * Z) : result (option spec_float) :=
  neighbor <- get window_data (shift r (fst off)) (shift c (snd off)) ;;
  if negb (isnan neighbor) then
    m <- get mask (shift r (fst off)) (shift c (snd off)) ;;
    if (m =? 1)%Z then Ok (Some (fsub d center neighbor)) else Ok None
  else Ok None.

(** [neighbor_step], on an offset paired with its code. *)
Definition pair_step (st : spec_float * Z) (oc : (Z * Z) * Z)
  : result (spec_float * Z) :=
  od <- neighbor_drop (fst oc) ;;
  Ok (match od with
      | Some diff =>
          if fgt diff fzero && flt diff (fst st) then (diff, snd oc) else st
      | None => st
      end).

(** What the scan knows after the neighbours [seen]: either nothing was
    selected and no eligible neighbour seen has a finite positive drop, or
    the selected neighbour has the least positive drop seen, strictly less
    than every positive drop seen before it. *)
Definition scan_inv (seen : list ((Z * Z) * Z)) (st : spec_float * Z)
  : Prop :=
  (st = (pinf, 0%Z) /\
   forall oc diff, In oc seen -> neighbor_drop (fst oc) = Ok (Some diff) ->
     fgt diff fzero = true -> flt diff pinf = false)
  \/
  (exists before off code after diff,
     seen = before ++ (off, code) :: after /\
     neighbor_drop off = Ok (Some diff) /\
     fgt diff fzero = true /\ flt diff pinf = true /\
     st = (diff, code) /\
     (forall oc dj, In oc seen -> neighbor_drop (fst oc) = Ok (Some dj) ->
        fgt dj fzero = true -> flt dj diff = false) /\
     (forall oc dj, In oc before -> neighbor_drop (fst oc) = Ok (Some dj) ->
        fgt dj fzero = true -> flt diff dj = true)).

End Neighbours.

(** The selection rule of the scan, for the cell [(r, c)] with elevation
    [center]: [code] is 0 and no eligible neighbour has a drop with
    [0 < diff < +inf]; or [code] belongs to an eligible neighbour whose drop
    has [0 < diff < +inf], no positive drop is smaller, and the positive
    drops of the neighbours visited before it are strictly larger. *)
Definition selects_least_finite_drop (d : dtype)
    (window_data : ndarray spec_float) (mask : ndarray Z) (r c : nat)
    (center : spec_float) (code : Z) : Prop :=
  (code = 0%Z /\
   forall oc diff, In oc d8_neighbors ->
     neighbor_drop d window_data mask r c center (fst oc) = Ok (Some diff) ->
     fgt diff fzero = true -> flt diff pinf = false)
  \/
  (exists before off after diff,
     d8_neighbors = before ++ (off, code) :: after /\
     neighbor_drop d window_data mask r c center off = Ok (Some diff) /\
     fgt diff fzero = true /\ flt diff pinf = true /\
     (forall oc dj, In oc d8_neighbors ->
        neighbor_drop d window_data mask r c center (fst oc) = Ok (Some dj) ->
        fgt dj fzero = true -> flt dj diff = false) /\
     (forall oc dj, In oc before ->
        neighbor_drop d window_data mask r c center (fst oc) = Ok (Some dj) ->
        fgt dj fzero = true -> flt diff dj = true)).

(** ** Tiles inside the grid *)



(** ** Temporary files *)

(** Every temporary file on disk was named by the counter before. *)
Definition names_below_counter (st : fs_state) : Prop :=
  forall name, In name (temp_files st) -> name < next_name st.

(** ** Grids of runoff values *)

(** The rows agree with the shape and every cell is a number [>= 0]: no cell
    is negative and none is NaN. *)
Definition nonneg_grid (g : ndarray spec_float) : Prop :=
  wf g /\ forall r c x, get g r c = Ok x -> fle fzero x = true.

(** The rows agree with the shape and every cell is a finite number
    [>= 0]. *)
Definition finite_nonneg_grid (g : ndarray spec_float) : Prop :=
  wf g /\
  forall r c x, get g r c = Ok x -> isfinite x = true /\ fle fzero x = true.

(** ** Runs of the radar pipeline *)

(** One of the three steps of [process_radar_file] raises on the file. *)
Definition step_fails {path : Type}
    (crop_tiff_to_campania align_radar_to_dem : path -> result unit)
    (process_tiff : path -> result (ndarray spec_float)) (file : path)
  : Prop :=
  (exists e, crop_tiff_to_campania file = Raise e) \/
  (exists e, align_radar_to_dem file = Raise e) \/
  (exists e, process_tiff file = Raise e).


(** ** Rounding to nearest, ties to even

    The notions the proofs about [binary_round_aux] are stated with. *)

(** [M / 2^k] rounded to the nearest integer, ties to even. *)
Definition rnd (M k : Z) : Z :=
  let q := (M / 2 ^ k)%Z in
  let r := (M mod 2 ^ k)%Z in
  match (2 * r ?= 2 ^ k)%Z with
  | Lt => q
  | Eq => if Z.even q then q else (q + 1)%Z
  | Gt => (q + 1)%Z
  end.

(** The float of sign [s] and value [m * 2^E]: a mantissa of [p + 1] bits
    loses its last bit to the exponent, and an exponent above the format's
    gives infinity. *)
Definition pack (p em : Z) (s : bool) (m E : Z) : spec_float :=
  let '(m', E') := if (m <? 2 ^ p)%Z then (m, E) else ((m / 2)%Z, (E + 1)%Z) in
  match m' with
  | Z0 => S754_zero s
  | Zpos q => if (E' <=? em - p)%Z then S754_finite s q E'
              else S754_infinity s
  | Zneg _ => S754_nan
  end.

(** A mantissa and an exponent as rounding to the format leaves them: at
    most [p] bits, or exactly [2^p]; the exponent at least [emin]; [p] bits
    above [emin]. *)
Definition in_format (p em : Z) (m E : Z) : Prop :=
  (0 <= m <= 2 ^ p)%Z /\ (emin p em <= E)%Z /\
  ((emin p em < E)%Z -> (2 ^ (p - 1) <= m)%Z).

(** The bits a right shift drops, as the shift record keeps them. *)
Definition shr_inv (M : Z) (k : Z) (mrs : shr_record) : Prop :=
  exists t,
    (0 <= t < 2 ^ k)%Z /\
    (2 * M = shr_m mrs * 2 ^ (k + 1)
             + (if shr_r mrs then 2 ^ k else 0) + t)%Z /\
    shr_s mrs = negb (t =? 0)%Z.

(** The value of a finite float as a multiple of [2^c], for [c] not above
    its exponent. *)
Definition scaled (c : Z) (x : spec_float) : Z :=
  match x with
  | S754_finite s m e => cond_Zopp s (Zpos m * 2 ^ (e - c))%Z
  | _ => 0%Z
  end.

(** [c] is not above the exponent of [x]. *)
Definition below_exponent (c : Z) (x : spec_float) : Prop :=
  match x with
  | S754_finite _ _ e => (c <= e)%Z
  | _ => True
  end.

(** Equal up to the sign of zero. *)
Definition same_value (a b : spec_float) : Prop :=
  a = b \/ exists s s', a = S754_zero s /\ b = S754_zero s'.


(** * Example inputs *)

(** ** Grids for compute_runoff *)

Definition sea_example_precipitation : ndarray spec_float :=
  mk_ndarray 1 2 [[of_int float32 5; of_int float32 12]].
Definition sea_example_cn : ndarray spec_float :=
  mk_ndarray 1 2 [[of_int float32 80; of_int float32 80]].
Definition sea_example_mask : ndarray Z := mk_ndarray 1 2 [[1; 0]]%Z.
Definition sea_example_out : ndarray spec_float :=
  mk_ndarray 1 2 [[S754_finite false 12133521 (-22); S754_zero false]].

Definition broadcast_example_precipitation : ndarray spec_float :=
  mk_ndarray 2 2 [[of_int float32 0; of_int float32 5];
                  [of_int float32 10; of_int float32 0]].
Definition broadcast_example_cn : ndarray spec_float :=
  mk_ndarray 1 2 [[of_int float32 80; of_int float32 80]].
Definition broadcast_example_mask : ndarray Z :=
  mk_ndarray 2 2 [[1; 1]; [1; 1]]%Z.

(** ** Windows for the flow direction *)

(** A 3 x 3 window around a cell of elevation 10.  The drops are 1 to the
    NW, 3 to the N, 1 to the NE, 5 to the E, 3 to the S and 7 to the W; the
    SE neighbour is higher and the SW one is NaN. *)
Definition peak_window : ndarray spec_float :=
  mk_ndarray 3 3
    [[of_int float32 9; of_int float32 7; of_int float32 9];
     [of_int float32 3; of_int float32 10; of_int float32 5];
     [S754_nan; of_int float32 7; of_int float32 12]].

Definition ones (r c : nat) : ndarray Z := tabulate r c (fun _ _ => 1%Z).

(** A 3 x 3 window of the largest binary32 number, with its negation to the
    north of the centre. *)
Definition overflow_window : ndarray spec_float :=
  let big := SFmax_float 24 128 in
  mk_ndarray 3 3
    [[big; SFopp big; big];
     [big; big; big];
     [big; big; big]].

(** A grid sloping down to the east, its native tiling in two blocks, and a
    mask with one sea cell in the eastern block. *)
Definition slope_grid : ndarray spec_float :=
  tabulate 3 6 (fun _ c => of_int float32 (6 - Z.of_nat c)).

Definition two_tiles : list Window :=
  [mk_window 0 0 3 3; mk_window 0 3 3 3].

Definition sea_east : ndarray Z :=
  tabulate 3 6 (fun r c => if (r =? 1) && (c =? 4) then 0%Z else 1%Z).

(** An output raster that keeps what it is handed: the windows and the
    blocks written to it, in order. *)
Definition log_open (profile : nat * nat)
  : result (list (Window * ndarray Z)) := Ok [].

Definition log_write (dst : list (Window * ndarray Z)) (block : ndarray Z)
    (w : Window) : result (list (Window * ndarray Z)) :=
  Ok (dst ++ [(w, block)]).

(** ** A small radar directory *)

(** Three radar files, numbered 0 to 2.  The crop of file 0 fails; files 1
    and 2 pass every step, with runoff grids of shapes 1 x 1 and 1 x 2. *)
Definition demo_exists (file : nat) : bool := true.

Definition demo_crop (file : nat) : result unit :=
  match file with
  | 0 => Raise ExternalError
  | _ => Ok tt
  end.

Definition demo_align (file : nat) : result unit := Ok tt.

Definition demo_process_tiff (file : nat) : result (ndarray spec_float) :=
  match file with
  | 1 => Ok (mk_ndarray 1 1 [[of_int float32 3]])
  | _ => Ok (mk_ndarray 1 2 [[of_int float32 1; of_int float32 2]])
  end.

(** Every radar file opens with a profile of one row and two columns, and
    the output raster can be written. *)
Definition demo_profile (file : nat) : result (nat * nat) := Ok (1, 2).

Definition demo_write (profile : nat * nat) (grid : ndarray spec_float)
  : result unit := Ok tt.

Definition empty_disk : fs_state := mk_fs 0 [].

(** ** Grids for normalize *)

(** Flow-direction codes as [compute_flood_risk] passes them to
    [normalize]: binary32 values between 0 and 128. *)
Definition codes_grid : ndarray spec_float :=
  mk_ndarray 1 3 [[of_int float32 0; of_int float32 64; of_int float32 128]].

Definition infinite_grid : ndarray spec_float :=
  mk_ndarray 1 2 [[pinf; pinf]].

Definition constant_grid : ndarray spec_float :=
  mk_ndarray 2 2 [[of_int float32 7; of_int float32 7];
                  [of_int float32 7; of_int float32 7]].

(** ** More grids for compute_runoff *)

(** The runoff of the broadcast example: the two cells without rain hold
    0. *)
Definition broadcast_example_out : ndarray spec_float :=
  mk_ndarray 2 2
    [[S754_zero false; S754_finite false 12133521 (-22)];
     [S754_finite false 15772329 (-21); S754_zero false]].

(** A curve-number grid with a zero and a negative entry. *)
Definition no_curve_number : ndarray spec_float :=
  mk_ndarray 1 2 [[of_int float32 0; of_int float32 (-5)]].

(** ** More tilings *)

(** The tiling of a raster stored in strips of one row. *)
Definition row_strips : list Window :=
  [mk_window 0 0 1 6; mk_window 1 0 1 6; mk_window 2 0 1 6].

(** ** More grids for normalize *)

(** A grid with one cell that holds no value. *)
Definition gap_grid : ndarray spec_float :=
  mk_ndarray 2 2 [[of_int float32 3; S754_nan];
                  [of_int float32 1; of_int float32 8]].

(** ** Aligned radar rasters *)

(** A stand-in for [np.isclose(x, nodata, atol=1e-1)] in the examples: the
    two values differ by at most 0.1. *)
Definition demo_isclose (x nodata : spec_float) : bool :=
  fle (fsub float32 x nodata) (of_ratio float32 1 10)
  && fle (fsub float32 nodata x) (of_ratio float32 1 10).

(** The aligned rasters of the radar files, with nodata value -9999.  File
    0 cannot be read and the raster of file 3 has no cell; the others hold a
    value so large that its runoff overflows, a negative value, a nodata
    cell and 12 mm of rain. *)
Definition demo_rain : ndarray spec_float :=
  mk_ndarray 1 4
    [[of_int float32 (2 ^ 70); of_int float32 (-3);
      of_int float32 (-9999); of_int float32 12]].

Definition demo_raster (file : nat)
  : result (ndarray spec_float * option spec_float) :=
  match file with
  | 0 => Raise ExternalError
  | 3 => Ok (mk_ndarray 0 4 [], Some (of_int float32 (-9999)))
  | _ => Ok (demo_rain, Some (of_int float32 (-9999)))
  end.

Definition demo_cn : ndarray spec_float :=
  mk_ndarray 1 4 [[of_int float32 100; of_int float32 80;
                   of_int float32 80; of_int float32 80]].

Definition demo_runoff : ndarray spec_float :=
  mk_ndarray 1 4
    [[SFmax_float 24 128; fzero; fzero; S754_finite false 9905298 (-20)]].

(** ** Inputs for compute_flood_risk *)

(** A flow-direction raster with the codes of [codes_grid], under every
    path. *)
Definition demo_flow_raster (file : nat) : result (ndarray spec_float) :=
  Ok codes_grid.

(** An accumulated runoff of the same shape. *)
Definition demo_accumulated : ndarray spec_float :=
  mk_ndarray 1 3 [[of_int float32 0; of_int float32 2; of_int float32 8]].

(** ** A radar directory *)

Module RadarFilesExamples.

Import String Ascii.
Local Open Scope string_scope.

(** A directory with two radar files among other files. *)
Definition demo_listdir (directory : string) : result (list string) :=
  Ok ["radar_0800.tiff"; "radar_0810.tif"; "README.txt"; "radar_0820.tiff"].

End RadarFilesExamples.

(** * Properties *)

(** ** Literals *)

(** The literals of the source in binary32, as their bit patterns
    [0x3E4CCCCD], [0x3F4CCCCD] and [0x358637BD] give them. *)
Example literals_binary32 :
  of_ratio float32 1 5 = S754_finite false 13421773 (-26) /\
  of_ratio float32 4 5 = S754_finite false 13421773 (-24) /\
  eps float32 = S754_finite false 8796093 (-43).
Proof. vm_compute. repeat split. Qed.

(** ** Arrays *)

Lemma nth_error_tabulate_row {A} (f : nat -> A) (n i : nat) :
  i < n -> nth_error (map f (seq 0 n)) i = Some (f i).
Proof.
  intro Hi. rewrite nth_error_map, nth_error_seq.
  destruct (Nat.ltb_spec i n); [reflexivity | lia].
Qed.

Lemma get_tabulate {A} (f : nat -> nat -> A) (r c i j : nat) :
  i < r -> j < c -> get (tabulate r c f) i j = Ok (f i j).
Proof.
  intros Hi Hj. unfold get, tabulate. simpl.
  rewrite (nth_error_tabulate_row (fun i => map (fun j => f i j) (seq 0 c)) r i Hi).
  rewrite (nth_error_tabulate_row (fun j => f i j) c j Hj). reflexivity.
Qed.

Lemma get_in_range {A} (g : ndarray A) (i j : nat) (x : A) :
  wf g -> get g i j = Ok x -> i < nrows g /\ j < ncols g.
Proof.
  intros [Hr Hc] H. unfold get in H.
  destruct (nth_error (rows_of g) i) as [row|] eqn:Er; [|discriminate].
  destruct (nth_error row j) as [y|] eqn:Ec; [|discriminate].
  split.
  - rewrite <- Hr. apply nth_error_Some. congruence.
  - rewrite Forall_forall in Hc. rewrite <- (Hc row).
    + apply nth_error_Some. congruence.
    + eapply nth_error_In; eassumption.
Qed.

Lemma wf_tabulate {A} (f : nat -> nat -> A) (r c : nat) : wf (tabulate r c f).
Proof.
  split; simpl.
  - rewrite length_map, length_seq. reflexivity.
  - apply Forall_forall. intros row Hin. apply in_map_iff in Hin.
    destruct Hin as [i [<- _]]. rewrite length_map, length_seq. reflexivity.
Qed.

(** ** Signs of rounded results *)

Section Signs.

Variables p e : Z.

Lemma binary_round_aux_sign_clear (m ex : Z) (l : location) :
  sign_clear (binary_round_aux p e false m ex l) = true.
Proof.
  unfold binary_round_aux.
  destruct (shr_fexp p e m ex l) as [mrs' e'].
  destruct (shr_fexp p e _ e' loc_Exact) as [mrs'' e''].
  destruct (shr_m mrs''); [reflexivity | | reflexivity].
  destruct (Z.leb e'' (e - p)); reflexivity.
Qed.

Lemma binary_round_sign_clear (m : positive) (ex : Z) :
  sign_clear (binary_round p e false m ex) = true.
Proof.
  unfold binary_round. destruct (shl_align _ _ _) as [mz ez].
  apply binary_round_aux_sign_clear.
Qed.

End Signs.

Lemma get_ok {A} (g : ndarray A) (i j : nat) :
  wf g -> i < nrows g -> j < ncols g -> exists x, get g i j = Ok x.
Proof.
  intros [Hr Hc] Hi Hj. unfold get.
  destruct (nth_error (rows_of g) i) as [row|] eqn:Er.
  - assert (Hlen : length row = ncols g).
    { rewrite Forall_forall in Hc. apply Hc.
      eapply nth_error_In; eassumption. }
    destruct (nth_error row j) as [x|] eqn:Ec; [eauto|].
    apply nth_error_None in Ec. lia.
  - apply nth_error_None in Er. lia.
Qed.

Lemma mapM_inv {A B} (f : A -> result B) (l : list A) (bs : list B) :
  mapM f l = Ok bs ->
  length bs = length l /\
  forall i a, nth_error l i = Some a ->
    exists b, f a = Ok b /\ nth_error bs i = Some b.
Proof.
  revert bs. induction l as [|a l IH]; simpl; intros bs H.
  - inversion H. split; [reflexivity|]. intros [|i] x Hx; discriminate.
  - destruct (f a) as [b|] eqn:Ea; [|discriminate]. simpl in H.
    destruct (mapM f l) as [bs'|] eqn:El; [|discriminate]. simpl in H.
    inversion H; subst bs. destruct (IH bs' eq_refl) as [Hlen Hnth].
    split; [simpl; congruence|].
    intros [|i] x Hx; simpl in *.
    + inversion Hx; subst x. eauto.
    + apply Hnth. exact Hx.
Qed.

Lemma mapM_total {A B} (f : A -> result B) (l : list A) :
  (forall a, In a l -> exists b, f a = Ok b) -> exists bs, mapM f l = Ok bs.
Proof.
  induction l as [|a l IH]; simpl; intro H; [eauto|].
  destruct (H a (or_introl eq_refl)) as [b Hb]. rewrite Hb. simpl.
  destruct IH as [bs Hbs]; [intros; apply H; auto|].
  rewrite Hbs. simpl. eauto.
Qed.

Lemma tabulateM_inv {A} (f : nat -> nat -> result A) (r c : nat)
    (arr : ndarray A) :
  tabulateM r c f = Ok arr ->
  nrows arr = r /\ ncols arr = c /\ wf arr /\
  forall i j, i < r -> j < c -> exists v, f i j = Ok v /\ get arr i j = Ok v.
Proof.
  unfold tabulateM. intro H.
  destruct (mapM _ (seq 0 r)) as [rows|] eqn:E; [|discriminate].
  simpl in H. inversion H; subst arr. clear H. simpl.
  destruct (mapM_inv _ _ _ E) as [Hlen Hrows]. rewrite length_seq in Hlen.
  assert (Hrow : forall i, i < r -> exists row,
             nth_error rows i = Some row /\ length row = c /\
             forall j, j < c -> exists v,
               f i j = Ok v /\ nth_error row j = Some v).
  { intros i Hi.
    destruct (Hrows i i) as [row [Hm Hn]].
    - rewrite nth_error_seq. destruct (Nat.ltb_spec i r); [reflexivity|lia].
    - exists row. destruct (mapM_inv _ _ _ Hm) as [Hl Hcells].
      rewrite length_seq in Hl. repeat split; try assumption.
      intros j Hj. apply Hcells. rewrite nth_error_seq.
      destruct (Nat.ltb_spec j c); [reflexivity|lia]. }
  split; [reflexivity|]. split; [reflexivity|]. split.
  - unfold wf. simpl. split; [exact Hlen|].
    apply Forall_forall. intros row Hin.
    destruct (In_nth_error _ _ Hin) as [i Hi].
    assert (Hir : i < r).
    { rewrite <- Hlen. apply nth_error_Some. congruence. }
    destruct (Hrow i Hir) as [row' [Hr' [Hl' _]]]. congruence.
  - intros i j Hi Hj. destruct (Hrow i Hi) as [row [Hr [_ Hcells]]].
    destruct (Hcells j Hj) as [v [Hv Hn]]. exists v. split; [exact Hv|].
    unfold get. simpl. rewrite Hr, Hn. reflexivity.
Qed.

Lemma tabulateM_total {A} (f : nat -> nat -> result A) (r c : nat) :
  (forall i j, i < r -> j < c -> exists v, f i j = Ok v) ->
  exists arr, tabulateM r c f = Ok arr.
Proof.
  intro H. unfold tabulateM.
  destruct (mapM_total (fun i => mapM (fun j => f i j) (seq 0 c)) (seq 0 r))
    as [rows Hrows].
  - intros i Hi. apply in_seq in Hi. apply mapM_total.
    intros j Hj. apply in_seq in Hj. apply H; lia.
  - rewrite Hrows. simpl. eauto.
Qed.

Lemma length_mid {A} (l : list A) : length (mid l) = length l - 2.
Proof.
  unfold mid. rewrite removelast_firstn_len, length_firstn, length_tl. lia.
Qed.

Lemma nth_error_mid {A} (l : list A) (i : nat) :
  i < length l - 2 -> nth_error (mid l) i = nth_error l (S i).
Proof.
  intro Hi. unfold mid.
  rewrite removelast_firstn_len, nth_error_firstn, length_tl.
  destruct (Nat.ltb_spec i (pred (length l - 1))); [|lia].
  destruct l; [simpl in Hi; lia | reflexivity].
Qed.

Lemma In_mid {A} (l : list A) (x : A) : In x (mid l) -> In x l.
Proof.
  intro H. destruct (In_nth_error _ _ H) as [i Hi].
  assert (Hlt : i < length l - 2).
  { rewrite <- length_mid. apply nth_error_Some. congruence. }
  rewrite nth_error_mid in Hi by exact Hlt.
  eapply nth_error_In; eassumption.
Qed.

Lemma wf_inner {A} (g : ndarray A) : wf g -> wf (inner g).
Proof.
  intros [Hr Hc]. unfold wf, inner. simpl. split.
  - rewrite length_map, length_mid. lia.
  - apply Forall_forall. intros row Hin. apply in_map_iff in Hin.
    destruct Hin as [row' [<- Hin]]. rewrite length_mid.
    rewrite Forall_forall in Hc. rewrite (Hc row'); [reflexivity|].
    apply In_mid. exact Hin.
Qed.

Lemma get_inner {A} (g : ndarray A) (i j : nat) :
  wf g -> i < nrows g - 2 -> j < ncols g - 2 ->
  get (inner g) i j = get g (S i) (S j).
Proof.
  intros [Hr Hc] Hi Hj. unfold get, inner. cbn [rows_of].
  rewrite nth_error_map, nth_error_mid by lia.
  destruct (nth_error (rows_of g) (S i)) as [row|] eqn:Er; [|reflexivity].
  cbn [option_map]. rewrite nth_error_mid; [reflexivity|].
  rewrite Forall_forall in Hc. rewrite (Hc row); [exact Hj|].
  eapply nth_error_In; eassumption.
Qed.

(** ** The order of IEEE 754 comparisons *)

Lemma SFltb_order_key (a b : spec_float) :
  SFltb a b = true <->
  isnan a = false /\ isnan b = false /\ lex_lt (order_key a) (order_key b).
Proof.
  unfold SFltb.
  destruct a as [[]|[]| |[] ma ea], b as [[]|[]| |[] mb eb]; simpl;
    try change (Pos.compare_cont Eq ma mb) with (Pos.compare ma mb);
    try destruct (Z.compare_spec ea eb);
    try destruct (Pos.compare_spec ma mb);
    simpl; split; intro Hgoal;
    try discriminate; try reflexivity;
    try (repeat split; lia);
    try (destruct Hgoal as [Hna [Hnb Hlt]]; first [discriminate | lia]).
Qed.

Lemma flt_not_nan (a b : spec_float) :
  flt a b = true -> isnan a = false /\ isnan b = false.
Proof. intro H. apply SFltb_order_key in H. tauto. Qed.

Lemma flt_asym (a b : spec_float) : flt a b = true -> flt b a = false.
Proof.
  intro H. destruct (flt b a) eqn:E; [|reflexivity].
  apply SFltb_order_key in H. apply SFltb_order_key in E.
  destruct H as [_ [_ H]], E as [_ [_ E]].
  destruct (order_key a) as [[a1 a2] a3], (order_key b) as [[b1 b2] b3].
  simpl in H, E. lia.
Qed.

Lemma flt_cotrans (a b c : spec_float) :
  flt a b = true -> isnan c = false -> flt a c = true \/ flt c b = true.
Proof.
  intros H Hc. unfold flt in *. rewrite !SFltb_order_key in *.
  destruct H as [Ha [Hb H]].
  destruct (order_key a) as [[a1 a2] a3], (order_key b) as [[b1 b2] b3],
           (order_key c) as [[c1 c2] c3].
  simpl in *.
  assert (D : ((a1 < c1 \/ a1 = c1 /\ (a2 < c2 \/ a2 = c2 /\ a3 < c3)) \/
               (c1 < b1 \/ c1 = b1 /\ (c2 < b2 \/ c2 = b2 /\ c3 < b3)))%Z)
    by lia.
  destruct D; [left | right]; repeat split; assumption.
Qed.

Lemma flt_trans (a b c : spec_float) :
  flt a b = true -> flt b c = true -> flt a c = true.
Proof.
  intros Hab Hbc.
  destruct (flt_cotrans b c a Hbc (proj1 (flt_not_nan a b Hab)))
    as [Hba | Hac]; [|exact Hac].
  rewrite (flt_asym a b Hab) in Hba. discriminate.
Qed.

(** ** Mantissas, digits and shifts *)

Lemma digits2_pos_size (m : positive) : digits2_pos m = Pos.size m.
Proof. induction m; simpl; congruence. Qed.

Lemma digits2_pos_bounds (m : positive) :
  (2 ^ (Zpos (digits2_pos m) - 1) <= Zpos m < 2 ^ Zpos (digits2_pos m))%Z.
Proof.
  rewrite digits2_pos_size. split.
  - assert (H := Pos.size_le m).
    assert (H' : (Zpos (2 ^ Pos.size m) <= Zpos m~0)%Z) by exact H.
    rewrite Pos2Z.inj_pow in H'.
    replace (Zpos (Pos.size m)) with (Z.succ (Zpos (Pos.size m) - 1)) in H'
      by lia.
    rewrite Z.pow_succ_r in H' by lia. lia.
  - assert (H := Pos.size_gt m).
    assert (H' : (Zpos m < Zpos (2 ^ Pos.size m))%Z) by exact H.
    rewrite Pos2Z.inj_pow in H'. exact H'.
Qed.

Lemma iter_xO_value (m n : positive) :
  Zpos (Pos.iter xO m n) = (Zpos m * 2 ^ Zpos n)%Z.
Proof.
  induction n as [|n IH] using Pos.peano_ind.
  - simpl. lia.
  - rewrite Pos.iter_succ, Pos2Z.inj_xO, IH, Pos2Z.inj_succ.
    rewrite Z.pow_succ_r by lia. lia.
Qed.

Lemma iter_xO_digits (m n : positive) :
  digits2_pos (Pos.iter xO m n) = (digits2_pos m + n)%positive.
Proof.
  induction n as [|n IH] using Pos.peano_ind.
  - simpl. lia.
  - rewrite Pos.iter_succ. simpl. rewrite IH. lia.
Qed.

Lemma shl_align_spec (mx : positive) (ex ex' : Z) :
  (ex' <= ex)%Z ->
  snd (shl_align mx ex ex') = ex' /\
  Zpos (fst (shl_align mx ex ex')) = (Zpos mx * 2 ^ (ex - ex'))%Z /\
  (Zpos (digits2_pos (fst (shl_align mx ex ex'))) + ex'
   = Zpos (digits2_pos mx) + ex)%Z.
Proof.
  intro H. unfold shl_align.
  destruct (ex' - ex)%Z as [|q|q] eqn:E; try lia.
  - assert (ex' = ex) by lia. subst ex'. cbn [fst snd].
    rewrite Z.sub_diag, Z.pow_0_r. repeat split; lia.
  - cbn [fst snd]. rewrite iter_xO_value, iter_xO_digits.
    replace (ex - ex')%Z with (Zpos q) by lia.
    repeat split; lia.
Qed.

Lemma iter_pos_nat {A} (f : A -> A) (n : positive) (x : A) :
  iter_pos f n x = Nat.iter (Pos.to_nat n) f x.
Proof.
  revert x. induction n as [n IH|n IH|]; intro x; cbn [iter_pos].
  - rewrite !IH. rewrite Pos2Nat.inj_xI.
    replace (S (2 * Pos.to_nat n)) with (Pos.to_nat n + (Pos.to_nat n + 1))
      by lia.
    rewrite !Nat.iter_add. reflexivity.
  - rewrite !IH. rewrite Pos2Nat.inj_xO.
    replace (2 * Pos.to_nat n) with (Pos.to_nat n + Pos.to_nat n) by lia.
    rewrite Nat.iter_add. reflexivity.
  - reflexivity.
Qed.

Lemma shr_1_mantissa (mrs : shr_record) :
  (0 <= shr_m mrs)%Z -> shr_m (shr_1 mrs) = (shr_m mrs / 2)%Z.
Proof.
  destruct mrs as [m r s]. simpl. intro H.
  destruct m as [|[q|q|]|q]; cbn [shr_m]; try lia; try reflexivity.
  - apply Z.div_unique with (r := 1%Z); lia.
  - apply Z.div_unique with (r := 0%Z); lia.
Qed.

Lemma shr_iter_mantissa (k : nat) (mrs : shr_record) :
  (0 <= shr_m mrs)%Z ->
  shr_m (Nat.iter k shr_1 mrs) = (shr_m mrs / 2 ^ Z.of_nat k)%Z.
Proof.
  intro H. induction k as [|k IH].
  - simpl. rewrite Z.div_1_r. reflexivity.
  - rewrite Nat.iter_succ. rewrite shr_1_mantissa.
    + rewrite IH, Nat2Z.inj_succ, Z.pow_succ_r by lia.
      rewrite Z.div_div by lia. f_equal. lia.
    + rewrite IH. apply Z.div_pos; lia.
Qed.

Lemma shr_mantissa (mrs : shr_record) (e n : Z) :
  (0 <= shr_m mrs)%Z ->
  shr_m (fst (shr mrs e n)) = (shr_m mrs / 2 ^ Z.max n 0)%Z /\
  snd (shr mrs e n) = (e + Z.max n 0)%Z.
Proof.
  intro H. unfold shr. destruct n as [|q|q]; simpl.
  - rewrite Z.div_1_r. split; lia.
  - rewrite iter_pos_nat, shr_iter_mantissa by exact H.
    rewrite positive_nat_Z. split; [reflexivity | lia].
  - rewrite Z.div_1_r. split; lia.
Qed.

Lemma shr_record_of_loc_mantissa (m : Z) (l : location) :
  shr_m (shr_record_of_loc m l) = m.
Proof. destruct l as [|[]]; reflexivity. Qed.

Lemma round_nearest_even_ge (m : Z) (l : location) :
  (m <= round_nearest_even m l)%Z.
Proof.
  unfold round_nearest_even. destruct l as [|[]]; try lia.
  destruct (Z.even m); lia.
Qed.

Lemma Zdigits2_bounds (m : Z) :
  (0 < m)%Z -> (1 <= Zdigits2 m)%Z /\ (2 ^ (Zdigits2 m - 1) <= m)%Z.
Proof.
  destruct m as [|q|q]; try lia. intros _. simpl.
  split; [lia | apply digits2_pos_bounds].
Qed.

Lemma shifted_mantissa_positive (m k : Z) :
  (0 < m)%Z -> (k <= Zdigits2 m - 1)%Z -> (1 <= m / 2 ^ Z.max k 0)%Z.
Proof.
  intros Hm Hk. destruct (Zdigits2_bounds m Hm) as [Hd Hb].
  apply Z.div_le_lower_bound; [apply Z.pow_pos_nonneg; lia|].
  rewrite Z.mul_1_r.
  apply Z.le_trans with (2 ^ (Zdigits2 m - 1))%Z; [|exact Hb].
  apply Z.pow_le_mono_r; lia.
Qed.

Section RoundPositive.

Variables p em : Z.
Hypothesis Hp : (0 < p)%Z.

(** Rounding a positive mantissa whose value is at least [2^emin] gives a
    number other than zero, of the same sign. *)
Lemma binary_round_aux_nonzero (s : bool) (m e : Z) (l : location) :
  (0 < m)%Z -> (emin p em < Zdigits2 m + e)%Z ->
  nonzero_signed s (binary_round_aux p em s m e l) = true.
Proof.
  intros Hm Hbig. unfold binary_round_aux, shr_fexp.
  set (n1 := (fexp p em (Zdigits2 m + e) - e)%Z).
  destruct (Zdigits2_bounds m Hm) as [Hd _].
  assert (Hn1 : (n1 <= Zdigits2 m - 1)%Z) by (unfold n1, fexp; lia).
  assert (He1 : (emin p em <= e + Z.max n1 0)%Z) by (unfold n1, fexp; lia).
  destruct (shr_mantissa (shr_record_of_loc m l) e n1) as [Hm1 He'].
  { rewrite shr_record_of_loc_mantissa. lia. }
  rewrite shr_record_of_loc_mantissa in Hm1.
  destruct (shr (shr_record_of_loc m l) e n1) as [mrs' e'].
  cbn [fst snd] in Hm1, He'. subst e'.
  assert (Hpos1 : (1 <= shr_m mrs')%Z).
  { rewrite Hm1. apply shifted_mantissa_positive; assumption. }
  set (m1 := round_nearest_even (shr_m mrs') (loc_of_shr_record mrs')).
  assert (Hm1pos : (0 < m1)%Z).
  { assert (H := round_nearest_even_ge (shr_m mrs') (loc_of_shr_record mrs')).
    fold m1 in H. lia. }
  set (n2 := (fexp p em (Zdigits2 m1 + (e + Z.max n1 0)) - (e + Z.max n1 0))%Z).
  destruct (Zdigits2_bounds m1 Hm1pos) as [Hd1 _].
  assert (Hn2 : (n2 <= Zdigits2 m1 - 1)%Z) by (unfold n2, fexp; lia).
  destruct (shr_mantissa (shr_record_of_loc m1 loc_Exact)
              (e + Z.max n1 0) n2) as [Hm2 _].
  { cbn [shr_record_of_loc shr_m]. lia. }
  destruct (shr (shr_record_of_loc m1 loc_Exact) (e + Z.max n1 0) n2)
    as [mrs'' e''].
  cbn [fst shr_record_of_loc shr_m] in Hm2.
  assert (Hpos2 : (1 <= shr_m mrs'')%Z).
  { rewrite Hm2. apply shifted_mantissa_positive; assumption. }
  destruct (shr_m mrs'') as [|q|q]; try lia.
  destruct (Z.leb e'' (em - p)); simpl; apply eqb_reflx.
Qed.

Lemma binary_round_nonzero (s : bool) (m : positive) (e : Z) :
  (emin p em < Zpos (digits2_pos m) + e)%Z ->
  nonzero_signed s (binary_round p em s m e) = true.
Proof.
  intro Hbig. unfold binary_round.
  set (e' := fexp p em (Zpos (digits2_pos m) + e)).
  destruct (Z.le_gt_cases e' e) as [Hle | Hgt].
  - destruct (shl_align_spec m e e' Hle) as (H1 & H2 & H3).
    destruct (shl_align m e e') as [mz ez]. cbn [fst snd] in H1, H2, H3.
    subst ez. apply binary_round_aux_nonzero; [lia|].
    cbn [Zdigits2]. lia.
  - unfold shl_align. destruct (e' - e)%Z as [|q|q] eqn:E; try lia.
    apply binary_round_aux_nonzero; [lia|]. cbn [Zdigits2]. lia.
Qed.

(** Rounding a mantissa that is not negative never gives NaN. *)
Lemma binary_round_aux_not_nan (s : bool) (m e : Z) (l : location) :
  (0 <= m)%Z -> isnan (binary_round_aux p em s m e l) = false.
Proof.
  intro Hm. unfold binary_round_aux, shr_fexp.
  destruct (shr_mantissa (shr_record_of_loc m l) e
              (fexp p em (Zdigits2 m + e) - e)) as [Hm1 _].
  { rewrite shr_record_of_loc_mantissa. exact Hm. }
  rewrite shr_record_of_loc_mantissa in Hm1.
  destruct (shr (shr_record_of_loc m l) e _) as [mrs' e'].
  cbn [fst] in Hm1.
  assert (Hpos1 : (0 <= shr_m mrs')%Z).
  { rewrite Hm1. apply Z.div_pos; [exact Hm | apply Z.pow_pos_nonneg; lia]. }
  set (m1 := round_nearest_even (shr_m mrs') (loc_of_shr_record mrs')).
  assert (Hm1pos : (0 <= m1)%Z).
  { assert (H := round_nearest_even_ge (shr_m mrs') (loc_of_shr_record mrs')).
    fold m1 in H. lia. }
  destruct (shr_mantissa (shr_record_of_loc m1 loc_Exact) e'
              (fexp p em (Zdigits2 m1 + e') - e')) as [Hm2 _].
  { cbn [shr_record_of_loc shr_m]. exact Hm1pos. }
  destruct (shr (shr_record_of_loc m1 loc_Exact) e' _) as [mrs'' e''].
  cbn [fst shr_record_of_loc shr_m] in Hm2.
  assert (Hpos2 : (0 <= shr_m mrs'')%Z).
  { rewrite Hm2. apply Z.div_pos; [exact Hm1pos|].
    apply Z.pow_pos_nonneg; lia. }
  destruct (shr_m mrs'') as [|q|q]; try lia; [reflexivity|].
  destruct (Z.leb e'' (em - p)); reflexivity.
Qed.

End RoundPositive.

(** ** The order of [<=], and the reductions [np.min] and [np.max] *)

Lemma SFleb_order_key (a b : spec_float) :
  SFleb a b = true <->
  isnan a = false /\ isnan b = false /\
  (lex_lt (order_key a) (order_key b) \/ order_key a = order_key b).
Proof.
  unfold SFleb.
  destruct a as [[]|[]| |[] ma ea], b as [[]|[]| |[] mb eb]; simpl;
    try change (Pos.compare_cont Eq ma mb) with (Pos.compare ma mb);
    try destruct (Z.compare_spec ea eb);
    try destruct (Pos.compare_spec ma mb);
    simpl; split; intro Hgoal;
    try discriminate; try reflexivity;
    try (repeat split; first [lia | left; lia | right; f_equal; f_equal; lia
                             | right; reflexivity]);
    try (destruct Hgoal as [Hna [Hnb [Hlt | Heq]]];
         first [discriminate | lia | inversion Heq; lia]).
Qed.

Lemma fle_not_nan (a b : spec_float) :
  fle a b = true -> isnan a = false /\ isnan b = false.
Proof. intro H. apply SFleb_order_key in H. tauto. Qed.

Lemma fle_trans (a b c : spec_float) :
  fle a b = true -> fle b c = true -> fle a c = true.
Proof.
  unfold fle. rewrite !SFleb_order_key.
  intros (Ha & Hb & Hab) (_ & Hc & Hbc). repeat split; try assumption.
  destruct (order_key a) as [[a1 a2] a3], (order_key b) as [[b1 b2] b3],
           (order_key c) as [[c1 c2] c3].
  simpl in *.
  assert (D : ((a1 < c1 \/ a1 = c1 /\ (a2 < c2 \/ a2 = c2 /\ a3 < c3)) \/
               (a1 = c1 /\ a2 = c2 /\ a3 = c3))%Z).
  { destruct Hab as [Hab | Hab], Hbc as [Hbc | Hbc];
      try (inversion Hab; subst); try (inversion Hbc; subst); lia. }
  destruct D as [D | (-> & -> & ->)]; [left; exact D | right; reflexivity].
Qed.

Lemma fle_total (a b : spec_float) :
  isnan a = false -> isnan b = false -> fle a b = true \/ fle b a = true.
Proof.
  intros Ha Hb. unfold fle. rewrite !SFleb_order_key.
  destruct (order_key a) as [[a1 a2] a3] eqn:Ka,
           (order_key b) as [[b1 b2] b3] eqn:Kb.
  simpl.
  assert (D : ((a1 < b1 \/ a1 = b1 /\ (a2 < b2 \/ a2 = b2 /\ a3 < b3)) \/
               (b1 < a1 \/ b1 = a1 /\ (b2 < a2 \/ b2 = a2 /\ b3 < a3)) \/
               (a1 = b1 /\ a2 = b2 /\ a3 = b3))%Z) by lia.
  destruct D as [D | [D | (-> & -> & ->)]].
  - left. repeat split; auto.
  - right. repeat split; auto.
  - left. repeat split; auto.
Qed.

Lemma fle_refl (a : spec_float) : isnan a = false -> fle a a = true.
Proof. intro H. destruct (fle_total a a H H); assumption. Qed.

Lemma isfinite_not_nan (x : spec_float) :
  isfinite x = true -> isnan x = false.
Proof. destruct x; simpl; congruence. Qed.

(** [np.min] of values that are not NaN is one of them and is below all of
    them. *)
Lemma fold_left_minimum_spec (l : list spec_float) (acc : spec_float) :
  isnan acc = false -> Forall (fun x => isnan x = false) l ->
  let lo := fold_left minimum l acc in
  In lo (acc :: l) /\ fle lo acc = true /\
  forall x, In x l -> fle lo x = true.
Proof.
  revert acc. induction l as [|y l IH]; intros acc Hacc Hl; cbn zeta.
  - cbn [fold_left]. repeat split; [left; reflexivity | apply fle_refl, Hacc|].
    intros x [].
  - inversion Hl as [|y' l' Hy Hl']; subst y' l'. cbn [fold_left].
    assert (Hstep : isnan (minimum acc y) = false /\
                    (minimum acc y = acc \/ minimum acc y = y) /\
                    fle (minimum acc y) acc = true /\
                    fle (minimum acc y) y = true).
    { unfold minimum. rewrite Hacc, orb_false_r.
      destruct (fle acc y) eqn:E.
      - repeat split; auto. apply fle_refl, Hacc.
      - destruct (fle_total acc y Hacc Hy) as [H | H]; [congruence|].
        repeat split; auto. apply fle_refl, Hy. }
    destruct Hstep as (Hn & Hor & Hle1 & Hle2).
    destruct (IH (minimum acc y) Hn Hl') as (Hin & Hlo & Hall).
    cbn zeta in Hin, Hlo, Hall.
    set (lo := fold_left minimum l (minimum acc y)) in *.
    repeat split.
    + destruct Hin as [Hin | Hin].
      * destruct Hor as [Hor | Hor]; rewrite Hor in Hin;
          [left; exact Hin | right; left; exact Hin].
      * right; right; exact Hin.
    + apply fle_trans with (b := minimum acc y); assumption.
    + intros x [<- | Hx].
      * apply fle_trans with (b := minimum acc y); assumption.
      * apply Hall. exact Hx.
Qed.

Lemma fold_left_maximum_spec (l : list spec_float) (acc : spec_float) :
  isnan acc = false -> Forall (fun x => isnan x = false) l ->
  let hi := fold_left maximum l acc in
  In hi (acc :: l) /\ fle acc hi = true /\
  forall x, In x l -> fle x hi = true.
Proof.
  revert acc. induction l as [|y l IH]; intros acc Hacc Hl; cbn zeta.
  - cbn [fold_left]. repeat split; [left; reflexivity | apply fle_refl, Hacc|].
    intros x [].
  - inversion Hl as [|y' l' Hy Hl']; subst y' l'. cbn [fold_left].
    assert (Hstep : isnan (maximum acc y) = false /\
                    (maximum acc y = acc \/ maximum acc y = y) /\
                    fle acc (maximum acc y) = true /\
                    fle y (maximum acc y) = true).
    { unfold maximum. rewrite Hacc, orb_false_r.
      destruct (fle y acc) eqn:E.
      - repeat split; auto. apply fle_refl, Hacc.
      - destruct (fle_total acc y Hacc Hy) as [H | H]; [|congruence].
        repeat split; auto. apply fle_refl, Hy. }
    destruct Hstep as (Hn & Hor & Hle1 & Hle2).
    destruct (IH (maximum acc y) Hn Hl') as (Hin & Hhi & Hall).
    cbn zeta in Hin, Hhi, Hall.
    set (hi := fold_left maximum l (maximum acc y)) in *.
    repeat split.
    + destruct Hin as [Hin | Hin].
      * destruct Hor as [Hor | Hor]; rewrite Hor in Hin;
          [left; exact Hin | right; left; exact Hin].
      * right; right; exact Hin.
    + apply fle_trans with (b := maximum acc y); assumption.
    + intros x [<- | Hx].
      * apply fle_trans with (b := maximum acc y); assumption.
      * apply Hall. exact Hx.
Qed.

(** ** Subtraction of canonical values *)

Lemma sign_clear_not_nan_nonneg (x : spec_float) :
  sign_clear x = true -> isnan x = false -> fle fzero x = true.
Proof.
  destruct x as [[]|[]| |[] m e]; simpl; intros H1 H2;
    try discriminate; reflexivity.
Qed.

Section Canonical.

Variables p em : Z.
Hypothesis Hp : (0 < p)%Z.

Lemma canonical_digits (m : positive) (e : Z) :
  canonical_mantissa p em m e = true ->
  (Zpos (digits2_pos m) <= p)%Z /\ (emin p em <= e)%Z /\
  ((emin p em < e)%Z -> Zpos (digits2_pos m) = p).
Proof.
  unfold canonical_mantissa, fexp. intro H. apply Z.eqb_eq in H. lia.
Qed.

(** On canonical mantissas the order by exponent, then by mantissa, is the
    order of the values: it is the order of the mantissas brought to a
    common exponent. *)
Lemma aligned_le (m1 : positive) (e1 : Z) (m2 : positive) (e2 : Z) :
  canonical_mantissa p em m1 e1 = true ->
  canonical_mantissa p em m2 e2 = true ->
  (e1 < e2)%Z \/ (e1 = e2 /\ (m1 <= m2)%positive) ->
  (Zpos (fst (shl_align m1 e1 (Z.min e1 e2)))
   <= Zpos (fst (shl_align m2 e2 (Z.min e1 e2))))%Z.
Proof.
  intros H1 H2 Hle.
  destruct (canonical_digits m1 e1 H1) as (Hd1 & He1 & _).
  destruct (canonical_digits m2 e2 H2) as (Hd2 & He2 & Hn2).
  destruct (shl_align_spec m1 e1 (Z.min e1 e2)) as (_ & V1 & _); [lia|].
  destruct (shl_align_spec m2 e2 (Z.min e1 e2)) as (_ & V2 & _); [lia|].
  rewrite V1, V2.
  destruct Hle as [Hlt | [-> Hm]].
  - rewrite Z.min_l by lia. rewrite Z.sub_diag, Z.pow_0_r, Z.mul_1_r.
    assert (B1 := digits2_pos_bounds m1). assert (B2 := digits2_pos_bounds m2).
    rewrite (Hn2 ltac:(lia)) in B2.
    assert (P1 : (2 ^ Zpos (digits2_pos m1) <= 2 ^ p)%Z)
      by (apply Z.pow_le_mono_r; lia).
    assert (P2 : (2 ^ 1 <= 2 ^ (e2 - e1))%Z)
      by (apply Z.pow_le_mono_r; lia).
    assert (P3 : (2 ^ p = 2 * 2 ^ (p - 1))%Z).
    { replace p with (Z.succ (p - 1)) at 1 by lia.
      apply Z.pow_succ_r. lia. }
    change (2 ^ 1)%Z with 2%Z in P2.
    assert (P4 : (Zpos m2 * 2 <= Zpos m2 * 2 ^ (e2 - e1))%Z)
      by (apply Z.mul_le_mono_nonneg_l; lia).
    lia.
  - rewrite Z.min_id, Z.sub_diag, Z.pow_0_r. lia.
Qed.

Lemma binary_normalize_nonneg (D e : Z) :
  (0 <= D)%Z -> fle fzero (binary_normalize p em D e false) = true.
Proof.
  intro HD. destruct D as [|q|q]; try lia; [reflexivity|].
  cbn [binary_normalize]. apply sign_clear_not_nan_nonneg.
  - apply binary_round_sign_clear.
  - unfold binary_round. destruct (shl_align _ _ _) as [mz ez].
    apply binary_round_aux_not_nan. lia.
Qed.

Lemma SFsub_not_negative (x lo : spec_float) :
  valid_binary p em x = true -> valid_binary p em lo = true ->
  isfinite x = true -> isfinite lo = true ->
  SFleb lo x = true ->
  fle fzero (SFsub p em x lo) = true.
Proof.
  intros Vx Vl Fx Fl Hle.
  destruct x as [sx| | |sx mx ex]; try discriminate;
    destruct lo as [sl| | |sl ml el]; try discriminate.
  - destruct sx, sl; reflexivity.
  - destruct sl; [reflexivity | discriminate].
  - destruct sx; [discriminate | reflexivity].
  - cbn [valid_binary] in Vx, Vl. unfold bounded in Vx, Vl.
    apply andb_true_iff in Vx, Vl. destruct Vx as [Cx _], Vl as [Cl _].
    unfold SFsub. apply binary_normalize_nonneg.
    unfold SFleb, SFcompare in Hle.
    change (Pos.compare_cont Eq ml mx) with (Pos.compare ml mx) in Hle.
    destruct sx, sl; cbn [cond_Zopp]; try discriminate; try lia.
    + (* both negative *)
      assert (Hord : (ex < el)%Z \/ (ex = el /\ (mx <= ml)%positive)).
      { destruct (Z.compare_spec el ex); try discriminate;
          [right | left; lia].
        split; [lia|]. destruct (Pos.compare_spec ml mx);
          try discriminate; lia. }
      assert (H := aligned_le mx ex ml el Cx Cl Hord). lia.
    + (* both positive *)
      assert (Hord : (el < ex)%Z \/ (el = ex /\ (ml <= mx)%positive)).
      { destruct (Z.compare_spec el ex); try discriminate;
          [right | left; lia].
        split; [lia|]. destruct (Pos.compare_spec ml mx);
          try discriminate; lia. }
      assert (H := aligned_le ml el mx ex Cl Cx Hord).
      rewrite Z.min_comm in H. lia.
Qed.

End Canonical.

(** ** Denominators and quotients *)

Lemma eps_above_emin (d : dtype) :
  exists m e, eps d = S754_finite false m e /\
              (emin (prec d) (emax d) < Zpos (digits2_pos m) + e)%Z.
Proof. destruct d; vm_compute; eexists; eexists; split; reflexivity. Qed.

Lemma prec_positive (d : dtype) : (0 < prec d)%Z.
Proof. destruct d; reflexivity. Qed.

Lemma digits2_pos_add_l (a b : positive) :
  (Zpos (digits2_pos b) <= Zpos (digits2_pos (a + b)))%Z.
Proof.
  assert (Bb := digits2_pos_bounds b).
  assert (Bs := digits2_pos_bounds (a + b)).
  destruct (Z.le_gt_cases (Zpos (digits2_pos b)) (Zpos (digits2_pos (a + b))))
    as [H | H]; [exact H|].
  assert (P : (2 ^ Zpos (digits2_pos (a + b))
               <= 2 ^ (Zpos (digits2_pos b) - 1))%Z)
    by (apply Z.pow_le_mono_r; lia).
  lia.
Qed.

(** Adding [1e-6] to a range that is not negative gives a positive number
    or [+inf]: the denominator is never zero and never NaN. *)
Lemma denominator_positive (d : dtype) (range : spec_float) :
  fle fzero range = true ->
  strictly_positive (fadd d range (eps d)) = true.
Proof.
  intro H. destruct (eps_above_emin d) as (m & e & -> & Hbig).
  destruct range as [s|[]| |[] mr er]; try discriminate; try reflexivity.
  unfold fadd, SFadd. cbn [cond_Zopp Z.add binary_normalize].
  assert (N : nonzero_signed false
                (binary_round (prec d) (emax d) false
                   (fst (shl_align mr er (Z.min er e))
                    + fst (shl_align m e (Z.min er e))) (Z.min er e)) = true).
  { apply binary_round_nonzero; [apply prec_positive|].
    destruct (shl_align_spec m e (Z.min er e)) as (_ & _ & Hd); [lia|].
    assert (Hm := digits2_pos_add_l (fst (shl_align mr er (Z.min er e)))
                    (fst (shl_align m e (Z.min er e)))).
    lia. }
  destruct (binary_round _ _ _ _ _) as [|[]| |[] m' e']; try discriminate;
    reflexivity.
Qed.

Lemma SFdiv_core_binary_nonneg (p em : Z) (m1 : positive) (e1 : Z)
    (m2 : positive) (e2 : Z) :
  (0 <= fst (fst (SFdiv_core_binary p em (Zpos m1) e1 (Zpos m2) e2)))%Z.
Proof.
  unfold SFdiv_core_binary.
  set (s := (e1 - e2 - _)%Z).
  set (m' := match s with
             | Zpos _ => Z.shiftl (Zpos m1) s
             | Z0 => Zpos m1
             | Zneg _ => 0%Z
             end).
  assert (Hm' : (0 <= m')%Z).
  { unfold m'. destruct s; try lia. apply Z.shiftl_nonneg. lia. }
  assert (Hq : (0 <= m' / Zpos m2)%Z) by (apply Z.div_pos; lia).
  unfold Z.div in Hq. destruct (Z.div_eucl m' (Zpos m2)) as [q r].
  exact Hq.
Qed.

(** A quotient of a value that is not negative by a positive one is not
    negative; it is NaN only as [inf / inf]. *)
Lemma fdiv_not_negative (d : dtype) (num den : spec_float) :
  fle fzero num = true -> strictly_positive den = true ->
  (isnan (fdiv d num den) = true \/ fle fzero (fdiv d num den) = true) /\
  (isfinite num = true -> fle fzero (fdiv d num den) = true).
Proof.
  intros Hn Hd.
  destruct num as [sn|[]| |[] mn en]; try discriminate;
    destruct den as [sd|[]| |[] md ed]; try discriminate;
    try (split; [right|intros _]; reflexivity);
    try (split; [left; reflexivity | discriminate]);
    try (split; [right|intros _]; destruct sn; reflexivity).
  assert (H : fle fzero (fdiv d (S754_finite false mn en)
                           (S754_finite false md ed)) = true).
  { unfold fdiv, SFdiv.
    assert (Hq := SFdiv_core_binary_nonneg (prec d) (emax d) mn en md ed).
    destruct (SFdiv_core_binary (prec d) (emax d) (Zpos mn) en (Zpos md) ed)
      as [[mz ez] lz].
    cbn [fst] in Hq. cbn [xorb]. apply sign_clear_not_nan_nonneg.
    - apply binary_round_aux_sign_clear.
    - apply binary_round_aux_not_nan. exact Hq. }
  split; [right; exact H | intros _; exact H].
Qed.

Lemma fdiv_zero_positive (d : dtype) (den : spec_float) :
  strictly_positive den = true -> fdiv d fzero den = fzero.
Proof.
  destruct den as [sd|[]| |[] md ed]; try discriminate; reflexivity.
Qed.


Lemma strictly_positive_nonneg (x : spec_float) :
  strictly_positive x = true -> fle fzero x = true.
Proof.
  destruct x as [[]|[]| |[] m e]; simpl; intro H; try discriminate;
    reflexivity.
Qed.

Lemma digits2_pos_add_r (a b : positive) :
  (Zpos (digits2_pos a) <= Zpos (digits2_pos (a + b)))%Z.
Proof. rewrite Pos.add_comm. apply digits2_pos_add_l. Qed.

Section QuotientSigns.

Variables p em : Z.
Hypothesis Hp : (0 < p)%Z.

Lemma SFmul_nonneg (c x : spec_float) :
  strictly_positive c = true -> isfinite c = true ->
  not_below_zero x = true -> isnan x = false ->
  fle fzero (SFmul p em c x) = true.
Proof.
  destruct c as [[]|[]| |[] mc ec], x as [[]|[]| |[] mx ex];
    simpl; intros Hc Hf Hx Hn; try discriminate; try reflexivity.
  apply sign_clear_not_nan_nonneg.
  - apply binary_round_aux_sign_clear.
  - apply binary_round_aux_not_nan. lia.
Qed.

Lemma SFmul_nan_r (c x : spec_float) :
  isfinite c = true -> isnan (SFmul p em c x) = false -> isnan x = false.
Proof.
  destruct c as [[]|[]| |[] mc ec], x as [[]|[]| |[] mx ex];
    simpl; intros Hc Hn; try discriminate; reflexivity.
Qed.

Lemma SFmul_square_nonneg (t : spec_float) :
  isnan t = false -> fle fzero (SFmul p em t t) = true.
Proof.
  destruct t as [[]|[]| |[] mt et]; simpl; intro H; try discriminate;
    try reflexivity;
    (apply sign_clear_not_nan_nonneg;
     [apply binary_round_aux_sign_clear
     | apply binary_round_aux_not_nan; lia]).
Qed.

Lemma binary_normalize_not_nan (D e : Z) (s : bool) :
  isnan (binary_normalize p em D e s) = false.
Proof.
  destruct D as [|q|q]; cbn [binary_normalize]; [reflexivity| |];
    unfold binary_round; destruct (shl_align _ _ _) as [mz ez];
    apply binary_round_aux_not_nan; lia.
Qed.

(** [x - y] for [y < x] is not NaN. *)
Lemma SFsub_not_nan (x y : spec_float) :
  SFltb y x = true -> isnan (SFsub p em x y) = false.
Proof.
  destruct x as [sx|sx| |sx mx ex], y as [sy|sy| |sy my ey]; intro H;
    try (unfold SFsub; apply binary_normalize_not_nan);
    try destruct sx; try destruct sy; try discriminate H; reflexivity.
Qed.

(** A positive canonical value plus a value that is not negative is a
    positive number or [+inf]. *)
Lemma SFadd_positive (x y : spec_float) :
  strictly_positive x = true -> valid_binary p em x = true ->
  fle fzero y = true ->
  strictly_positive (SFadd p em x y) = true.
Proof.
  intros Hx Vx Hy.
  destruct x as [[]|[]| |[] mx ex]; try discriminate;
    destruct y as [sy|[]| |[] my ey]; try discriminate; try reflexivity.
  cbn [valid_binary] in Vx. unfold bounded in Vx.
  apply andb_true_iff in Vx. destruct Vx as [Cx _].
  destruct (canonical_digits p em mx ex Cx) as (_ & Hex & _).
  unfold SFadd. cbn [cond_Zopp Z.add binary_normalize].
  assert (N : nonzero_signed false
                (binary_round p em false
                   (fst (shl_align mx ex (Z.min ex ey))
                    + fst (shl_align my ey (Z.min ex ey))) (Z.min ex ey))
              = true).
  { apply binary_round_nonzero; [exact Hp|].
    destruct (shl_align_spec mx ex (Z.min ex ey)) as (_ & _ & Hd); [lia|].
    assert (Hm := digits2_pos_add_r (fst (shl_align mx ex (Z.min ex ey)))
                    (fst (shl_align my ey (Z.min ex ey)))).
    assert (1 <= Zpos (digits2_pos mx))%Z by lia.
    lia. }
  destruct (binary_round _ _ _ _ _) as [|[]| |[] m' e']; try discriminate;
    reflexivity.
Qed.

Lemma binary_round_nonneg (m : positive) (e : Z) :
  fle fzero (binary_round p em false m e) = true.
Proof.
  apply sign_clear_not_nan_nonneg.
  - apply binary_round_sign_clear.
  - unfold binary_round. destruct (shl_align _ _ _) as [mz ez].
    apply binary_round_aux_not_nan. lia.
Qed.

End QuotientSigns.

Lemma astype_nonneg (d : dtype) (x : spec_float) :
  fle fzero x = true -> fle fzero (astype d x) = true.
Proof.
  destruct x as [[]|[]| |[] m e]; intro H; try discriminate;
    try reflexivity.
  apply binary_round_nonneg.
Qed.

Lemma fmul_one_nonneg (x : spec_float) :
  fle fzero x = true ->
  fle fzero (fmul float32 x (of_int float32 1)) = true.
Proof.
  intro H. destruct x as [[]|[]| |[] mx ex]; try discriminate;
    try reflexivity.
  unfold fmul. change (of_int float32 1) with (S754_finite false 8388608 (-23)).
  cbn [SFmul xorb]. apply sign_clear_not_nan_nonneg.
  - apply binary_round_aux_sign_clear.
  - apply binary_round_aux_not_nan. lia.
Qed.
(** ** Rounding to nearest: what [binary_round_aux] computes *)

(** Rounding a value of the format to the format leaves it as it is. *)
Lemma binary_round_canonical (p em : Z) (s : bool) (m : positive) (e : Z) :
  bounded p em m e = true -> binary_round p em s m e = S754_finite s m e.
Proof.
  unfold bounded, canonical_mantissa. intro H.
  apply andb_true_iff in H. destruct H as [Hc He].
  apply Z.eqb_eq in Hc.
  unfold binary_round. rewrite Hc.
  unfold shl_align. rewrite Z.sub_diag.
  unfold binary_round_aux, shr_fexp. cbn [Zdigits2]. rewrite Hc, Z.sub_diag.
  cbn [shr shr_record_of_loc shr_m loc_of_shr_record round_nearest_even].
  cbn [Zdigits2]. rewrite Hc, Z.sub_diag. cbn [shr shr_m]. rewrite He.
  reflexivity.
Qed.

Section RoundingToNearest.

Local Open Scope Z_scope.

Lemma rnd_bounds (M k : Z) : M / 2 ^ k <= rnd M k <= M / 2 ^ k + 1.
Proof.
  unfold rnd. destruct (2 * (M mod 2 ^ k) ?= 2 ^ k); try lia.
  destruct (Z.even (M / 2 ^ k)); lia.
Qed.

Lemma rnd_exact (M k : Z) :
  0 <= k -> M mod 2 ^ k = 0 -> rnd M k = M / 2 ^ k.
Proof.
  intros Hk H. unfold rnd. rewrite H.
  assert (0 < 2 ^ k) by (apply Z.pow_pos_nonneg; lia).
  destruct (Z.compare_spec (2 * 0) (2 ^ k)); try lia.
Qed.

Lemma rnd_multiple (M k : Z) : 0 <= k -> rnd (M * 2 ^ k) k = M.
Proof.
  intro Hk. assert (0 < 2 ^ k) by (apply Z.pow_pos_nonneg; lia).
  rewrite rnd_exact; [apply Z.div_mul; lia | exact Hk |].
  apply Z.mod_mul. lia.
Qed.

Lemma rnd_mono (M M' k : Z) : 0 <= k -> M <= M' -> rnd M k <= rnd M' k.
Proof.
  intros Hk HM. assert (Hpow : 0 < 2 ^ k) by (apply Z.pow_pos_nonneg; lia).
  assert (Hq : M / 2 ^ k <= M' / 2 ^ k) by (apply Z.div_le_mono; lia).
  assert (B := rnd_bounds M k). assert (B' := rnd_bounds M' k).
  destruct (Z.eq_dec (M / 2 ^ k) (M' / 2 ^ k)) as [E | N]; [|lia].
  assert (D := Z.div_mod M (2 ^ k) ltac:(lia)).
  assert (D' := Z.div_mod M' (2 ^ k) ltac:(lia)).
  assert (Hr : M mod 2 ^ k <= M' mod 2 ^ k) by (rewrite E in D; lia).
  unfold rnd. rewrite E.
  destruct (Z.compare_spec (2 * (M mod 2 ^ k)) (2 ^ k));
    destruct (Z.compare_spec (2 * (M' mod 2 ^ k)) (2 ^ k));
    try lia; destruct (Z.even (M' / 2 ^ k)); lia.
Qed.

Lemma rnd_scale (M k j : Z) :
  0 <= k -> 0 <= j -> rnd (M * 2 ^ j) (k + j) = rnd M k.
Proof.
  intros Hk Hj.
  assert (Pk : 0 < 2 ^ k) by (apply Z.pow_pos_nonneg; lia).
  assert (Pj : 0 < 2 ^ j) by (apply Z.pow_pos_nonneg; lia).
  unfold rnd. rewrite Z.pow_add_r by lia.
  rewrite Z.div_mul_cancel_r by lia.
  rewrite Z.mul_mod_distr_r by lia.
  replace (2 * (M mod 2 ^ k * 2 ^ j)) with ((2 * (M mod 2 ^ k)) * 2 ^ j)
    by ring.
  destruct (Z.compare_spec (2 * (M mod 2 ^ k) * 2 ^ j) (2 ^ k * 2 ^ j));
    destruct (Z.compare_spec (2 * (M mod 2 ^ k)) (2 ^ k));
    try reflexivity; nia.
Qed.

Lemma shr_1_inv (M k : Z) (mrs : shr_record) :
  0 <= k -> 0 <= shr_m mrs ->
  shr_inv M k mrs -> shr_inv M (k + 1) (shr_1 mrs).
Proof.
  intros Hk Hm (t & Ht & HM & Hs).
  destruct mrs as [m r s]. cbn [shr_m shr_r shr_s] in *.
  assert (P : 2 ^ (k + 1) = 2 * 2 ^ k)
    by (rewrite Z.pow_add_r by lia; lia).
  assert (P2 : 2 ^ (k + 1 + 1) = 4 * 2 ^ k)
    by (rewrite !Z.pow_add_r by lia; lia).
  assert (Pk : 0 < 2 ^ k) by (apply Z.pow_pos_nonneg; lia).
  exists ((if r then 2 ^ k else 0) + t).
  destruct m as [|[q|q|]|q]; try lia; cbn [shr_1 shr_m shr_r shr_s];
    rewrite ?P, ?P2 in *; (split; [destruct r; lia|]);
    (split; [destruct r; lia|]);
    subst s; destruct r; cbn [orb];
    try (symmetry; apply negb_true_iff, Z.eqb_neq; lia);
    f_equal; destruct (Z.eqb_spec t 0); destruct (Z.eqb_spec (0 + t) 0);
    lia || reflexivity.
Qed.

Lemma shr_iter_inv (M : Z) (n : nat) :
  0 <= M ->
  shr_inv M (Z.of_nat n)
    (Nat.iter n shr_1 (Build_shr_record M false false)).
Proof.
  intro HM. induction n as [|n IH].
  - exists 0. cbn [Nat.iter nat_rect shr_m shr_r shr_s Z.of_nat].
    change (2 ^ (0 + 1)) with 2. change (2 ^ 0) with 1.
    repeat split; lia.
  - rewrite Nat.iter_succ, Nat2Z.inj_succ, <- Z.add_1_r.
    apply shr_1_inv; [lia | | exact IH].
    rewrite shr_iter_mantissa by (cbn; lia). cbn [shr_m].
    apply Z.div_pos; [lia | apply Z.pow_pos_nonneg; lia].
Qed.

Lemma shr_inv_rnd (M k : Z) (mrs : shr_record) :
  0 <= k -> shr_inv M k mrs ->
  round_nearest_even (shr_m mrs) (loc_of_shr_record mrs) = rnd M k.
Proof.
  intros Hk (t & Ht & HM & Hs).
  destruct mrs as [m r s]. cbn [shr_m shr_r shr_s] in *.
  assert (P : 2 ^ (k + 1) = 2 * 2 ^ k)
    by (rewrite Z.pow_add_r by lia; lia).
  assert (Pk : 0 < 2 ^ k) by (apply Z.pow_pos_nonneg; lia).
  rewrite P in HM.
  set (R := (if r then 2 ^ k else 0) + t) in *.
  assert (HR : 0 <= R < 2 * 2 ^ k) by (unfold R; destruct r; lia).
  assert (Heven : exists h, R = 2 * h).
  { exists (M - m * 2 ^ k). lia. }
  destruct Heven as [h Hh].
  assert (Hq : M / 2 ^ k = m).
  { symmetry. apply Z.div_unique with (r := h); lia. }
  assert (Hr : M mod 2 ^ k = h).
  { symmetry. apply Z.mod_unique with (q := m); lia. }
  unfold rnd. rewrite Hq, Hr. rewrite <- Hh.
  unfold R. subst s.
  destruct r; cbn [loc_of_shr_record].
  - destruct (Z.eqb_spec t 0) as [-> | Hne]; cbn [negb round_nearest_even].
    + rewrite Z.add_0_r, Z.compare_refl. reflexivity.
    + destruct (Z.compare_spec (2 ^ k + t) (2 ^ k)); lia.
  - destruct (Z.eqb_spec t 0) as [E0 | Hne]; cbn [negb round_nearest_even];
      destruct (Z.compare_spec (0 + t) (2 ^ k)); lia.
Qed.

Lemma round_nearest_even_bounds (m : Z) (l : location) :
  m <= round_nearest_even m l <= m + 1.
Proof.
  unfold round_nearest_even. destruct l as [|[]]; try lia.
  destruct (Z.even m); lia.
Qed.

(** A right shift by [n >= 0], followed by the rounding of the mantissa. *)
Lemma shr_round (M e n : Z) (l : location) :
  0 <= M -> 0 <= n ->
  let mrs := fst (shr (shr_record_of_loc M l) e n) in
  snd (shr (shr_record_of_loc M l) e n) = e + n /\
  M / 2 ^ n <= round_nearest_even (shr_m mrs) (loc_of_shr_record mrs)
            <= M / 2 ^ n + 1 /\
  (l = loc_Exact ->
   round_nearest_even (shr_m mrs) (loc_of_shr_record mrs) = rnd M n).
Proof.
  intros HM Hn. cbn zeta.
  destruct (shr_mantissa (shr_record_of_loc M l) e n) as [Hm He].
  { rewrite shr_record_of_loc_mantissa. exact HM. }
  rewrite shr_record_of_loc_mantissa in Hm. rewrite Z.max_l in Hm, He by lia.
  split; [exact He | split].
  - rewrite <- Hm. apply round_nearest_even_bounds.
  - intros ->. cbn [shr_record_of_loc].
    apply shr_inv_rnd; [exact Hn|].
    unfold shr. destruct n as [|q|q]; try lia; cbn [fst].
    + exists 0. cbn [shr_m shr_r shr_s].
      change (2 ^ (0 + 1)) with 2. change (2 ^ 0) with 1.
      repeat split; lia.
    + rewrite iter_pos_nat. rewrite <- (positive_nat_Z q).
      apply shr_iter_inv. exact HM.
Qed.

Lemma pow2_pos (k : Z) : 0 <= k -> 0 < 2 ^ k.
Proof. intro H. apply Z.pow_pos_nonneg; lia. Qed.

Lemma pow2_split (a b : Z) : b <= a -> 0 <= b -> 2 ^ a = 2 ^ (a - b) * 2 ^ b.
Proof.
  intros H1 H2. rewrite <- Z.pow_add_r by lia. f_equal. lia.
Qed.

Lemma pow2_succ (k : Z) : 0 <= k -> 2 ^ (k + 1) = 2 * 2 ^ k.
Proof. intro H. rewrite Z.pow_add_r by lia. lia. Qed.

Lemma Zdigits2_nonneg (m : Z) : 0 <= Zdigits2 m.
Proof. destruct m; simpl; lia. Qed.

Lemma Zdigits2_upper (m : Z) : 0 <= m -> m < 2 ^ Zdigits2 m.
Proof.
  destruct m as [|q|q]; try lia; intros _; [simpl; lia|].
  apply digits2_pos_bounds.
Qed.

Lemma Zdigits2_unique (m n : Z) :
  0 < m -> 2 ^ (n - 1) <= m < 2 ^ n -> Zdigits2 m = n.
Proof.
  intros Hm [Hlo Hhi].
  destruct (Zdigits2_bounds m Hm) as [Hd Hb].
  assert (Hu := Zdigits2_upper m ltac:(lia)).
  assert (Hn : 0 < n).
  { destruct (Z.lt_trichotomy n 0) as [N | [N | N]]; [| |exact N].
    - rewrite Z.pow_neg_r in Hhi by lia. lia.
    - subst n. simpl in Hhi. lia. }
  destruct (Z.lt_trichotomy (Zdigits2 m) n) as [L | [E | G]]; [|exact E|].
  - assert (2 ^ Zdigits2 m <= 2 ^ (n - 1)) by (apply Z.pow_le_mono_r; lia).
    lia.
  - assert (2 ^ n <= 2 ^ (Zdigits2 m - 1)) by (apply Z.pow_le_mono_r; lia).
    lia.
Qed.

Lemma Zdigits2_le (m m' : Z) : 0 <= m <= m' -> Zdigits2 m <= Zdigits2 m'.
Proof.
  intros [H0 Hle].
  destruct (Z.eq_dec m 0) as [-> | Hne]; [apply Zdigits2_nonneg|].
  destruct (Zdigits2_bounds m ltac:(lia)) as [Hd Hb].
  assert (Hu := Zdigits2_upper m' ltac:(lia)).
  destruct (Z.le_gt_cases (Zdigits2 m) (Zdigits2 m')) as [H | H]; [exact H|].
  assert (2 ^ Zdigits2 m' <= 2 ^ (Zdigits2 m - 1))
    by (apply Z.pow_le_mono_r; [lia|]; assert (H' := Zdigits2_nonneg m'); lia).
  lia.
Qed.

Lemma Zdigits2_mul_pow (m j : Z) :
  0 < m -> 0 <= j -> Zdigits2 (m * 2 ^ j) = Zdigits2 m + j.
Proof.
  intros Hm Hj. assert (Pj := pow2_pos j Hj).
  destruct (Zdigits2_bounds m Hm) as [Hd Hb].
  assert (Hu := Zdigits2_upper m ltac:(lia)).
  apply Zdigits2_unique; [nia|].
  replace (Zdigits2 m + j - 1) with (Zdigits2 m - 1 + j) by lia.
  rewrite !Z.pow_add_r by lia. nia.
Qed.

Section Format.

Variables p em : Z.
Hypothesis Hp : 0 < p.

Lemma fexp_ge_emin (z : Z) : emin p em <= fexp p em z.
Proof. unfold fexp. lia. Qed.

Lemma fexp_mono (z z' : Z) : z <= z' -> fexp p em z <= fexp p em z'.
Proof. unfold fexp. lia. Qed.

(** The mantissa a right shift to the canonical exponent leaves. *)
Lemma shifted_in_format (M e : Z) :
  0 <= M -> e <= fexp p em (Zdigits2 M + e) ->
  let E := fexp p em (Zdigits2 M + e) in
  M / 2 ^ (E - e) < 2 ^ p /\ emin p em <= E /\
  (emin p em < E -> 2 ^ (p - 1) <= M / 2 ^ (E - e)).
Proof.
  intros HM Hpre. cbn zeta.
  set (E := fexp p em (Zdigits2 M + e)) in *.
  assert (Pk := pow2_pos (E - e) ltac:(lia)).
  assert (Hu := Zdigits2_upper M HM).
  assert (Hd := Zdigits2_nonneg M).
  split; [|split; [apply fexp_ge_emin|]].
  - apply Z.div_lt_upper_bound; [lia|].
    rewrite <- Z.pow_add_r by lia.
    assert (2 ^ Zdigits2 M <= 2 ^ (E - e + p))
      by (apply Z.pow_le_mono_r; [lia | unfold E, fexp; lia]).
    lia.
  - intro Hgt.
    assert (HE : E = Zdigits2 M + e - p) by (unfold E, fexp in *; lia).
    assert (Hpos : 0 < M).
    { destruct (Z.eq_dec M 0) as [-> | N]; [|lia].
      simpl in HE. lia. }
    destruct (Zdigits2_bounds M Hpos) as [_ Hb].
    apply Z.div_le_lower_bound; [lia|].
    rewrite <- Z.pow_add_r by lia.
    replace (E - e + (p - 1)) with (Zdigits2 M - 1) by lia. exact Hb.
Qed.

Lemma rounded_in_format (M e m2 : Z) :
  0 <= M -> e <= fexp p em (Zdigits2 M + e) ->
  let E := fexp p em (Zdigits2 M + e) in
  M / 2 ^ (E - e) <= m2 <= M / 2 ^ (E - e) + 1 ->
  in_format p em m2 E.
Proof.
  intros HM Hpre E Hm2.
  destruct (shifted_in_format M e HM Hpre) as (H1 & H2 & H3).
  fold E in H1, H2, H3.
  assert (0 <= M / 2 ^ (E - e))
    by (apply Z.div_pos; [lia | apply pow2_pos; lia]).
  unfold in_format. repeat split; lia.
Qed.

(** The last step of [binary_round_aux], on a rounded mantissa. *)
Lemma second_shift_pack (s : bool) (m2 E : Z) :
  in_format p em m2 E ->
  (let '(mrs, e'') := shr_fexp p em m2 E loc_Exact in
   match shr_m mrs with
   | Z0 => S754_zero s
   | Zpos m => if e'' <=? em - p then S754_finite s m e''
               else S754_infinity s
   | Zneg _ => S754_nan
   end) = pack p em s m2 E.
Proof.
  intros ((H0 & Hle) & HE & Hn).
  unfold shr_fexp, pack. cbn [shr_record_of_loc].
  destruct (Z.ltb_spec m2 (2 ^ p)) as [Hlt | Hge].
  - assert (Hd : Zdigits2 m2 <= p).
    { destruct (Z.eq_dec m2 0) as [-> | N]; [simpl; lia|].
      destruct (Zdigits2_bounds m2 ltac:(lia)) as [Hd Hb].
      destruct (Z.le_gt_cases (Zdigits2 m2) p) as [H | H]; [exact H|].
      assert (2 ^ p <= 2 ^ (Zdigits2 m2 - 1))
        by (apply Z.pow_le_mono_r; lia).
      lia. }
    assert (Hn0 : fexp p em (Zdigits2 m2 + E) - E <= 0)
      by (unfold fexp; lia).
    unfold shr.
    destruct (fexp p em (Zdigits2 m2 + E) - E) as [|q|q]; try lia;
      cbn [shr_m]; reflexivity.
  - assert (Hm2 : m2 = 2 ^ p) by lia.
    assert (Pp : 2 ^ p = 2 * 2 ^ (p - 1)).
    { replace p with (p - 1 + 1) at 1 by lia. apply pow2_succ. lia. }
    assert (Hd : Zdigits2 m2 = p + 1).
    { apply Zdigits2_unique.
      - rewrite Hm2. apply pow2_pos. lia.
      - replace (p + 1 - 1) with p by lia. rewrite pow2_succ by lia. lia. }
    rewrite Hd.
    replace (fexp p em (p + 1 + E) - E) with 1 by (unfold fexp; lia).
    unfold shr. cbn [iter_pos].
    change (shr_m (shr_1 {| shr_m := m2; shr_r := false; shr_s := false |}))
      with (shr_m (shr_1 {| shr_m := m2; shr_r := false; shr_s := false |})).
    rewrite shr_1_mantissa by (cbn; lia). cbn [shr_m]. reflexivity.
Qed.

(** [binary_round_aux], on a mantissa whose exponent is not above the
    canonical one: the mantissa is shifted to the canonical exponent and
    rounded, to nearest even when the input is exact. *)
Lemma binary_round_aux_pack (s : bool) (M e : Z) (l : location) :
  0 <= M -> e <= fexp p em (Zdigits2 M + e) ->
  let E := fexp p em (Zdigits2 M + e) in
  exists m2,
    binary_round_aux p em s M e l = pack p em s m2 E /\
    M / 2 ^ (E - e) <= m2 <= M / 2 ^ (E - e) + 1 /\
    (l = loc_Exact -> m2 = rnd M (E - e)) /\
    in_format p em m2 E.
Proof.
  intros HM Hpre E.
  destruct (shr_round M e (E - e) l HM ltac:(lia)) as (He & Hb & Hx).
  cbn zeta in Hb, Hx.
  unfold binary_round_aux.
  unfold shr_fexp at 1. fold E.
  destruct (shr (shr_record_of_loc M l) e (E - e)) as [mrs' e'].
  cbn [fst snd] in He, Hb, Hx. subst e'.
  replace (e + (E - e)) with E by lia.
  set (m2 := round_nearest_even (shr_m mrs') (loc_of_shr_record mrs')) in *.
  assert (Hfmt : in_format p em m2 E)
    by (apply (rounded_in_format M e m2 HM Hpre); exact Hb).
  exists m2. split; [|split; [exact Hb | split; [exact Hx | exact Hfmt]]].
  apply second_shift_pack. exact Hfmt.
Qed.

(** *** Packed values *)

Lemma in_format_digits (m E : Z) :
  in_format p em m E -> 0 < m -> m < 2 ^ p ->
  fexp p em (Zdigits2 m + E) = E.
Proof.
  intros ((H0 & Hle) & HE & Hn) Hpos Hlt.
  destruct (Zdigits2_bounds m Hpos) as [Hd Hb].
  assert (Hdp : Zdigits2 m <= p).
  { destruct (Z.le_gt_cases (Zdigits2 m) p) as [H | H]; [exact H|].
    assert (2 ^ p <= 2 ^ (Zdigits2 m - 1)) by (apply Z.pow_le_mono_r; lia).
    lia. }
  destruct (Z.eq_dec E (emin p em)) as [-> | Hne]; [unfold fexp; lia|].
  assert (Hm : 2 ^ (p - 1) <= m) by (apply Hn; lia).
  assert (Zdigits2 m = p) by (apply Zdigits2_unique; lia).
  unfold fexp. lia.
Qed.

Lemma pack_valid (s : bool) (m E : Z) :
  in_format p em m E -> valid_binary p em (pack p em s m E) = true.
Proof.
  intros Hfmt. assert (Hfmt' := Hfmt).
  destruct Hfmt' as ((H0 & Hle) & HE & Hn). unfold pack.
  destruct (Z.ltb_spec m (2 ^ p)) as [Hlt | Hge].
  - destruct m as [|q|q]; try lia; [reflexivity|].
    destruct (Z.leb_spec E (em - p)) as [Hb | Hb]; [|reflexivity].
    cbn [valid_binary]. unfold bounded, canonical_mantissa.
    apply andb_true_iff. split; [|apply Z.leb_le; exact Hb].
    apply Z.eqb_eq.
    apply (in_format_digits (Zpos q) E Hfmt); lia.
  - assert (Hm : m = 2 ^ p) by lia.
    assert (Pp : 2 ^ p = 2 * 2 ^ (p - 1)).
    { replace p with (p - 1 + 1) at 1 by lia. apply pow2_succ. lia. }
    assert (Hhalf : m / 2 = 2 ^ (p - 1)).
    { rewrite Hm, Pp. rewrite Z.mul_comm. apply Z.div_mul. lia. }
    rewrite Hhalf.
    assert (Ppos := pow2_pos (p - 1) ltac:(lia)).
    destruct (2 ^ (p - 1)) as [|q|q] eqn:Eq; try lia.
    destruct (Z.leb_spec (E + 1) (em - p)) as [Hb | Hb]; [|reflexivity].
    cbn [valid_binary]. unfold bounded, canonical_mantissa.
    apply andb_true_iff. split; [|apply Z.leb_le; exact Hb].
    apply Z.eqb_eq.
    assert (Hd : Zdigits2 (Zpos q) = p).
    { apply Zdigits2_unique; [lia|]. rewrite <- Eq. lia. }
    cbn [Zdigits2] in Hd. rewrite Hd. unfold fexp. lia.
Qed.

Lemma pack_canonical (s : bool) (m : positive) (e : Z) :
  bounded p em m e = true ->
  pack p em s (Zpos m) e = S754_finite s m e /\
  in_format p em (Zpos m) e.
Proof.
  unfold bounded. intro H. apply andb_true_iff in H. destruct H as [Hc Hb].
  destruct (canonical_digits p em m e Hc) as (Hd & He & Hn).
  apply Z.leb_le in Hb.
  assert (B := digits2_pos_bounds m).
  assert (Hlt : Zpos m < 2 ^ p).
  { assert (2 ^ Zpos (digits2_pos m) <= 2 ^ p)
      by (apply Z.pow_le_mono_r; lia).
    lia. }
  split.
  - unfold pack. destruct (Z.ltb_spec (Zpos m) (2 ^ p)); [|lia].
    destruct (Z.leb_spec e (em - p)); [reflexivity | lia].
  - unfold in_format. repeat split; try lia.
    intro Hgt. rewrite (Hn Hgt) in B. lia.
Qed.

Lemma pack_not_nan (s : bool) (m E : Z) :
  in_format p em m E -> isnan (pack p em s m E) = false.
Proof.
  intros ((H0 & Hle) & HE & Hn). unfold pack.
  destruct (Z.ltb_spec m (2 ^ p)) as [Hlt | Hge].
  - destruct m as [|q|q]; try lia; [reflexivity|].
    destruct (E <=? em - p); reflexivity.
  - assert (0 <= m / 2) by (apply Z.div_pos; lia).
    destruct (m / 2) as [|q|q]; try lia; [reflexivity|].
    destruct (E + 1 <=? em - p); reflexivity.
Qed.

(** A packed value with a mantissa below [2^p]. *)
Lemma pack_small (s : bool) (n F : Z) :
  0 <= n < 2 ^ p ->
  pack p em s n F
  = match n with
    | Z0 => S754_zero s
    | Zpos q => if F <=? em - p then S754_finite s q F else S754_infinity s
    | Zneg _ => S754_nan
    end.
Proof.
  intro H. unfold pack. destruct (Z.ltb_spec n (2 ^ p)); [reflexivity|lia].
Qed.

Lemma pack_normal (s : bool) (m E c : Z) :
  in_format p em m E -> c <= E ->
  exists n F,
    pack p em s m E = pack p em s n F /\ in_format p em n F /\
    0 <= n < 2 ^ p /\ c <= F /\ n * 2 ^ (F - c) = m * 2 ^ (E - c).
Proof.
  intros Hf Hc. assert (Hf' := Hf). destruct Hf' as ((H0 & Hle) & HE & Hn).
  assert (Pp : 2 ^ p = 2 * 2 ^ (p - 1)).
  { replace p with (p - 1 + 1) at 1 by lia. apply pow2_succ. lia. }
  assert (Ppos := pow2_pos (p - 1) ltac:(lia)).
  destruct (Z.lt_ge_cases m (2 ^ p)) as [Hlt | Hge].
  - exists m, E. repeat split; try assumption; lia.
  - assert (Hm : m = 2 ^ p) by lia.
    assert (Hhalf : m / 2 = 2 ^ (p - 1)).
    { rewrite Hm, Pp. rewrite Z.mul_comm. apply Z.div_mul. lia. }
    exists (2 ^ (p - 1)), (E + 1). split; [|split; [|split; [|split]]].
    + unfold pack. destruct (Z.ltb_spec m (2 ^ p)); [lia|].
      destruct (Z.ltb_spec (2 ^ (p - 1)) (2 ^ p)); [|lia].
      rewrite Hhalf. reflexivity.
    + unfold in_format. repeat split; lia.
    + lia.
    + lia.
    + replace (E + 1 - c) with (E - c + 1) by lia.
      rewrite pow2_succ by lia. rewrite Hm, Pp. ring.
Qed.

(** Packed values are ordered as their values are. *)
Lemma pack_mono (m E m' E' c : Z) :
  in_format p em m E -> in_format p em m' E' ->
  c <= E -> c <= E' ->
  m * 2 ^ (E - c) <= m' * 2 ^ (E' - c) ->
  SFleb (pack p em false m E) (pack p em false m' E') = true.
Proof.
  intros Hf Hf' Hc Hc' Hle.
  destruct (pack_normal false m E c Hf Hc) as (n & F & -> & Hn & Hr & HF & Hv).
  destruct (pack_normal false m' E' c Hf' Hc')
    as (n' & F' & -> & Hn' & Hr' & HF' & Hv').
  rewrite <- Hv, <- Hv' in Hle. clear Hv Hv' Hf Hf' Hc Hc' m m' E E'.
  rewrite !pack_small by assumption.
  assert (Pp : 2 ^ p = 2 * 2 ^ (p - 1)).
  { replace p with (p - 1 + 1) at 1 by lia. apply pow2_succ. lia. }
  assert (PF := pow2_pos (F - c) ltac:(lia)).
  assert (PF' := pow2_pos (F' - c) ltac:(lia)).
  destruct n as [|q|q]; try lia.
  { destruct n' as [|q'|q']; try lia; [reflexivity|].
    destruct (F' <=? em - p); reflexivity. }
  destruct n' as [|q'|q']; try lia.
  destruct (Z.leb_spec F' (em - p)) as [Hb' | Hb'].
  2:{ destruct (F <=? em - p); reflexivity. }
  assert (HFF : F <= F').
  { destruct (Z.le_gt_cases F F') as [H | H]; [exact H|].
    exfalso. destruct Hn as (_ & HE & Hnorm). destruct Hn' as (_ & HE' & _).
    assert (Hq : 2 ^ (p - 1) <= Zpos q) by (apply Hnorm; lia).
    assert (Hs : 2 ^ (F - c) = 2 ^ (F - F') * 2 ^ (F' - c)).
    { rewrite <- Z.pow_add_r by lia. f_equal. lia. }
    assert (H2 : 2 <= 2 ^ (F - F')).
    { change 2 with (2 ^ 1) at 1. apply Z.pow_le_mono_r; lia. }
    rewrite Hs in Hle. nia. }
  destruct (Z.leb_spec F (em - p)) as [Hb | Hb]; [|lia].
  unfold SFleb, SFcompare.
  destruct (Z.compare_spec F F') as [Heq | Hlt | Hgt].
  - subst F'.
    change (Pos.compare_cont Eq q q') with (Pos.compare q q').
    assert (Hqq : (q <= q')%positive) by nia.
    destruct (Pos.compare_spec q q'); try reflexivity. lia.
  - reflexivity.
  - lia.
Qed.

Lemma pack_nonneg (m E : Z) :
  in_format p em m E -> SFleb (S754_zero false) (pack p em false m E) = true.
Proof.
  intros ((H0 & Hle) & HE & Hn). unfold pack.
  destruct (Z.ltb_spec m (2 ^ p)) as [Hlt | Hge].
  - destruct m as [|q|q]; try lia; [reflexivity|].
    destruct (E <=? em - p); reflexivity.
  - assert (0 <= m / 2) by (apply Z.div_pos; lia).
    destruct (m / 2) as [|q|q]; try lia; [reflexivity|].
    destruct (E + 1 <=? em - p); reflexivity.
Qed.

(** *** Bounds of a rounded value by values of the format *)

(** A value of the format that the exact value does not exceed bounds the
    rounded value from above. *)
Lemma binary_round_aux_le (M e : Z) (l : location) (mr : positive)
    (er c : Z) :
  0 <= M -> e <= fexp p em (Zdigits2 M + e) ->
  bounded p em mr er = true ->
  c <= e -> c <= er ->
  M * 2 ^ (e - c) <= Zpos mr * 2 ^ (er - c) ->
  (l <> loc_Exact -> M * 2 ^ (e - c) < Zpos mr * 2 ^ (er - c)) ->
  SFleb (binary_round_aux p em false M e l) (S754_finite false mr er) = true.
Proof.
  intros HM Hpre Hr Hce Hcr Hle Hlt.
  destruct (binary_round_aux_pack false M e l HM Hpre)
    as (m2 & -> & Hm2 & Hx & Hfmt).
  set (E := fexp p em (Zdigits2 M + e)) in *.
  destruct (pack_canonical false mr er Hr) as [<- Hfr].
  assert (Hr' := Hr). unfold bounded in Hr'. apply andb_true_iff in Hr'.
  destruct Hr' as [Hcan _].
  destruct (canonical_digits p em mr er Hcan) as (Hdr & Her & _).
  assert (Hcan' : fexp p em (Zpos (digits2_pos mr) + er) = er)
    by (apply Z.eqb_eq; exact Hcan).
  assert (Pe := pow2_pos (e - c) ltac:(lia)).
  assert (Pr := pow2_pos (er - c) ltac:(lia)).
  (* the exponent of the bound is not below the canonical exponent *)
  assert (HEr : E <= er).
  { destruct (Z.eq_dec E (emin p em)) as [-> | Hne]; [exact Her|].
    assert (HE : E = Zdigits2 M + e - p)
      by (unfold E, fexp in *; lia).
    assert (Hpos : 0 < M).
    { destruct (Z.eq_dec M 0) as [-> | N]; [|lia]. simpl in HE.
      unfold E, fexp in *. simpl in *. lia. }
    destruct (Zdigits2_bounds M Hpos) as [Hd Hb].
    assert (Br := digits2_pos_bounds mr).
    assert (Hmag : Zdigits2 M + e <= Zpos (digits2_pos mr) + er).
    { destruct (Z.le_gt_cases (Zdigits2 M + e) (Zpos (digits2_pos mr) + er))
        as [H | H]; [exact H|]. exfalso.
      assert (H1 : 2 ^ (Zdigits2 M - 1) * 2 ^ (e - c)
                   <= M * 2 ^ (e - c)) by nia.
      assert (H2 : Zpos mr * 2 ^ (er - c)
                   < 2 ^ Zpos (digits2_pos mr) * 2 ^ (er - c)) by nia.
      rewrite <- Z.pow_add_r in H1, H2 by lia.
      assert (H3 : 2 ^ (Zpos (digits2_pos mr) + (er - c))
                   <= 2 ^ (Zdigits2 M - 1 + (e - c)))
        by (apply Z.pow_le_mono_r; lia).
      lia. }
    unfold fexp in Hcan'. lia. }
  apply pack_mono with (c := E); try assumption; try lia.
  rewrite Z.sub_diag, Z.pow_0_r, Z.mul_1_r.
  set (Mr := Zpos mr * 2 ^ (er - E)).
  assert (PE := pow2_pos (E - e) ltac:(lia)).
  assert (Hs1 : 2 ^ (er - c) = 2 ^ (er - E) * (2 ^ (E - e) * 2 ^ (e - c))).
  { rewrite <- !Z.pow_add_r by lia. f_equal. lia. }
  assert (HleM : M <= Mr * 2 ^ (E - e)).
  { unfold Mr. rewrite Hs1 in Hle. nia. }
  destruct l as [|cmp].
  - rewrite (Hx eq_refl).
    rewrite <- (rnd_multiple Mr (E - e)) by lia.
    apply rnd_mono; [lia | exact HleM].
  - assert (HltM : M < Mr * 2 ^ (E - e)).
    { specialize (Hlt ltac:(discriminate)). unfold Mr.
      rewrite Hs1 in Hlt. nia. }
    assert (M / 2 ^ (E - e) < Mr)
      by (apply Z.div_lt_upper_bound; [lia | rewrite Z.mul_comm; exact HltM]).
    lia.
Qed.

(** A value of the format that does not exceed the exact value bounds the
    rounded value from below. *)
Lemma binary_round_aux_ge (M e : Z) (l : location) (mr : positive)
    (er c : Z) :
  0 <= M -> e <= fexp p em (Zdigits2 M + e) ->
  bounded p em mr er = true ->
  c <= e -> c <= er ->
  Zpos mr * 2 ^ (er - c) <= M * 2 ^ (e - c) ->
  SFleb (S754_finite false mr er) (binary_round_aux p em false M e l) = true.
Proof.
  intros HM Hpre Hr Hce Hcr Hle.
  destruct (binary_round_aux_pack false M e l HM Hpre)
    as (m2 & -> & Hm2 & Hx & Hfmt).
  destruct (shifted_in_format M e HM Hpre) as (Hs1 & Hs2 & Hs3).
  set (E := fexp p em (Zdigits2 M + e)) in *.
  destruct (pack_canonical false mr er Hr) as [<- Hfr].
  assert (Hr' := Hr). unfold bounded in Hr'. apply andb_true_iff in Hr'.
  destruct Hr' as [Hcan _].
  destruct (canonical_digits p em mr er Hcan) as (Hdr & Her & _).
  assert (Pe := pow2_pos (e - c) ltac:(lia)).
  assert (Pr := pow2_pos (er - c) ltac:(lia)).
  assert (PE := pow2_pos (E - e) ltac:(lia)).
  assert (PEc : 2 ^ (E - c) = 2 ^ (E - e) * 2 ^ (e - c)).
  { rewrite <- Z.pow_add_r by lia. f_equal. lia. }
  apply pack_mono with (c := c); try assumption; try lia.
  apply Z.le_trans with (M / 2 ^ (E - e) * 2 ^ (E - c));
    [|apply Z.mul_le_mono_nonneg_r; [apply Z.pow_nonneg|]; lia].
  destruct (Z.le_gt_cases E er) as [Hge | Hlt].
  - assert (Hs : 2 ^ (er - c) = 2 ^ (er - E) * 2 ^ (E - c)).
    { rewrite <- Z.pow_add_r by lia. f_equal. lia. }
    rewrite Hs, Z.mul_assoc.
    apply Z.mul_le_mono_nonneg_r; [apply Z.pow_nonneg; lia|].
    apply Z.div_le_lower_bound; [lia|].
    rewrite Hs, PEc in Hle.
    assert (PrE := pow2_pos (er - E) ltac:(lia)). nia.
  - assert (Hm1 : 2 ^ (p - 1) <= M / 2 ^ (E - e)) by (apply Hs3; lia).
    assert (Br := digits2_pos_bounds mr).
    assert (H1 : 2 ^ Zpos (digits2_pos mr) <= 2 ^ p)
      by (apply Z.pow_le_mono_r; lia).
    assert (H2 : 2 ^ p * 2 ^ (er - c) <= 2 ^ (p - 1) * 2 ^ (E - c)).
    { rewrite <- !Z.pow_add_r by lia. apply Z.pow_le_mono_r; lia. }
    assert (PEc' := pow2_pos (E - c) ltac:(lia)).
    nia.
Qed.

End Format.

End RoundingToNearest.

(** ** Exact operations: sums, differences, products and quotients *)

Section RoundedOperations.

Local Open Scope Z_scope.

Section Exact.

Variables p em : Z.
Hypothesis Hp : 0 < p.

(** [binary_round] of an exact value, with the value written at any
    exponent [c] below its own and below the canonical one. *)
Lemma binary_round_pack (s : bool) (m : positive) (e c : Z) :
  let E := fexp p em (Zpos (digits2_pos m) + e) in
  c <= e -> c <= E ->
  binary_round p em s m e
  = pack p em s (rnd (Zpos m * 2 ^ (e - c)) (E - c)) E /\
  in_format p em (rnd (Zpos m * 2 ^ (e - c)) (E - c)) E.
Proof.
  intros E Hce HcE. unfold binary_round. fold E.
  destruct (Z.le_gt_cases E e) as [Hle | Hgt].
  - destruct (shl_align_spec m e E Hle) as (H1 & H2 & H3).
    destruct (shl_align m e E) as [mz ez]. cbn [fst snd] in H1, H2, H3.
    subst ez.
    assert (HE : fexp p em (Zdigits2 (Zpos mz) + E) = E)
      by (cbn [Zdigits2]; rewrite H3; reflexivity).
    destruct (binary_round_aux_pack p em Hp s (Zpos mz) E loc_Exact)
      as (m2 & Heq & Hb & Hx & Hfmt); [lia | lia |].
    rewrite HE in Heq, Hx, Hfmt. rewrite Z.sub_diag in Hx.
    specialize (Hx eq_refl). subst m2.
    assert (Hr : rnd (Zpos m * 2 ^ (e - c)) (E - c) = rnd (Zpos mz) 0).
    { rewrite <- (rnd_scale (Zpos mz) 0 (E - c)) by lia.
      rewrite Z.add_0_l. f_equal. rewrite H2, <- Z.mul_assoc.
      rewrite <- Z.pow_add_r by lia. do 2 f_equal. lia. }
    rewrite Hr. split; assumption.
  - assert (Hsh : shl_align m e E = (m, e)).
    { unfold shl_align. destruct (E - e) eqn:D; try reflexivity. lia. }
    rewrite Hsh.
    destruct (binary_round_aux_pack p em Hp s (Zpos m) e loc_Exact)
      as (m2 & Heq & Hb & Hx & Hfmt); [lia | cbn [Zdigits2]; fold E; lia |].
    cbn [Zdigits2] in Heq, Hx, Hfmt. fold E in Heq, Hx, Hfmt.
    specialize (Hx eq_refl). subst m2.
    assert (Hr : rnd (Zpos m * 2 ^ (e - c)) (E - c) = rnd (Zpos m) (E - e)).
    { rewrite <- (rnd_scale (Zpos m) (E - e) (e - c)) by lia.
      f_equal. lia. }
    rewrite Hr. split; assumption.
Qed.

Lemma binary_round_valid (s : bool) (m : positive) (e : Z) :
  valid_binary p em (binary_round p em s m e) = true.
Proof.
  set (E := fexp p em (Zpos (digits2_pos m) + e)).
  destruct (binary_round_pack s m e (Z.min e E)) as [-> Hf]; try lia.
  apply pack_valid; assumption.
Qed.

Lemma binary_normalize_valid (M e : Z) (s : bool) :
  valid_binary p em (binary_normalize p em M e s) = true.
Proof.
  destruct M as [|q|q]; [reflexivity| |]; apply binary_round_valid.
Qed.

Lemma scaled_le_rescale (M M' e e' c c' : Z) :
  c' <= c -> c <= e -> c <= e' ->
  M * 2 ^ (e - c) <= M' * 2 ^ (e' - c) ->
  M * 2 ^ (e - c') <= M' * 2 ^ (e' - c').
Proof.
  intros H1 H2 H3 H.
  assert (P := pow2_pos (c - c') ltac:(lia)).
  replace (e - c') with ((e - c) + (c - c')) by lia.
  replace (e' - c') with ((e' - c) + (c - c')) by lia.
  rewrite !Z.pow_add_r by lia. nia.
Qed.

(** Rounding an exact value is monotone. *)
Lemma binary_round_mono (m m' : positive) (e e' c : Z) :
  c <= e -> c <= e' ->
  Zpos m * 2 ^ (e - c) <= Zpos m' * 2 ^ (e' - c) ->
  SFleb (binary_round p em false m e) (binary_round p em false m' e') = true.
Proof.
  intros Hce Hce' Hle.
  set (E := fexp p em (Zpos (digits2_pos m) + e)).
  set (E' := fexp p em (Zpos (digits2_pos m') + e')).
  set (c0 := Z.min c (emin p em)).
  assert (HE := fexp_ge_emin p em (Zpos (digits2_pos m) + e)).
  assert (HE' := fexp_ge_emin p em (Zpos (digits2_pos m') + e')).
  fold E in HE. fold E' in HE'.
  destruct (binary_round_pack false m e c0) as [-> Hf]; try (unfold c0; lia).
  destruct (binary_round_pack false m' e' c0) as [-> Hf'];
    try (unfold c0; lia).
  fold E in Hf |- *. fold E' in Hf' |- *.
  assert (HX : Zpos m * 2 ^ (e - c0) <= Zpos m' * 2 ^ (e' - c0))
    by (apply scaled_le_rescale with (c := c); unfold c0; lia).
  set (X := Zpos m * 2 ^ (e - c0)) in *.
  set (X' := Zpos m' * 2 ^ (e' - c0)) in *.
  assert (Pe := pow2_pos (e - c0) ltac:(unfold c0; lia)).
  assert (Pe' := pow2_pos (e' - c0) ltac:(unfold c0; lia)).
  assert (HdX : Zdigits2 X + c0 = Zpos (digits2_pos m) + e).
  { unfold X. rewrite Zdigits2_mul_pow by (unfold c0; lia).
    cbn [Zdigits2]. lia. }
  assert (HdX' : Zdigits2 X' + c0 = Zpos (digits2_pos m') + e').
  { unfold X'. rewrite Zdigits2_mul_pow by (unfold c0; lia).
    cbn [Zdigits2]. lia. }
  assert (Hdig : Zdigits2 X <= Zdigits2 X')
    by (apply Zdigits2_le; unfold X; lia).
  assert (HEE : E <= E') by (unfold E, E'; apply fexp_mono; lia).
  apply pack_mono with (c := c0); try assumption; try (unfold c0; lia).
  destruct (Z.eq_dec E E') as [Heq | Hne].
  - rewrite <- Heq.
    apply Z.mul_le_mono_nonneg_r;
      [apply Z.pow_nonneg; lia | apply rnd_mono; [unfold c0; lia | exact HX]].
  - destruct Hf as ((_ & Hup) & _ & _). destruct Hf' as (_ & _ & Hlow).
    specialize (Hlow ltac:(lia)).
    assert (Pp : 2 ^ p = 2 * 2 ^ (p - 1)).
    { replace p with (p - 1 + 1) at 1 by lia. apply pow2_succ. lia. }
    assert (PE := pow2_pos (E - c0) ltac:(unfold c0; lia)).
    assert (Hs : 2 ^ (E' - c0) = 2 ^ (E' - E) * 2 ^ (E - c0)).
    { rewrite <- Z.pow_add_r by (unfold c0; lia). f_equal. lia. }
    assert (H2 : 2 <= 2 ^ (E' - E)).
    { change 2 with (2 ^ 1) at 1. apply Z.pow_le_mono_r; lia. }
    assert (Ppos := pow2_pos (p - 1) ltac:(lia)).
    rewrite Hs, Z.mul_assoc.
    apply Z.mul_le_mono_nonneg_r; [lia|].
    apply Z.le_trans with (2 ^ (p - 1) * 2 ^ (E' - E)); nia.
Qed.

Lemma binary_normalize_mono (M M' e e' c : Z) :
  0 <= M -> c <= e -> c <= e' ->
  M * 2 ^ (e - c) <= M' * 2 ^ (e' - c) ->
  SFleb (binary_normalize p em M e false) (binary_normalize p em M' e' false)
  = true.
Proof.
  intros HM Hce Hce' Hle.
  assert (Pe := pow2_pos (e - c) ltac:(lia)).
  assert (Pe' := pow2_pos (e' - c) ltac:(lia)).
  destruct M as [|q|q]; try lia.
  - apply (binary_normalize_nonneg p em). nia.
  - destruct M' as [|q'|q']; try nia.
    cbn [binary_normalize]. apply binary_round_mono with (c := c); assumption.
Qed.

(** The same value at another exponent rounds to the same float. *)
Lemma binary_normalize_rescale (M e j : Z) (s : bool) :
  0 <= j ->
  binary_normalize p em (M * 2 ^ j) (e - j) s = binary_normalize p em M e s.
Proof.
  intro Hj. assert (Pj := pow2_pos j Hj).
  assert (Hround : forall s (q q' : positive),
            Zpos q' = Zpos q * 2 ^ j ->
            binary_round p em s q' (e - j) = binary_round p em s q e).
  { clear s. intros s q q' Hq.
    assert (Hd : Zpos (digits2_pos q') + (e - j) = Zpos (digits2_pos q) + e).
    { change (Zpos (digits2_pos q')) with (Zdigits2 (Zpos q')).
      rewrite Hq, Zdigits2_mul_pow by lia. cbn [Zdigits2]. lia. }
    set (E := fexp p em (Zpos (digits2_pos q) + e)).
    set (c0 := Z.min (e - j) E).
    destruct (binary_round_pack s q' (e - j) c0) as [-> _];
      try (rewrite ?Hd; fold E; unfold c0; lia).
    destruct (binary_round_pack s q e c0) as [-> _];
      try (fold E; unfold c0; lia).
    rewrite Hd. fold E. do 2 f_equal. rewrite Hq, <- Z.mul_assoc.
    rewrite <- Z.pow_add_r by (unfold c0; lia). do 2 f_equal. lia. }
  destruct M as [|q|q].
  - reflexivity.
  - assert (Hpos : 0 < Zpos q * 2 ^ j) by lia.
    destruct (Zpos q * 2 ^ j) as [|q'|q'] eqn:Eq; try lia.
    cbn [binary_normalize]. apply Hround. lia.
  - assert (Hneg : Zneg q * 2 ^ j < 0) by lia.
    destruct (Zneg q * 2 ^ j) as [|q'|q'] eqn:Eq; try lia.
    cbn [binary_normalize]. apply Hround. lia.
Qed.

Lemma binary_normalize_canonical (s : bool) (m : positive) (e : Z) :
  bounded p em m e = true ->
  binary_normalize p em (cond_Zopp s (Zpos m)) e false = S754_finite s m e.
Proof.
  intro H. destruct s; cbn [cond_Zopp Z.opp binary_normalize];
    apply binary_round_canonical; exact H.
Qed.

End Exact.

Lemma SFleb_same_value (a a' b b' : spec_float) :
  same_value a a' -> same_value b b' -> SFleb a b = SFleb a' b'.
Proof.
  intros [-> | (s1 & s2 & -> & ->)] [-> | (s3 & s4 & -> & ->)];
    reflexivity.
Qed.

Lemma exists_below (x y z : spec_float) :
  exists c, below_exponent c x /\ below_exponent c y /\ below_exponent c z.
Proof.
  exists (Z.min (match x with S754_finite _ _ e => e | _ => 0 end)
            (Z.min (match y with S754_finite _ _ e => e | _ => 0 end)
                   (match z with S754_finite _ _ e => e | _ => 0 end))).
  destruct x, y, z; cbn; repeat split; lia.
Qed.

Section Scaled.

Variables p em : Z.
Hypothesis Hp : 0 < p.

Lemma canonical_le_scaled (m1 : positive) (e1 : Z) (m2 : positive) (e2 c : Z) :
  canonical_mantissa p em m1 e1 = true ->
  canonical_mantissa p em m2 e2 = true ->
  c <= e1 -> c <= e2 ->
  e1 < e2 \/ (e1 = e2 /\ (m1 <= m2)%positive) ->
  Zpos m1 * 2 ^ (e1 - c) <= Zpos m2 * 2 ^ (e2 - c).
Proof.
  intros C1 C2 Hc1 Hc2 Hord.
  assert (H := aligned_le p em Hp m1 e1 m2 e2 C1 C2 Hord).
  destruct (shl_align_spec m1 e1 (Z.min e1 e2)) as (_ & V1 & _); [lia|].
  destruct (shl_align_spec m2 e2 (Z.min e1 e2)) as (_ & V2 & _); [lia|].
  rewrite V1, V2 in H.
  apply scaled_le_rescale with (c := Z.min e1 e2); lia.
Qed.

Lemma valid_canonical (s : bool) (m : positive) (e : Z) :
  valid_binary p em (S754_finite s m e) = true ->
  canonical_mantissa p em m e = true /\ bounded p em m e = true.
Proof.
  cbn [valid_binary]. intro H. split; [|exact H].
  unfold bounded in H. apply andb_true_iff in H. tauto.
Qed.

(** The order of finite values of the format is the order of their
    values. *)
Lemma SFleb_scaled (x y : spec_float) (c : Z) :
  valid_binary p em x = true -> valid_binary p em y = true ->
  isfinite x = true -> isfinite y = true ->
  below_exponent c x -> below_exponent c y ->
  SFleb x y = true -> scaled c x <= scaled c y.
Proof.
  intros Vx Vy Fx Fy Bx By Hle.
  destruct x as [sx| | |sx mx ex]; try discriminate;
    destruct y as [sy| | |sy my ey]; try discriminate;
    cbn [scaled below_exponent] in *; try lia.
  - assert (P := pow2_pos (ey - c) ltac:(lia)).
    destruct sy; [discriminate | cbn [cond_Zopp]; lia].
  - assert (P := pow2_pos (ex - c) ltac:(lia)).
    destruct sx; [cbn [cond_Zopp]; lia | discriminate].
  - destruct (valid_canonical sx mx ex Vx) as [Cx _].
    destruct (valid_canonical sy my ey Vy) as [Cy _].
    assert (Px := pow2_pos (ex - c) ltac:(lia)).
    assert (Py := pow2_pos (ey - c) ltac:(lia)).
    unfold SFleb, SFcompare in Hle.
    change (Pos.compare_cont Eq mx my) with (Pos.compare mx my) in Hle.
    destruct sx, sy; cbn [cond_Zopp]; try discriminate; try lia.
    + assert (Hord : ey < ex \/ (ey = ex /\ (my <= mx)%positive)).
      { destruct (Z.compare_spec ex ey); try discriminate;
          [right | left; lia].
        split; [lia|]. destruct (Pos.compare_spec mx my);
          try discriminate; lia. }
      assert (H := canonical_le_scaled my ey mx ex c Cy Cx By Bx Hord). lia.
    + assert (Hord : ex < ey \/ (ex = ey /\ (mx <= my)%positive)).
      { destruct (Z.compare_spec ex ey); try discriminate;
          [right | left; lia].
        split; [lia|]. destruct (Pos.compare_spec mx my);
          try discriminate; lia. }
      exact (canonical_le_scaled mx ex my ey c Cx Cy Bx By Hord).
Qed.

(** A finite value of the format is the rounding of its own value. *)
Lemma self_scaled (x : spec_float) (c : Z) :
  valid_binary p em x = true -> isfinite x = true -> below_exponent c x ->
  same_value x (binary_normalize p em (scaled c x) c false).
Proof.
  intros Vx Fx Bx.
  destruct x as [sx| | |sx mx ex]; try discriminate;
    cbn [scaled below_exponent] in *.
  - right. exists sx, false. split; reflexivity.
  - left. destruct (valid_canonical sx mx ex Vx) as [_ Hb].
    rewrite <- (binary_normalize_canonical p em sx mx ex Hb).
    rewrite <- (binary_normalize_rescale p em Hp _ ex (ex - c)) by lia.
    f_equal; [destruct sx; cbn [cond_Zopp]; lia | lia].
Qed.

Lemma aligned_scaled (s : bool) (m : positive) (e ez c : Z) :
  ez <= e -> c <= ez ->
  cond_Zopp s (Zpos (fst (shl_align m e ez))) * 2 ^ (ez - c)
  = cond_Zopp s (Zpos m * 2 ^ (e - c)).
Proof.
  intros H1 H2. destruct (shl_align_spec m e ez H1) as (_ & V & _).
  rewrite V.
  assert (Hs : 2 ^ (e - c) = 2 ^ (e - ez) * 2 ^ (ez - c)).
  { rewrite <- Z.pow_add_r by lia. f_equal. lia. }
  rewrite Hs. destruct s; cbn [cond_Zopp]; ring.
Qed.

(** Subtraction and addition of finite values of the format round the
    exact difference and the exact sum. *)
Lemma SFsub_scaled (x y : spec_float) (c : Z) :
  valid_binary p em x = true -> valid_binary p em y = true ->
  isfinite x = true -> isfinite y = true ->
  below_exponent c x -> below_exponent c y ->
  same_value (SFsub p em x y)
             (binary_normalize p em (scaled c x - scaled c y) c false).
Proof.
  intros Vx Vy Fx Fy Bx By.
  destruct x as [sx| | |sx mx ex]; try discriminate;
    destruct y as [sy| | |sy my ey]; try discriminate;
    cbn [scaled below_exponent] in *.
  - right. cbn [SFsub Z.sub Z.add Z.opp binary_normalize].
    destruct sx, sy; eexists; eexists; split; reflexivity.
  - cbn [SFsub].
    replace (0 - cond_Zopp sy (Zpos my * 2 ^ (ey - c)))
      with (scaled c (S754_finite (negb sy) my ey))
      by (destruct sy; cbn [scaled cond_Zopp negb]; lia).
    apply self_scaled; [exact Vy | reflexivity | exact By].
  - cbn [SFsub]. rewrite Z.sub_0_r.
    apply (self_scaled (S754_finite sx mx ex) c Vx eq_refl Bx).
  - left. cbn [SFsub].
    rewrite <- (binary_normalize_rescale p em Hp _ (Z.min ex ey)
                  (Z.min ex ey - c)) by lia.
    f_equal; [|lia]. rewrite Z.mul_sub_distr_r.
    rewrite !aligned_scaled by lia. reflexivity.
Qed.

Lemma SFadd_scaled (x y : spec_float) (c : Z) :
  valid_binary p em x = true -> valid_binary p em y = true ->
  isfinite x = true -> isfinite y = true ->
  below_exponent c x -> below_exponent c y ->
  same_value (SFadd p em x y)
             (binary_normalize p em (scaled c x + scaled c y) c false).
Proof.
  intros Vx Vy Fx Fy Bx By.
  destruct x as [sx| | |sx mx ex]; try discriminate;
    destruct y as [sy| | |sy my ey]; try discriminate;
    cbn [scaled below_exponent] in *.
  - right. cbn [SFadd Z.add binary_normalize].
    destruct sx, sy; eexists; eexists; split; reflexivity.
  - cbn [SFadd]. rewrite Z.add_0_l.
    apply (self_scaled (S754_finite sy my ey) c Vy eq_refl By).
  - cbn [SFadd]. rewrite Z.add_0_r.
    apply (self_scaled (S754_finite sx mx ex) c Vx eq_refl Bx).
  - left. cbn [SFadd].
    rewrite <- (binary_normalize_rescale p em Hp _ (Z.min ex ey)
                  (Z.min ex ey - c)) by lia.
    f_equal; [|lia]. rewrite Z.mul_add_distr_r.
    rewrite !aligned_scaled by lia. reflexivity.
Qed.

Lemma SFsub_valid (x y : spec_float) :
  valid_binary p em x = true -> valid_binary p em y = true ->
  valid_binary p em (SFsub p em x y) = true.
Proof.
  intros Vx Vy.
  destruct x as [sx|sx| |sx mx ex], y as [sy|sy| |sy my ey];
    try destruct sx; try destruct sy; try reflexivity; try assumption;
    apply binary_normalize_valid; exact Hp.
Qed.

Lemma SFadd_valid (x y : spec_float) :
  valid_binary p em x = true -> valid_binary p em y = true ->
  valid_binary p em (SFadd p em x y) = true.
Proof.
  intros Vx Vy.
  destruct x as [sx|sx| |sx mx ex], y as [sy|sy| |sy my ey];
    try destruct sx; try destruct sy; try reflexivity; try assumption;
    apply binary_normalize_valid; exact Hp.
Qed.

(** Subtraction is monotone in its first operand. *)
Lemma SFsub_mono (x hi lo : spec_float) :
  valid_binary p em x = true -> valid_binary p em hi = true ->
  valid_binary p em lo = true ->
  isfinite x = true -> isfinite hi = true -> isfinite lo = true ->
  SFleb lo x = true -> SFleb x hi = true ->
  SFleb (SFsub p em x lo) (SFsub p em hi lo) = true.
Proof.
  intros Vx Vh Vl Fx Fh Fl Hlo Hhi.
  destruct (exists_below x hi lo) as (c & Bx & Bh & Bl).
  rewrite (SFleb_same_value _ _ _ _
             (SFsub_scaled x lo c Vx Vl Fx Fl Bx Bl)
             (SFsub_scaled hi lo c Vh Vl Fh Fl Bh Bl)).
  assert (H1 := SFleb_scaled lo x c Vl Vx Fl Fx Bl Bx Hlo).
  assert (H2 := SFleb_scaled x hi c Vx Vh Fx Fh Bx Bh Hhi).
  apply (binary_normalize_mono p em Hp) with (c := c);
    rewrite ?Z.sub_diag, ?Z.pow_0_r; lia.
Qed.

(** Taking away a value that is not negative does not give more. *)
Lemma SFsub_le_left (x y : spec_float) :
  valid_binary p em x = true -> valid_binary p em y = true ->
  isfinite x = true -> isfinite y = true ->
  SFleb (S754_zero false) y = true -> SFleb y x = true ->
  SFleb (SFsub p em x y) x = true.
Proof.
  intros Vx Vy Fx Fy H0 Hle.
  destruct (exists_below x y x) as (c & Bx & By & _).
  rewrite (SFleb_same_value _ _ _ _
             (SFsub_scaled x y c Vx Vy Fx Fy Bx By)
             (self_scaled x c Vx Fx Bx)).
  assert (H1 := SFleb_scaled (S754_zero false) y c eq_refl Vy eq_refl Fy I By
                  H0).
  assert (H2 := SFleb_scaled y x c Vy Vx Fy Fx By Bx Hle).
  cbn [scaled] in H1.
  apply (binary_normalize_mono p em Hp) with (c := c);
    rewrite ?Z.sub_diag, ?Z.pow_0_r; lia.
Qed.

(** Adding a value that is not negative does not give less. *)
Lemma SFadd_ge_left (x y : spec_float) :
  valid_binary p em x = true -> valid_binary p em y = true ->
  SFleb (S754_zero false) x = true -> SFleb (S754_zero false) y = true ->
  SFleb x (SFadd p em x y) = true.
Proof.
  intros Vx Vy Hx Hy.
  destruct (isfinite x) eqn:Fx.
  2:{ destruct x as [|[]| |]; try discriminate.
      destruct y as [|[]| |[] my ey]; try discriminate; reflexivity. }
  destruct (isfinite y) eqn:Fy.
  2:{ destruct y as [|[]| |]; try discriminate.
      destruct x as [|[]| |[] mx ex]; try discriminate; reflexivity. }
  destruct (exists_below x y x) as (c & Bx & By & _).
  rewrite (SFleb_same_value _ _ _ _
             (self_scaled x c Vx Fx Bx)
             (SFadd_scaled x y c Vx Vy Fx Fy Bx By)).
  assert (H1 := SFleb_scaled (S754_zero false) x c eq_refl Vx eq_refl Fx I Bx
                  Hx).
  assert (H2 := SFleb_scaled (S754_zero false) y c eq_refl Vy eq_refl Fy I By
                  Hy).
  cbn [scaled] in H1, H2.
  apply (binary_normalize_mono p em Hp) with (c := c);
    rewrite ?Z.sub_diag, ?Z.pow_0_r; lia.
Qed.

End Scaled.

Lemma SFleb_finite (x r : spec_float) :
  SFleb (S754_zero false) x = true -> SFleb x r = true ->
  isfinite r = true -> isfinite x = true.
Proof.
  destruct x as [sx|[]| |sx mx ex]; try discriminate; try reflexivity.
  destruct r as [sr|[]| |[] mr er]; discriminate.
Qed.

Section Quotients.

Variables p em : Z.
Hypothesis Hp : 0 < p.
Hypothesis Hemin : emin p em <= 0.

(** The integer division behind [SFdiv]. *)
Lemma SFdiv_core_binary_spec (m1 : positive) (e1 : Z) (m2 : positive)
    (e2 : Z) :
  exists q e' l s r,
    SFdiv_core_binary p em (Zpos m1) e1 (Zpos m2) e2 = (q, e', l) /\
    0 <= s /\ e' = e1 - e2 - s /\
    Zpos m1 * 2 ^ s = q * Zpos m2 + r /\ 0 <= r < Zpos m2 /\ 0 <= q /\
    (l <> loc_Exact -> 0 < r) /\
    e' <= fexp p em (Zdigits2 q + e').
Proof.
  unfold SFdiv_core_binary.
  set (d1 := Zdigits2 (Zpos m1)). set (d2 := Zdigits2 (Zpos m2)).
  set (e' := Z.min (fexp p em (d1 + e1 - (d2 + e2))) (e1 - e2)).
  set (s := e1 - e2 - e').
  assert (Hs : 0 <= s) by (unfold s, e'; lia).
  assert (Ps := pow2_pos s Hs).
  set (m' := match s with
             | Zpos _ => Z.shiftl (Zpos m1) s
             | Z0 => Zpos m1
             | Zneg _ => 0
             end).
  assert (Hshift : forall s0, 0 <= s0 ->
            match s0 with
            | Zpos _ => Z.shiftl (Zpos m1) s0
            | Z0 => Zpos m1
            | Zneg _ => 0
            end = Zpos m1 * 2 ^ s0).
  { intros [|k|k] Hk; try lia.
    apply Z.shiftl_mul_pow2. lia. }
  assert (Hm' : m' = Zpos m1 * 2 ^ s) by (apply Hshift; exact Hs).
  assert (Hdiv := Z_div_mod m' (Zpos m2) ltac:(lia)).
  destruct (Z.div_eucl m' (Zpos m2)) as [q r].
  destruct Hdiv as [Hqr Hr].
  assert (Hq : 0 <= q) by nia.
  exists q, e', (new_location (Zpos m2) r), s, r.
  split; [reflexivity|]. split; [exact Hs|]. split; [unfold s; lia|].
  split; [lia|]. split; [exact Hr|]. split; [exact Hq|]. split.
  - intro Hl. destruct (Z.eq_dec r 0) as [-> | N]; [|lia].
    exfalso. apply Hl. unfold new_location, new_location_even,
      new_location_odd. destruct (Z.even (Zpos m2)); reflexivity.
  - assert (B1 := Zdigits2_bounds (Zpos m1) ltac:(lia)).
    assert (U2 := Zdigits2_upper (Zpos m2) ltac:(lia)).
    assert (B2 := Zdigits2_bounds (Zpos m2) ltac:(lia)).
    fold d1 in B1. fold d2 in U2, B2.
    destruct (Z.eq_dec q 0) as [-> | Hq0].
    + (* the quotient is below 1 *)
      cbn [Zdigits2]. rewrite Z.add_0_l.
      destruct (Z.le_gt_cases e' (emin p em)) as [H | H];
        [unfold fexp; lia|].
      exfalso.
      assert (He' : e' <= d1 + e1 - (d2 + e2) - p)
        by (unfold e', fexp in *; lia).
      assert (Hsge : p + d2 - d1 <= s) by (unfold s; lia).
      assert (H1 : 2 ^ (d1 - 1) * 2 ^ s <= Zpos m1 * 2 ^ s) by nia.
      rewrite <- Z.pow_add_r in H1 by lia.
      assert (H2 : 2 ^ d2 <= 2 ^ (d1 - 1 + s))
        by (apply Z.pow_le_mono_r; lia).
      lia.
    + assert (Hdq : d1 + s - d2 <= Zdigits2 q).
      { destruct (Zdigits2_bounds q ltac:(lia)) as [Hd1 _].
        destruct (Z.le_gt_cases (d1 + s - d2) 0) as [H | H]; [lia|].
        assert (Hlow : 2 ^ (d1 - 1 + s - d2) <= q).
        { assert (H1 : 2 ^ (d1 - 1) * 2 ^ s <= Zpos m1 * 2 ^ s) by nia.
          rewrite <- Z.pow_add_r in H1 by lia.
          assert (H2 : 2 ^ (d1 - 1 + s) = 2 ^ (d1 - 1 + s - d2) * 2 ^ d2).
          { rewrite <- Z.pow_add_r by lia. f_equal. lia. }
          assert (P3 := pow2_pos (d1 - 1 + s - d2) ltac:(lia)).
          destruct (Z.le_gt_cases (2 ^ (d1 - 1 + s - d2)) q) as [G | G];
            [exact G|]. exfalso. nia. }
        assert (Hdig := Zdigits2_le (2 ^ (d1 - 1 + s - d2)) q
                          ltac:(split; [apply Z.pow_nonneg; lia | exact Hlow])).
        rewrite (Zdigits2_unique (2 ^ (d1 - 1 + s - d2)) (d1 + s - d2))
          in Hdig; [exact Hdig | apply pow2_pos; lia |].
        replace (d1 + s - d2 - 1) with (d1 - 1 + s - d2) by lia.
        split; [lia|]. apply Z.pow_lt_mono_r; lia. }
      apply Z.le_trans with (fexp p em (d1 + e1 - (d2 + e2)));
        [unfold e'; lia|].
      apply fexp_mono. unfold s in Hdq. lia.
Qed.

Lemma SFdiv_valid (x y : spec_float) :
  valid_binary p em (SFdiv p em x y) = true.
Proof.
  destruct x as [sx|sx| |sx mx ex], y as [sy|sy| |sy my ey];
    try reflexivity.
  cbn [SFdiv].
  destruct (SFdiv_core_binary_spec mx ex my ey)
    as (q & e' & l & s & r & -> & Hs & He' & Hqr & Hr & Hq & Hl & Hpre).
  destruct (binary_round_aux_pack p em Hp (xorb sx sy) q e' l Hq Hpre)
    as (m2 & -> & _ & _ & Hfmt).
  apply pack_valid; assumption.
Qed.

(** A quotient of positive values is bounded by a value [r] of the format
    when the numerator is at most [r] times the denominator. *)
Lemma SFdiv_le (mn : positive) (en : Z) (md : positive) (ed : Z)
    (mr : positive) (er a : Z) :
  bounded p em mr er = true ->
  a <= en -> a <= er + ed ->
  Zpos mn * 2 ^ (en - a) <= Zpos mr * Zpos md * 2 ^ (er + ed - a) ->
  SFleb (SFdiv p em (S754_finite false mn en) (S754_finite false md ed))
        (S754_finite false mr er) = true.
Proof.
  intros Hr Ha1 Ha2 Hle. cbn [SFdiv xorb].
  destruct (SFdiv_core_binary_spec mn en md ed)
    as (q & e' & l & s & r & -> & Hs & He' & Hqr & Hrr & Hq & Hl & Hpre).
  set (c := Z.min e' (Z.min er (a - ed))).
  assert (Hg : Zpos mn * 2 ^ (en - ed - c)
               <= Zpos mr * Zpos md * 2 ^ (er - c)).
  { assert (Pj := pow2_pos (a - ed - c) ltac:(unfold c; lia)).
    replace (en - ed - c) with ((en - a) + (a - ed - c)) by lia.
    replace (er - c) with ((er + ed - a) + (a - ed - c)) by lia.
    rewrite !Z.pow_add_r by (unfold c; lia). nia. }
  assert (Hsplit : 2 ^ (en - ed - c) = 2 ^ s * 2 ^ (e' - c)).
  { rewrite <- Z.pow_add_r by (unfold c; lia). f_equal. lia. }
  assert (Ps := pow2_pos s Hs).
  assert (Pe := pow2_pos (e' - c) ltac:(unfold c; lia)).
  assert (Pr := pow2_pos (er - c) ltac:(unfold c; lia)).
  rewrite Hsplit in Hg.
  assert (Hmul : q * Zpos md * 2 ^ (e' - c)
                 <= Zpos mr * Zpos md * 2 ^ (er - c)).
  { apply Z.le_trans with (Zpos mn * (2 ^ s * 2 ^ (e' - c))); [|exact Hg].
    rewrite Z.mul_assoc. apply Z.mul_le_mono_nonneg_r; lia. }
  apply (binary_round_aux_le p em Hp q e' l mr er c Hq Hpre Hr);
    try (unfold c; lia).
  - nia.
  - intro Hne. specialize (Hl Hne).
    assert (Hstrict : q * Zpos md * 2 ^ (e' - c)
                      < Zpos mr * Zpos md * 2 ^ (er - c)).
    { apply Z.lt_le_trans with (Zpos mn * (2 ^ s * 2 ^ (e' - c)));
        [|exact Hg].
      rewrite Z.mul_assoc. apply Z.mul_lt_mono_pos_r; lia. }
    nia.
Qed.

(** *** Products *)

Lemma product_exponent (mx : positive) (ex : Z) (my : positive) (ey : Z) :
  canonical_mantissa p em mx ex = true ->
  canonical_mantissa p em my ey = true ->
  ex + ey <= fexp p em (Zdigits2 (Zpos (mx * my)) + (ex + ey)).
Proof.
  intros Cx Cy.
  destruct (canonical_digits p em mx ex Cx) as (Hdx & Hex & Hnx).
  destruct (canonical_digits p em my ey Cy) as (Hdy & Hey & Hny).
  assert (Bx := digits2_pos_bounds mx). assert (By := digits2_pos_bounds my).
  set (dx := Zpos (digits2_pos mx)) in *.
  set (dy := Zpos (digits2_pos my)) in *.
  assert (Hdx1 : 1 <= dx) by (unfold dx; lia).
  assert (Hdy1 : 1 <= dy) by (unfold dy; lia).
  assert (Hprod : 2 ^ (dx + dy - 2) <= Zpos (mx * my)).
  { replace (dx + dy - 2) with ((dx - 1) + (dy - 1)) by lia.
    rewrite Z.pow_add_r by lia. rewrite Pos2Z.inj_mul.
    apply Z.mul_le_mono_nonneg; try lia; apply Z.pow_nonneg; lia. }
  assert (Hdig : dx + dy - 1 <= Zdigits2 (Zpos (mx * my))).
  { assert (H := Zdigits2_le (2 ^ (dx + dy - 2)) (Zpos (mx * my))
                   ltac:(split; [apply Z.pow_nonneg; lia | exact Hprod])).
    rewrite (Zdigits2_unique (2 ^ (dx + dy - 2)) (dx + dy - 1)) in H;
      [exact H | apply pow2_pos; lia |].
    replace (dx + dy - 1 - 1) with (dx + dy - 2) by lia.
    split; [lia|]. apply Z.pow_lt_mono_r; lia. }
  unfold fexp.
  destruct (Z.eq_dec ex (emin p em)) as [Ex | Nx];
    destruct (Z.eq_dec ey (emin p em)) as [Ey | Ny]; lia.
Qed.

Lemma SFmul_valid (x y : spec_float) :
  valid_binary p em x = true -> valid_binary p em y = true ->
  valid_binary p em (SFmul p em x y) = true.
Proof.
  intros Vx Vy.
  destruct x as [sx|sx| |sx mx ex], y as [sy|sy| |sy my ey];
    try reflexivity.
  cbn [SFmul].
  destruct (valid_canonical p em sx mx ex Vx) as [Cx _].
  destruct (valid_canonical p em sy my ey Vy) as [Cy _].
  destruct (binary_round_aux_pack p em Hp (xorb sx sy) (Zpos (mx * my))
              (ex + ey) loc_Exact ltac:(lia)
              (product_exponent mx ex my ey Cx Cy))
    as (m2 & -> & _ & _ & Hfmt).
  apply pack_valid; assumption.
Qed.

(** A product of positive values of the format is bounded by a value [r]
    of the format that the exact product does not exceed. *)
Lemma SFmul_le (mx : positive) (ex : Z) (my : positive) (ey : Z)
    (mr : positive) (er c : Z) :
  canonical_mantissa p em mx ex = true ->
  canonical_mantissa p em my ey = true ->
  bounded p em mr er = true ->
  c <= ex + ey -> c <= er ->
  Zpos mx * Zpos my * 2 ^ (ex + ey - c) <= Zpos mr * 2 ^ (er - c) ->
  SFleb (SFmul p em (S754_finite false mx ex) (S754_finite false my ey))
        (S754_finite false mr er) = true.
Proof.
  intros Cx Cy Hr Hc1 Hc2 Hle. cbn [SFmul xorb].
  apply (binary_round_aux_le p em Hp (Zpos (mx * my)) (ex + ey) loc_Exact
           mr er c); try assumption; try lia.
  - apply product_exponent; assumption.
  - intro H. congruence.
Qed.

(** *** Quotients and products against 1 *)

Section One.

(** The float 1 of the format. *)
Variable mo : positive.
Variable eo : Z.
Hypothesis Hone : bounded p em mo eo = true.
Hypothesis Heo : eo <= 0.
Hypothesis Hmo : Zpos mo = 2 ^ (- eo).

Lemma scaled_one (c : Z) :
  c <= eo -> Zpos mo * 2 ^ (eo - c) = 2 ^ (- c).
Proof.
  intro H. rewrite Hmo, <- Z.pow_add_r by lia. f_equal. lia.
Qed.

(** A positive value divided by one that is not smaller gives at most 1. *)
Lemma SFdiv_le_one (mn : positive) (en : Z) (md : positive) (ed : Z) :
  valid_binary p em (S754_finite false mn en) = true ->
  valid_binary p em (S754_finite false md ed) = true ->
  SFleb (S754_finite false mn en) (S754_finite false md ed) = true ->
  SFleb (SFdiv p em (S754_finite false mn en) (S754_finite false md ed))
        (S754_finite false mo eo) = true.
Proof.
  intros Vn Vd Hle.
  set (a := Z.min en (eo + ed)).
  assert (H := SFleb_scaled p em Hp _ _ a Vn Vd eq_refl eq_refl
                 ltac:(cbn; unfold a; lia) ltac:(cbn; unfold a; lia) Hle).
  cbn [scaled cond_Zopp] in H.
  apply SFdiv_le with (a := a); try assumption; try (unfold a; lia).
  replace (Zpos mo * Zpos md * 2 ^ (eo + ed - a))
    with (Zpos md * 2 ^ (ed - a)); [exact H|].
  rewrite Hmo, (Z.mul_comm (2 ^ (- eo))), <- Z.mul_assoc.
  rewrite <- Z.pow_add_r by (unfold a; lia). do 2 f_equal. lia.
Qed.

(** A positive value divided by a value that is at least 1 does not
    grow. *)
Lemma SFdiv_le_num (mn : positive) (en : Z) (md : positive) (ed : Z) :
  valid_binary p em (S754_finite false mn en) = true ->
  valid_binary p em (S754_finite false md ed) = true ->
  SFleb (S754_finite false mo eo) (S754_finite false md ed) = true ->
  SFleb (SFdiv p em (S754_finite false mn en) (S754_finite false md ed))
        (S754_finite false mn en) = true.
Proof.
  intros Vn Vd Hle.
  set (c := Z.min eo ed).
  assert (H := SFleb_scaled p em Hp (S754_finite false mo eo)
                 (S754_finite false md ed) c Hone Vd eq_refl eq_refl
                 ltac:(cbn; unfold c; lia) ltac:(cbn; unfold c; lia) Hle).
  cbn [scaled cond_Zopp] in H. rewrite scaled_one in H by (unfold c; lia).
  set (a := Z.min en (en + ed)).
  apply SFdiv_le with (a := a); try (unfold a; lia).
  { cbn [valid_binary] in Vn. exact Vn. }
  rewrite <- Z.mul_assoc.
  apply Z.mul_le_mono_nonneg_l; [lia|].
  destruct (Z.le_gt_cases 0 ed) as [Hed | Hed].
  - unfold a. rewrite Z.min_l by lia.
    replace (en + ed - en) with ed by lia.
    rewrite Z.sub_diag, Z.pow_0_r.
    assert (P := pow2_pos ed Hed). nia.
  - unfold a. rewrite Z.min_r by lia.
    replace (en + ed - (en + ed)) with 0 by lia. rewrite Z.pow_0_r.
    replace (en - (en + ed)) with (- ed) by lia.
    assert (Hs : 2 ^ (- c) = 2 ^ (- ed) * 2 ^ (ed - c)).
    { rewrite <- Z.pow_add_r by (unfold c; lia). f_equal. lia. }
    assert (P := pow2_pos (ed - c) ltac:(unfold c; lia)).
    rewrite Hs in H. nia.
Qed.

(** The square of a positive value that is at most 1 does not exceed the
    value. *)
Lemma SFmul_square_le_self (mt : positive) (et : Z) :
  valid_binary p em (S754_finite false mt et) = true ->
  SFleb (S754_finite false mt et) (S754_finite false mo eo) = true ->
  SFleb (SFmul p em (S754_finite false mt et) (S754_finite false mt et))
        (S754_finite false mt et) = true.
Proof.
  intros Vt Hle.
  destruct (valid_canonical p em false mt et Vt) as [Ct Bt].
  set (c := Z.min et eo).
  assert (H := SFleb_scaled p em Hp (S754_finite false mt et)
                 (S754_finite false mo eo) c Vt Hone eq_refl eq_refl
                 ltac:(cbn; unfold c; lia) ltac:(cbn; unfold c; lia) Hle).
  cbn [scaled cond_Zopp] in H. rewrite scaled_one in H by (unfold c; lia).
  assert (Het : et <= 0).
  { destruct (Z.le_gt_cases et 0) as [G | G]; [exact G|]. exfalso.
    assert (2 ^ (- c) < 2 ^ (et - c)) by (apply Z.pow_lt_mono_r; unfold c; lia).
    assert (P := pow2_pos (et - c) ltac:(unfold c; lia)). nia. }
  assert (Hmt : Zpos mt <= 2 ^ (- et)).
  { assert (Hs : 2 ^ (- c) = 2 ^ (- et) * 2 ^ (et - c)).
    { rewrite <- Z.pow_add_r by (unfold c; lia). f_equal. lia. }
    assert (P := pow2_pos (et - c) ltac:(unfold c; lia)).
    rewrite Hs in H. nia. }
  apply SFmul_le with (c := et + et); try assumption; try lia.
  rewrite Z.sub_diag, Z.pow_0_r, Z.mul_1_r.
  replace (et - (et + et)) with (- et) by lia.
  apply Z.mul_le_mono_nonneg_l; lia.
Qed.

(** Multiplying by 1 does not give more. *)
Lemma SFmul_one_le (mz : positive) (ez : Z) :
  valid_binary p em (S754_finite false mz ez) = true ->
  SFleb (SFmul p em (S754_finite false mz ez) (S754_finite false mo eo))
        (S754_finite false mz ez) = true.
Proof.
  intro Vz.
  destruct (valid_canonical p em false mz ez Vz) as [Cz Bz].
  assert (Co : canonical_mantissa p em mo eo = true).
  { unfold bounded in Hone. apply andb_true_iff in Hone. tauto. }
  apply SFmul_le with (c := ez + eo); try assumption; try lia.
  rewrite Z.sub_diag, Z.pow_0_r, Z.mul_1_r.
  replace (ez - (ez + eo)) with (- eo) by lia. rewrite Hmo. lia.
Qed.

End One.

(** The square of a positive value bounded by [B] is bounded by any value of
    the format that is [B] squared. *)
Lemma SFmul_square_le_bound (mt : positive) (et : Z) (mb : positive)
    (eb : Z) (mb2 : positive) (eb2 j : Z) :
  valid_binary p em (S754_finite false mt et) = true ->
  valid_binary p em (S754_finite false mb eb) = true ->
  bounded p em mb2 eb2 = true ->
  0 <= j -> eb2 = eb + eb + j -> Zpos mb * Zpos mb = Zpos mb2 * 2 ^ j ->
  SFleb (S754_finite false mt et) (S754_finite false mb eb) = true ->
  SFleb (SFmul p em (S754_finite false mt et) (S754_finite false mt et))
        (S754_finite false mb2 eb2) = true.
Proof.
  intros Vt Vb Hb2 Hj He Hm Hle.
  destruct (valid_canonical p em false mt et Vt) as [Ct Bt].
  set (c := Z.min et eb).
  assert (H := SFleb_scaled p em Hp _ _ c Vt Vb eq_refl eq_refl
                 ltac:(cbn; unfold c; lia) ltac:(cbn; unfold c; lia) Hle).
  cbn [scaled cond_Zopp] in H.
  assert (Pt := pow2_pos (et - c) ltac:(unfold c; lia)).
  assert (Pb := pow2_pos (eb - c) ltac:(unfold c; lia)).
  apply SFmul_le with (c := c + c); try assumption; try (unfold c; lia).
  replace (et + et - (c + c)) with ((et - c) + (et - c)) by lia.
  replace (eb2 - (c + c)) with (j + ((eb - c) + (eb - c))) by lia.
  rewrite !Z.pow_add_r by (unfold c; lia).
  rewrite (Z.mul_assoc (Zpos mb2)), <- Hm.
  set (u := Zpos mt * 2 ^ (et - c)) in *.
  set (v := Zpos mb * 2 ^ (eb - c)) in *.
  replace (Zpos mt * Zpos mt * (2 ^ (et - c) * 2 ^ (et - c))) with (u * u)
    by (unfold u; ring).
  replace (Zpos mb * Zpos mb * (2 ^ (eb - c) * 2 ^ (eb - c))) with (v * v)
    by (unfold v; ring).
  assert (0 < u) by (unfold u; lia).
  nia.
Qed.

End Quotients.

Lemma dtype_emin (d : dtype) : emin (prec d) (emax d) <= 0.
Proof. destruct d; vm_compute; discriminate. Qed.

Lemma one_spec (d : dtype) :
  exists mo eo,
    of_int d 1 = S754_finite false mo eo /\
    bounded (prec d) (emax d) mo eo = true /\
    eo <= 0 /\ Zpos mo = 2 ^ (- eo).
Proof.
  destruct d.
  - exists 8388608%positive, (-23).
    repeat split; first [reflexivity | lia].
  - exists 4503599627370496%positive, (-52).
    repeat split; first [reflexivity | lia].
Qed.

Lemma of_int_valid (d : dtype) (z : Z) : valid d (of_int d z) = true.
Proof. apply binary_normalize_valid, prec_positive. Qed.

Lemma of_ratio_valid (d : dtype) (a b : Z) : valid d (of_ratio d a b) = true.
Proof. apply SFdiv_valid, prec_positive. Qed.

Lemma eps_valid (d : dtype) : valid d (eps d) = true.
Proof. apply of_ratio_valid. Qed.

Lemma eps_nonneg (d : dtype) : fle fzero (eps d) = true.
Proof. destruct d; reflexivity. Qed.

Lemma flt_fle (a b : spec_float) : flt a b = true -> fle a b = true.
Proof.
  unfold flt, fle, SFltb, SFleb. destruct (SFcompare a b) as [[]|];
    congruence.
Qed.

Lemma not_below_zero_nonneg (x : spec_float) :
  not_below_zero x = true -> isnan x = false -> fle fzero x = true.
Proof. destruct x as [[]|[]| |[] m e]; cbv; congruence. Qed.

Lemma nonneg_cases (x : spec_float) :
  fle fzero x = true ->
  (exists s, x = S754_zero s) \/ x = pinf \/
  exists m e, x = S754_finite false m e.
Proof.
  destruct x as [s|[]| |[] m e]; try discriminate; intros _; eauto.
Qed.

Lemma positive_cases (x : spec_float) :
  strictly_positive x = true ->
  x = pinf \/ exists m e, x = S754_finite false m e.
Proof.
  destruct x as [s|[]| |[] m e]; try discriminate; intros _; eauto.
Qed.

Lemma fle_zero_positive (s : bool) (m : positive) (e : Z) :
  fle (S754_zero s) (S754_finite false m e) = true.
Proof. reflexivity. Qed.

(** *** Quotients of values of a dtype *)

(** A value that is not negative divided by a positive value that is not
    smaller gives at most 1, or NaN as [inf / inf]. *)
Lemma fdiv_le_one (d : dtype) (n den : spec_float) :
  valid d n = true -> valid d den = true ->
  fle fzero n = true -> strictly_positive den = true ->
  fle n den = true ->
  isnan (fdiv d n den) = true \/ fle (fdiv d n den) (of_int d 1) = true.
Proof.
  intros Vn Vd Hn Hd Hle.
  destruct (one_spec d) as (mo & eo & Eone & Hb & Heo & Hmo).
  rewrite Eone.
  destruct (positive_cases den Hd) as [-> | (md & ed & ->)];
    destruct (nonneg_cases n Hn) as [[s ->] | [-> | (mn & en & ->)]];
    try discriminate; try (left; reflexivity); try (right; reflexivity).
  right. unfold fle, fdiv.
  apply (SFdiv_le_one (prec d) (emax d) (prec_positive d)
           mo eo Hb Heo Hmo); assumption.
Qed.


End RoundedOperations.


(** ** compute_runoff *)

Lemma sign_clear_not_below_zero (x : spec_float) :
  sign_clear x = true -> not_below_zero x = true.
Proof. destruct x as [[]|[]| |[] m e]; simpl; congruence. Qed.

Lemma maximum_zero_not_below_zero (x : spec_float) :
  not_below_zero (maximum x fzero) = true.
Proof. destruct x as [[]|[]| |[] m e]; reflexivity. Qed.

Lemma SFmul_not_below_zero (p e : Z) (c x : spec_float) :
  sign_clear c = true -> isfinite c = true ->
  not_below_zero x = true -> not_below_zero (SFmul p e c x) = true.
Proof.
  destruct c as [[]|[]| |[] mc ec], x as [[]|[]| |[] mx ex];
    simpl; intros Hc Hf Hx; try discriminate; try reflexivity.
  apply sign_clear_not_below_zero, binary_round_aux_sign_clear.
Qed.

Lemma above_not_below_zero (t x : spec_float) :
  not_below_zero t = true -> SFltb t x = true -> strictly_positive x = true.
Proof.
  destruct t as [[]|[]| |[] mt et], x as [[]|[]| |[] mx ex];
    simpl; intros Ht Hlt; try discriminate; reflexivity.
Qed.

Lemma literal_sign_clear (d : dtype) :
  (sign_clear (of_ratio d 1 5) = true /\ isfinite (of_ratio d 1 5) = true) /\
  (sign_clear (of_ratio d 4 5) = true /\ isfinite (of_ratio d 4 5) = true) /\
  (sign_clear (eps d) = true /\ isfinite (eps d) = true).
Proof. destruct d; vm_compute; repeat split. Qed.

Lemma runoff_cell_mask_zero (d : dtype) (p cn : spec_float) :
  runoff_cell d p cn 0 = fzero.
Proof.
  unfold runoff_cell. cbv zeta.
  change ((0 =? 1)%Z) with false. rewrite andb_false_r. reflexivity.
Qed.

Lemma broadcast_dim_refl (a : nat) : broadcast_dim a a = Ok a.
Proof. unfold broadcast_dim. rewrite Nat.eqb_refl. reflexivity. Qed.

Lemma broadcast_shape_refl (s : nat * nat) : broadcast_shape s s = Ok s.
Proof.
  destruct s as [r c]. unfold broadcast_shape. simpl.
  rewrite !broadcast_dim_refl. reflexivity.
Qed.

Lemma shape_eqb_eq (s t : nat * nat) : shape_eqb s t = true <-> s = t.
Proof.
  destruct s as [a b], t as [a' b']. unfold shape_eqb. simpl.
  rewrite andb_true_iff, !Nat.eqb_eq. split.
  - intros [-> ->]. reflexivity.
  - intro H. inversion H. auto.
Qed.

Lemma compute_runoff_inv (d : dtype) (P C : ndarray spec_float)
    (M : ndarray Z) (out : ndarray spec_float) :
  compute_runoff d P C M = Ok out ->
  exists s,
    broadcast_shape (shape C) (shape M) = Ok s /\
    broadcast_shape (shape M) (shape P) = Ok s /\
    out = tabulate (fst s) (snd s)
            (fun r c => runoff_cell d (bget S754_nan P r c)
                                      (bget S754_nan C r c)
                                      (bget 0%Z M r c)).
Proof.
  unfold compute_runoff. intro H.
  destruct (broadcast_shape (shape C) (shape M)) as [s_cn|] eqn:E1;
    [|discriminate].
  destruct (broadcast_shape (shape M) (shape P)) as [s_p|] eqn:E2;
    [|discriminate].
  simpl in H.
  destruct (broadcast_shape s_p s_cn) as [s_valid|] eqn:E3; [|discriminate].
  simpl in H.
  destruct (shape_eqb s_valid s_p && shape_eqb s_valid s_cn) eqn:E4;
    [|discriminate].
  apply andb_true_iff in E4. destruct E4 as [E4 E5].
  apply shape_eqb_eq in E4. apply shape_eqb_eq in E5. subst s_p.
  subst s_cn. exists s_valid. repeat split. congruence.
Qed.

Lemma compute_runoff_cell (d : dtype) (P C : ndarray spec_float)
    (M : ndarray Z) (out : ndarray spec_float) (r c : nat) (x : spec_float) :
  compute_runoff d P C M = Ok out -> get out r c = Ok x ->
  x = runoff_cell d (bget S754_nan P r c) (bget S754_nan C r c)
                  (bget 0%Z M r c).
Proof.
  intros H Hx. apply compute_runoff_inv in H.
  destruct H as [s [_ [_ ->]]].
  destruct (get_in_range _ _ _ _ (wf_tabulate _ _ _) Hx) as [Hr Hc]. simpl in Hr, Hc.
  rewrite get_tabulate in Hx by assumption. congruence.
Qed.

Lemma bget_of_get {A} (dflt : A) (g : ndarray A) (r c : nat) (x : A) :
  wf g -> get g r c = Ok x -> bget dflt g r c = x.
Proof.
  intros Hwf H. destruct (get_in_range g r c x Hwf H) as [Hr Hc].
  unfold bget.
  replace (if nrows g =? 1 then 0 else r) with r
    by (destruct (Nat.eqb_spec (nrows g) 1); lia).
  replace (if ncols g =? 1 then 0 else c) with c
    by (destruct (Nat.eqb_spec (ncols g) 1); lia).
  unfold get in H.
  destruct (nth_error (rows_of g) r) as [row|] eqn:Er; [|discriminate].
  destruct (nth_error row c) as [y|] eqn:Ec; [|discriminate].
  rewrite (nth_error_nth _ _ _ Er). rewrite (nth_error_nth _ _ _ Ec).
  congruence.
Qed.

Lemma bget_zero_one (M : ndarray Z) (r c : nat) :
  Forall (Forall (fun m => m = 0 \/ m = 1)%Z) (rows_of M) ->
  (bget 0 M r c = 0 \/ bget 0 M r c = 1)%Z.
Proof.
  intro H. unfold bget.
  set (r' := if nrows M =? 1 then 0 else r).
  set (c' := if ncols M =? 1 then 0 else c).
  assert (Hrow : Forall (fun m => m = 0 \/ m = 1)%Z (nth r' (rows_of M) [])).
  { destruct (nth_in_or_default r' (rows_of M) []) as [Hin | ->].
    - rewrite Forall_forall in H. apply H. exact Hin.
    - constructor. }
  destruct (nth_in_or_default c' (nth r' (rows_of M) []) 0%Z) as [Hin | ->].
  - rewrite Forall_forall in Hrow. apply Hrow. exact Hin.
  - left. reflexivity.
Qed.

(** *** C4 *)

(** C4. Wherever [compute_runoff] returns a grid, the cell of that grid
    whose mask value is 0 holds exactly [+0.0].  [bget 0 mask r c] is the
    mask value numpy pairs with cell [(r, c)]: [mask[r, c]] itself, or the
    repeated row or column when the mask is broadcast. *)
Theorem compute_runoff_zero_where_mask_zero (d : dtype)
    (precipitation cn_map : ndarray spec_float) (mask : ndarray Z)
    (out : ndarray spec_float) (r c : nat) (x : spec_float) :
  compute_runoff d precipitation cn_map mask = Ok out ->
  get out r c = Ok x ->
  bget 0%Z mask r c = 0%Z ->
  x = fzero.
Proof.
  intros H Hx Hm.
  rewrite (compute_runoff_cell d _ _ _ _ _ _ _ H Hx), Hm.
  apply runoff_cell_mask_zero.
Qed.

(** The same for a mask of the grid's own shape, read with [mask[r, c]]. *)
Corollary compute_runoff_zero_on_sea (d : dtype)
    (precipitation cn_map : ndarray spec_float) (mask : ndarray Z)
    (out : ndarray spec_float) (r c : nat) (x : spec_float) :
  wf mask ->
  compute_runoff d precipitation cn_map mask = Ok out ->
  get out r c = Ok x ->
  get mask r c = Ok 0%Z ->
  x = fzero.
Proof.
  intros Hwf H Hx Hm.
  rewrite (compute_runoff_cell d _ _ _ _ _ _ _ H Hx).
  rewrite (bget_of_get 0%Z mask r c 0%Z Hwf Hm).
  apply runoff_cell_mask_zero.
Qed.

Lemma compute_runoff_zero_where_mask_zero_witness :
  compute_runoff float32 sea_example_precipitation sea_example_cn
    sea_example_mask = Ok sea_example_out /\
  get sea_example_out 0 1 = Ok (runoff_cell float32 (of_int float32 12)
                                  (of_int float32 80) 0) /\
  runoff_cell float32 (of_int float32 12) (of_int float32 80) 0 = fzero.
Proof.
  assert (H : compute_runoff float32 sea_example_precipitation
                sea_example_cn sea_example_mask = Ok sea_example_out)
    by (vm_compute; reflexivity).
  assert (Hx : get sea_example_out 0 1
               = Ok (runoff_cell float32 (of_int float32 12)
                       (of_int float32 80) 0))
    by (vm_compute; reflexivity).
  split; [exact H | split; [exact Hx|]].
  apply (compute_runoff_zero_where_mask_zero float32
           sea_example_precipitation sea_example_cn sea_example_mask
           sea_example_out 0 1 _ H Hx).
  reflexivity.
Defined.

(** *** C3 *)

Lemma literal_positive (d : dtype) :
  (strictly_positive (of_ratio d 1 5) = true /\
   isfinite (of_ratio d 1 5) = true) /\
  (strictly_positive (of_ratio d 4 5) = true /\
   isfinite (of_ratio d 4 5) = true).
Proof. destruct d; vm_compute; repeat split. Qed.

(** One land or sea cell.  The runoff is never negative, and it is a number
    as long as the squared excess does not overflow. *)
Lemma runoff_cell_not_negative (d : dtype) (p cn : spec_float) (m : Z) :
  valid d p = true -> m = 0%Z \/ m = 1%Z ->
  (isnan (runoff_cell d p cn m) = true \/
   fle fzero (runoff_cell d p cn m) = true) /\
  (isfinite (squared_excess d p cn) = true ->
   fle fzero (runoff_cell d p cn m) = true).
Proof.
  intros Vp [-> | ->].
  { rewrite runoff_cell_mask_zero. split; [right|intros _]; reflexivity. }
  unfold runoff_cell, squared_excess. cbv zeta.
  change ((1 =? 0)%Z) with false. change ((1 =? 1)%Z) with true.
  rewrite orb_false_r, andb_true_r.
  set (S := maximum _ fzero).
  assert (HS : not_below_zero S = true) by apply maximum_zero_not_below_zero.
  destruct (literal_positive d) as [[P15 F15] [P45 F45]].
  destruct (literal_sign_clear d) as [[H15 _] [[H45 _] _]].
  set (t2 := fmul d (of_ratio d 1 5) S).
  destruct (fgt p t2) eqn:Hvalid.
  2:{ split; [right|intros _]; reflexivity. }
  unfold fgt in Hvalid.
  assert (Ht2 : not_below_zero t2 = true)
    by (apply SFmul_not_below_zero; assumption).
  assert (Hp : strictly_positive p = true)
    by (apply above_not_below_zero with (t := t2); assumption).
  assert (HSn : isnan S = false).
  { apply SFmul_nan_r with (p := prec d) (em := emax d) (c := of_ratio d 1 5);
      [exact F15|]. apply (flt_not_nan t2 p Hvalid). }
  set (t := fsub d p t2).
  assert (Ht : isnan t = false) by (apply SFsub_not_nan; exact Hvalid).
  assert (Hnum : fle fzero (fmul d t t) = true)
    by (apply SFmul_square_nonneg; exact Ht).
  assert (Hden : strictly_positive
                   (fadd d (fadd d p (fmul d (of_ratio d 4 5) S)) (eps d))
                 = true).
  { apply denominator_positive, strictly_positive_nonneg.
    apply SFadd_positive; [apply prec_positive | exact Hp | exact Vp|].
    apply SFmul_nonneg; assumption. }
  destruct (fdiv_not_negative d (fmul d t t) _ Hnum Hden) as [Hq1 Hq2].
  split.
  - destruct Hq1 as [Hq1 | Hq1].
    + left. destruct (fdiv d (fmul d t t) _); try discriminate. reflexivity.
    + right. apply fmul_one_nonneg, astype_nonneg, Hq1.
  - intro Hfin. apply fmul_one_nonneg, astype_nonneg, Hq2, Hfin.
Qed.

Lemma bget_valid (d : dtype) (g : ndarray spec_float) (r c : nat) :
  dtype_grid d g -> valid d (bget S754_nan g r c) = true.
Proof.
  intro H. unfold bget.
  set (r' := if nrows g =? 1 then 0 else r).
  set (c' := if ncols g =? 1 then 0 else c).
  assert (Hrow : Forall (fun x => valid d x = true) (nth r' (rows_of g) [])).
  { destruct (nth_in_or_default r' (rows_of g) []) as [Hin | ->].
    - unfold dtype_grid in H. rewrite Forall_forall in H. apply H, Hin.
    - constructor. }
  destruct (nth_in_or_default c' (nth r' (rows_of g) []) S754_nan)
    as [Hin | ->].
  - rewrite Forall_forall in Hrow. apply Hrow, Hin.
  - reflexivity.
Qed.

(** **** Finite cells *)

Section FiniteRunoff.

Local Open Scope Z_scope.

Lemma max_binary32_spec (d : dtype) :
  exists mM eM,
    max_binary32 d = S754_finite false mM eM /\
    bounded (prec d) (emax d) mM eM = true /\
    eM <= 104 /\ Zpos mM = 16777215 * 2 ^ (104 - eM).
Proof.
  destruct d.
  - exists 16777215%positive, 104.
    repeat split; first [reflexivity | lia].
  - exists 9007198717870080%positive, 75.
    repeat split; first [reflexivity | lia].
Qed.

Lemma one_le_max_binary32 (d : dtype) :
  fle (of_int d 1) (max_binary32 d) = true.
Proof. destruct d; reflexivity. Qed.

Lemma zero_le_max_binary32 (d : dtype) (s : bool) :
  fle (S754_zero s) (max_binary32 d) = true.
Proof. destruct d; reflexivity. Qed.

(** [2^63] and its square, as values of the dtype. *)
Lemma bound_spec (d : dtype) :
  exists mb eb mb2 eb2 j,
    of_int d (2 ^ 63) = S754_finite false mb eb /\
    valid d (S754_finite false mb eb) = true /\
    bounded (prec d) (emax d) mb2 eb2 = true /\
    0 <= j /\ eb2 = eb + eb + j /\ Zpos mb * Zpos mb = Zpos mb2 * 2 ^ j /\
    fle (S754_finite false mb2 eb2) (max_binary32 d) = true.
Proof.
  destruct d.
  - exists 8388608%positive, 40, 8388608%positive, 103, 23.
    repeat split; first [reflexivity | lia].
  - exists 4503599627370496%positive, 11, 4503599627370496%positive, 74, 52.
    repeat split; first [reflexivity | lia].
Qed.

(** Stored as binary32, a value between 0 and the largest binary32 number
    stays between them. *)
Lemma astype_binary32_bounded (d : dtype) (y : spec_float) :
  valid d y = true -> fle fzero y = true ->
  fle y (max_binary32 d) = true ->
  fle fzero (astype float32 y) = true /\
  fle (astype float32 y) (SFmax_float 24 128) = true /\
  valid float32 (astype float32 y) = true.
Proof.
  intros Vy Hy Hle.
  destruct (max_binary32_spec d) as (mM & eM & EM & HbM & HeM & HmM).
  rewrite EM in Hle.
  destruct (nonneg_cases y Hy) as [[s ->] | [-> | (my & ey & ->)]].
  - repeat split.
  - discriminate.
  - cbn [astype]. split; [|split].
    + apply (binary_round_nonneg 24 128).
    + change (SFmax_float 24 128)
        with (S754_finite false 16777215 104).
      rewrite <- (binary_round_canonical 24 128 false 16777215 104 eq_refl).
      set (c := Z.min ey eM).
      assert (H := SFleb_scaled (prec d) (emax d) (prec_positive d)
                     (S754_finite false my ey) (S754_finite false mM eM) c
                     Vy HbM eq_refl eq_refl
                     ltac:(cbn; unfold c; lia) ltac:(cbn; unfold c; lia)
                     Hle).
      cbn [scaled cond_Zopp] in H.
      apply (binary_round_mono 24 128 ltac:(reflexivity)) with (c := c);
        try (unfold c; lia).
      rewrite HmM, <- Z.mul_assoc, <- Z.pow_add_r in H by (unfold c; lia).
      replace (104 - eM + (eM - c)) with (104 - c) in H by lia.
      exact H.
    + apply (binary_round_valid 24 128). reflexivity.
Qed.

(** Times the mask value 1, a binary32 value between 0 and the largest
    binary32 number is finite. *)
Lemma fmul_one_finite (z : spec_float) :
  valid float32 z = true -> fle fzero z = true ->
  fle z (SFmax_float 24 128) = true ->
  isfinite (fmul float32 z (of_int float32 1)) = true.
Proof.
  intros Vz Hz Hle.
  destruct (nonneg_cases z Hz) as [[s ->] | [-> | (mz & ez & ->)]].
  - reflexivity.
  - discriminate.
  - apply SFleb_finite with (r := SFmax_float 24 128); [| |reflexivity].
    + apply fmul_one_nonneg. exact Hz.
    + apply fle_trans with (b := S754_finite false mz ez); [|exact Hle].
      change (of_int float32 1) with (S754_finite false 8388608 (-23)).
      apply (SFmul_one_le 24 128 ltac:(reflexivity) ltac:(discriminate)
               8388608 (-23) eq_refl ltac:(lia) eq_refl mz ez Vz).
Qed.

Lemma retention_not_below_zero (d : dtype) (cn : spec_float) :
  not_below_zero (retention d cn) = true.
Proof. apply maximum_zero_not_below_zero. Qed.

Lemma maximum_valid (d : dtype) (x y : spec_float) :
  valid d x = true -> valid d y = true -> valid d (maximum x y) = true.
Proof. intros Vx Vy. unfold maximum. destruct (_ || _); assumption. Qed.

Lemma retention_valid (d : dtype) (cn : spec_float) :
  valid d (retention d cn) = true.
Proof.
  unfold retention. cbv zeta. apply maximum_valid; [|reflexivity].
  apply SFsub_valid; [apply prec_positive | | apply of_int_valid].
  apply SFdiv_valid, prec_positive.
Qed.

Lemma fmul_valid (d : dtype) (x y : spec_float) :
  valid d x = true -> valid d y = true -> valid d (fmul d x y) = true.
Proof. apply SFmul_valid; [apply prec_positive | apply dtype_emin]. Qed.

Lemma fadd_valid (d : dtype) (x y : spec_float) :
  valid d x = true -> valid d y = true -> valid d (fadd d x y) = true.
Proof. apply SFadd_valid, prec_positive. Qed.

Lemma fsub_valid (d : dtype) (x y : spec_float) :
  valid d x = true -> valid d y = true -> valid d (fsub d x y) = true.
Proof. apply SFsub_valid, prec_positive. Qed.

Lemma fsub_finite (d : dtype) (x y : spec_float) :
  isfinite (fsub d x y) = true -> isfinite x = true /\ isfinite y = true.
Proof.
  destruct x as [sx|sx| |sx mx ex], y as [sy|sy| |sy my ey];
    try destruct sx; try destruct sy; cbn; intro H;
    try discriminate; split; reflexivity.
Qed.

Lemma fmul_square_finite (d : dtype) (t : spec_float) :
  isfinite (fmul d t t) = true -> isfinite t = true.
Proof. destruct t as [s|s| |s m e]; cbn; congruence. Qed.

(** What holds at a land cell inside [valid_mask]. *)
Lemma valid_mask_facts (d : dtype) (p cn : spec_float) :
  valid d p = true -> in_valid_mask d p cn = true ->
  let t2 := fmul d (of_ratio d 1 5) (retention d cn) in
  strictly_positive p = true /\
  valid d t2 = true /\ fle fzero t2 = true /\ fle t2 p = true /\
  valid d (runoff_denominator d p cn) = true /\
  strictly_positive (wet_depth d p cn) = true /\
  strictly_positive (runoff_denominator d p cn) = true /\
  fle p (runoff_denominator d p cn) = true.
Proof.
  intros Vp Hvalid t2. unfold in_valid_mask, fgt in Hvalid. fold t2 in Hvalid.
  assert (HS := retention_not_below_zero d cn).
  assert (VS := retention_valid d cn).
  destruct (literal_positive d) as [[P15 F15] [P45 F45]].
  destruct (literal_sign_clear d) as [[H15 _] [[H45 _] _]].
  assert (Ht2 : not_below_zero t2 = true)
    by (apply SFmul_not_below_zero; assumption).
  assert (Hp : strictly_positive p = true)
    by (apply above_not_below_zero with (t := t2); assumption).
  assert (HSn : isnan (retention d cn) = false).
  { apply SFmul_nan_r with (p := prec d) (em := emax d) (c := of_ratio d 1 5);
      [exact F15|]. apply (flt_not_nan t2 p Hvalid). }
  assert (Vt2 : valid d t2 = true)
    by (apply fmul_valid; [apply of_ratio_valid | exact VS]).
  assert (Hw : fle fzero (fmul d (of_ratio d 4 5) (retention d cn)) = true)
    by (apply SFmul_nonneg; assumption).
  assert (Vw : valid d (fmul d (of_ratio d 4 5) (retention d cn)) = true)
    by (apply fmul_valid; [apply of_ratio_valid | exact VS]).
  assert (Hp0 : fle fzero p = true) by (apply strictly_positive_nonneg, Hp).
  assert (Hwet : strictly_positive (wet_depth d p cn) = true).
  { apply SFadd_positive; [apply prec_positive | exact Hp | exact Vp|].
    exact Hw. }
  assert (Vwet : valid d (wet_depth d p cn) = true)
    by (apply fadd_valid; assumption).
  assert (Hpw : fle p (wet_depth d p cn) = true)
    by (apply SFadd_ge_left; try assumption; apply prec_positive).
  assert (Hwd : fle (wet_depth d p cn) (runoff_denominator d p cn) = true).
  { apply SFadd_ge_left; try assumption;
      [apply prec_positive | apply eps_valid
      | apply strictly_positive_nonneg, Hwet | apply eps_nonneg]. }
  repeat split; try assumption.
  - apply not_below_zero_nonneg; [exact Ht2|].
    apply (flt_not_nan t2 p Hvalid).
  - apply flt_fle, Hvalid.
  - apply fadd_valid; [exact Vwet | apply eps_valid].
  - apply denominator_positive, strictly_positive_nonneg, Hwet.
  - eapply fle_trans; eassumption.
Qed.

Lemma squared_excess_unfold (d : dtype) (p cn : spec_float) :
  squared_excess d p cn
  = let t := fsub d p (fmul d (of_ratio d 1 5) (retention d cn)) in
    fmul d t t.
Proof. reflexivity. Qed.

(** The quotient of a land cell inside [valid_mask], when the squared
    excess does not exceed the largest binary32 number. *)
Lemma land_quotient_bounded (d : dtype) (p cn : spec_float) :
  valid d p = true -> in_valid_mask d p cn = true ->
  fle (squared_excess d p cn) (max_binary32 d) = true ->
  let y := fdiv d (squared_excess d p cn) (runoff_denominator d p cn) in
  valid d y = true /\ fle fzero y = true /\ fle y (max_binary32 d) = true.
Proof.
  intros Vp Hvalid Hmax y.
  destruct (valid_mask_facts d p cn Vp Hvalid)
    as (Hp & Vt2 & Ht2 & Ht2p & Vden & _ & Hden & Hpden).
  cbv zeta in Vt2, Ht2, Ht2p.
  set (t2 := fmul d (of_ratio d 1 5) (retention d cn)) in *.
  rewrite squared_excess_unfold in Hmax. cbv zeta in Hmax.
  unfold y. rewrite squared_excess_unfold. cbv zeta.
  fold t2 in Hmax |- *.
  set (t := fsub d p t2) in *.
  set (den := runoff_denominator d p cn) in *.
  destruct (max_binary32_spec d) as (mM & eM & EM & HbM & HeM & HmM).
  destruct (one_spec d) as (mo & eo & Eone & Hb & Heo & Hmo).
  assert (Pd := prec_positive d). assert (Ed := dtype_emin d).
  assert (Htn : isnan t = false).
  { destruct t; try reflexivity. discriminate. }
  assert (HN : fle fzero (fmul d t t) = true)
    by (apply SFmul_square_nonneg; exact Htn).
  assert (FN : isfinite (fmul d t t) = true).
  { apply SFleb_finite with (r := max_binary32 d); try assumption.
    rewrite EM. reflexivity. }
  assert (Ft : isfinite t = true) by (apply fmul_square_finite with (d := d), FN).
  destruct (fsub_finite d p t2 Ft) as [Fp Ft2].
  assert (Vt : valid d t = true) by (apply fsub_valid; assumption).
  assert (Ht0 : fle fzero t = true)
    by (apply SFsub_not_negative; assumption).
  assert (Htp : fle t p = true) by (apply SFsub_le_left; assumption).
  assert (Htden : fle t den = true) by (eapply fle_trans; eassumption).
  assert (VN : valid d (fmul d t t) = true) by (apply fmul_valid; assumption).
  split; [apply SFdiv_valid, Pd | split].
  { apply (fdiv_not_negative d _ _ HN Hden). exact FN. }
  destruct (nonneg_cases t Ht0) as [[s Et] | [Et | (mt & et & Et)]];
    [| rewrite Et in Ft; discriminate |].
  { rewrite Et. destruct (positive_cases den Hden) as [-> | (md & ed & ->)];
      destruct s; cbn; apply zero_le_max_binary32. }
  rewrite Et in *.
  destruct (nonneg_cases _ HN) as [[s EN] | [EN | (mn & en & EN)]];
    [| rewrite EN in FN; discriminate |].
  { rewrite EN. destruct (positive_cases den Hden) as [-> | (md & ed & ->)];
      cbn; apply zero_le_max_binary32. }
  destruct (positive_cases den Hden) as [Eden | (md & ed & Eden)].
  { rewrite EN, Eden. cbn. apply zero_le_max_binary32. }
  rewrite Eden in *.
  assert (Hcmp : fle (S754_finite false mt et) (of_int d 1) = true \/
                 fle (of_int d 1) (S754_finite false mt et) = true).
  { apply fle_total; [reflexivity | rewrite Eone; reflexivity]. }
  rewrite Eone in Hcmp.
  destruct Hcmp as [Hsmall | Hlarge].
  - (* t <= 1: the square is at most t, the quotient at most 1 *)
    assert (Hsq : fle (fmul d (S754_finite false mt et)
                         (S754_finite false mt et))
                      (S754_finite false mt et) = true).
    { apply (SFmul_square_le_self (prec d) (emax d) Pd Ed mo eo Hb Heo Hmo);
        assumption. }
    rewrite EN in *.
    assert (Hnd : fle (S754_finite false mn en) (S754_finite false md ed)
                  = true) by (eapply fle_trans; eassumption).
    apply fle_trans with (b := of_int d 1); [|apply one_le_max_binary32].
    rewrite Eone.
    apply (SFdiv_le_one (prec d) (emax d) Pd mo eo Hb Heo Hmo); assumption.
  - (* 1 <= t: the denominator is at least 1, the quotient at most the
       square *)
    rewrite EN in *.
    apply fle_trans with (b := S754_finite false mn en); [|exact Hmax].
    apply (SFdiv_le_num (prec d) (emax d) Pd mo eo Hb Heo Hmo);
      try assumption.
    eapply fle_trans; eassumption.
Qed.

Lemma runoff_cell_land (d : dtype) (p cn : spec_float) :
  runoff_cell d p cn 1
  = fmul float32
      (if in_valid_mask d p cn
       then astype float32
              (fdiv d (squared_excess d p cn) (runoff_denominator d p cn))
       else fzero)
      (of_int float32 1).
Proof.
  unfold runoff_cell, in_valid_mask, squared_excess, runoff_denominator,
    wet_depth, retention. cbv zeta.
  change ((1 =? 0)%Z) with false. change ((1 =? 1)%Z) with true.
  rewrite orb_false_r, andb_true_r. reflexivity.
Qed.

(** One cell: the runoff is finite and not negative when the squared
    excess, where it is used, does not exceed the largest binary32
    number. *)
Lemma runoff_cell_finite (d : dtype) (p cn : spec_float) (m : Z) :
  valid d p = true -> m = 0 \/ m = 1 ->
  (in_valid_mask d p cn = true ->
   fle (squared_excess d p cn) (max_binary32 d) = true) ->
  isfinite (runoff_cell d p cn m) = true /\
  fle fzero (runoff_cell d p cn m) = true.
Proof.
  intros Vp [-> | ->] Hmax.
  { rewrite runoff_cell_mask_zero. split; reflexivity. }
  rewrite runoff_cell_land.
  destruct (in_valid_mask d p cn) eqn:Hvalid; [|split; reflexivity].
  destruct (land_quotient_bounded d p cn Vp Hvalid (Hmax eq_refl))
    as (Vy & Hy & Hle).
  destruct (astype_binary32_bounded d _ Vy Hy Hle) as (Hz & Hzle & Vz).
  split; [apply fmul_one_finite; assumption | apply fmul_one_nonneg, Hz].
Qed.

Lemma runoff_cell_outside_valid_mask (d : dtype) (p cn : spec_float)
    (m : Z) :
  m = 0 \/ m = 1 -> in_valid_mask d p cn = false ->
  runoff_cell d p cn m = fzero.
Proof.
  intros [-> | ->] H; [apply runoff_cell_mask_zero|].
  rewrite runoff_cell_land, H. reflexivity.
Qed.

(** Precipitation up to [2^63] keeps the squared excess below the largest
    binary32 number. *)
Lemma squared_excess_bounded (d : dtype) (p cn : spec_float) :
  valid d p = true -> in_valid_mask d p cn = true ->
  fle p (of_int d (2 ^ 63)) = true ->
  fle (squared_excess d p cn) (max_binary32 d) = true.
Proof.
  intros Vp Hvalid Hbound.
  destruct (valid_mask_facts d p cn Vp Hvalid)
    as (Hp & Vt2 & Ht2 & Ht2p & _).
  cbv zeta in Vt2, Ht2, Ht2p.
  set (t2 := fmul d (of_ratio d 1 5) (retention d cn)) in *.
  rewrite squared_excess_unfold. cbv zeta. fold t2.
  set (t := fsub d p t2).
  destruct (bound_spec d)
    as (mb & eb & mb2 & eb2 & j & EB & VB & HB2 & Hj & He & Hm & HB2max).
  rewrite EB in Hbound.
  assert (Pd := prec_positive d). assert (Ed := dtype_emin d).
  assert (Fp : isfinite p = true).
  { apply SFleb_finite with (r := S754_finite false mb eb);
      [apply strictly_positive_nonneg, Hp | exact Hbound | reflexivity]. }
  assert (Ft2 : isfinite t2 = true)
    by (apply SFleb_finite with (r := p); assumption).
  assert (Vt : valid d t = true) by (apply fsub_valid; assumption).
  assert (Ht0 : fle fzero t = true)
    by (apply SFsub_not_negative; assumption).
  assert (Htp : fle t p = true) by (apply SFsub_le_left; assumption).
  assert (HtB : fle t (S754_finite false mb eb) = true)
    by (eapply fle_trans; eassumption).
  destruct (nonneg_cases t Ht0) as [[s Et] | [Et | (mt & et & Et)]].
  - rewrite Et. destruct s; cbn; apply zero_le_max_binary32.
  - rewrite Et in HtB. discriminate.
  - rewrite Et in *.
    apply fle_trans with (b := S754_finite false mb2 eb2); [|exact HB2max].
    apply (SFmul_square_le_bound (prec d) (emax d) Pd Ed mt et mb eb mb2 eb2
             j); assumption.
Qed.

(** One land cell inside [valid_mask] whose squared excess overflows: the
    runoff is [+inf], or NaN when the denominator overflows too. *)
Lemma runoff_cell_overflow (d : dtype) (p cn : spec_float) :
  valid d p = true -> in_valid_mask d p cn = true ->
  isfinite (squared_excess d p cn) = false ->
  isfinite (runoff_cell d p cn 1) = false.
Proof.
  intros Vp Hvalid Hinf.
  destruct (valid_mask_facts d p cn Vp Hvalid)
    as (_ & _ & _ & _ & _ & _ & Hden & _).
  rewrite runoff_cell_land, Hvalid.
  assert (HN : fle fzero (squared_excess d p cn) = true).
  { rewrite squared_excess_unfold. cbv zeta.
    apply SFmul_square_nonneg, SFsub_not_nan. exact Hvalid. }
  destruct (nonneg_cases _ HN) as [[s EN] | [EN | (mn & en & EN)]];
    rewrite EN in Hinf; try discriminate.
  rewrite EN.
  destruct (positive_cases _ Hden) as [-> | (md & ed & ->)]; reflexivity.
Qed.

(** A finite binary32 value does not exceed the largest one. *)
Lemma finite_le_max_binary32 (x : spec_float) :
  valid float32 x = true -> isfinite x = true ->
  fle x (max_binary32 float32) = true.
Proof.
  intros Vx Fx. destruct x as [s| | |[] m e]; try discriminate;
    try reflexivity.
  change (max_binary32 float32) with (S754_finite false 16777215 104).
  cbn [valid valid_binary] in Vx. unfold valid in Vx. cbn [valid_binary] in Vx.
  assert (Vx' := Vx). unfold bounded in Vx'. apply andb_true_iff in Vx'.
  destruct Vx' as [Hc Hb]. apply Z.leb_le in Hb.
  destruct (canonical_digits (prec float32) (emax float32) m e Hc)
    as (Hd & _ & _).
  assert (B := digits2_pos_bounds m).
  assert (Hm : Zpos m < 2 ^ 24).
  { assert (2 ^ Zpos (digits2_pos m) <= 2 ^ 24)
      by (apply Z.pow_le_mono_r; [lia | exact Hd]).
    lia. }
  change (2 ^ 24) with 16777216 in Hm.
  change (emax float32 - prec float32) with 104 in Hb.
  unfold fle, SFleb, SFcompare.
  destruct (Z.compare_spec e 104) as [-> | Hlt | Hgt]; try reflexivity;
    [|lia].
  change (Pos.compare_cont Eq m 16777215) with (Pos.compare m 16777215).
  destruct (Pos.compare_spec m 16777215); try reflexivity. lia.
Qed.

End FiniteRunoff.

(** C3, as the code has it.  For every precipitation grid of values of its
    dtype, every curve-number grid and every 0/1 mask on which
    [compute_runoff] returns, with [p] and [cn] the precipitation and the
    curve number numpy pairs with the cell:
    - no cell of the result is negative: each cell is a value [>= 0] (which
      may be [+inf]) or NaN, and it is a value [>= 0] whenever the squared
      excess [(p - 0.2 S)^2] of the cell does not overflow;
    - the cell is finite and [>= 0] whenever the squared excess does not
      exceed the largest binary32 number, which for binary32 operands
      means that it does not overflow, and so whenever [p] is at most
      [2^63];
    - a land cell inside [valid_mask] whose squared excess overflows is
      not finite;
    - no division by zero occurs: inside [valid_mask], where the quotient
      is taken, [p + 0.8 S] is positive and so is the denominator
      [p + 0.8 S + 1e-6]; outside [valid_mask] the cell is exactly [+0.0].
    (That every cell is finite does not hold: the square overflows for
    large precipitation.) *)
Theorem compute_runoff_never_negative (d : dtype)
    (precipitation cn_map : ndarray spec_float) (mask : ndarray Z)
    (out : ndarray spec_float) (r c : nat) (x : spec_float) :
  dtype_grid d precipitation ->
  Forall (Forall (fun m => m = 0 \/ m = 1)%Z) (rows_of mask) ->
  compute_runoff d precipitation cn_map mask = Ok out ->
  get out r c = Ok x ->
  let p := bget S754_nan precipitation r c in
  let cn := bget S754_nan cn_map r c in
  (isnan x = true \/ fle fzero x = true) /\
  (isfinite (squared_excess d p cn) = true -> fle fzero x = true) /\
  (fle (squared_excess d p cn) (max_binary32 d) = true ->
   isfinite x = true /\ fle fzero x = true) /\
  (d = float32 -> isfinite (squared_excess d p cn) = true ->
   isfinite x = true /\ fle fzero x = true) /\
  (fle p (of_int d (2 ^ 63)) = true ->
   isfinite x = true /\ fle fzero x = true) /\
  (bget 0%Z mask r c = 1%Z -> in_valid_mask d p cn = true ->
   isfinite (squared_excess d p cn) = false -> isfinite x = false) /\
  (in_valid_mask d p cn = true ->
   strictly_positive (wet_depth d p cn) = true /\
   strictly_positive (runoff_denominator d p cn) = true) /\
  (in_valid_mask d p cn = false -> x = fzero).
Proof.
  intros Hp Hmask H Hx p cn.
  rewrite (compute_runoff_cell d _ _ _ _ _ _ _ H Hx). fold p cn.
  assert (Vp : valid d p = true) by apply bget_valid, Hp.
  assert (Hm := bget_zero_one mask r c Hmask).
  destruct (runoff_cell_not_negative d p cn _ Vp Hm) as [H1 H2].
  split; [exact H1 | split; [exact H2|]].
  split; [|split; [|split; [|split; [|split]]]].
  - intro Hmax. apply runoff_cell_finite; [exact Vp | exact Hm|].
    intros _. exact Hmax.
  - intros -> Hfin. apply runoff_cell_finite; [exact Vp | exact Hm|].
    intros _. apply finite_le_max_binary32; [|exact Hfin].
    rewrite squared_excess_unfold. cbv zeta.
    apply fmul_valid; apply fsub_valid; try exact Vp;
      (apply fmul_valid; [apply of_ratio_valid | apply retention_valid]).
  - intro Hbound. apply runoff_cell_finite; [exact Vp | exact Hm|].
    intro Hvalid. apply squared_excess_bounded; assumption.
  - intros -> Hvalid Hinf. apply runoff_cell_overflow; assumption.
  - intro Hvalid.
    destruct (valid_mask_facts d p cn Vp Hvalid)
      as (_ & _ & _ & _ & _ & Hwet & Hden & _).
    split; assumption.
  - apply runoff_cell_outside_valid_mask. exact Hm.
Qed.

Lemma compute_runoff_never_negative_witness :
  let x := S754_finite false 12133521 (-22) in
  let p := bget S754_nan sea_example_precipitation 0 0 in
  let cn := bget S754_nan sea_example_cn 0 0 in
  (isnan x = true \/ fle fzero x = true) /\
  (isfinite (squared_excess float32 p cn) = true -> fle fzero x = true) /\
  (fle (squared_excess float32 p cn) (max_binary32 float32) = true ->
   isfinite x = true /\ fle fzero x = true) /\
  (float32 = float32 -> isfinite (squared_excess float32 p cn) = true ->
   isfinite x = true /\ fle fzero x = true) /\
  (fle p (of_int float32 (2 ^ 63)) = true ->
   isfinite x = true /\ fle fzero x = true) /\
  (bget 0%Z sea_example_mask 0 0 = 1%Z ->
   in_valid_mask float32 p cn = true ->
   isfinite (squared_excess float32 p cn) = false -> isfinite x = false) /\
  (in_valid_mask float32 p cn = true ->
   strictly_positive (wet_depth float32 p cn) = true /\
   strictly_positive (runoff_denominator float32 p cn) = true) /\
  (in_valid_mask float32 p cn = false -> x = fzero).
Proof.
  apply (compute_runoff_never_negative float32 sea_example_precipitation
           sea_example_cn sea_example_mask sea_example_out 0 0).
  - unfold dtype_grid. repeat constructor.
  - repeat (first [left; reflexivity | right; reflexivity | constructor]).
  - vm_compute. reflexivity.
  - vm_compute. reflexivity.
Defined.

(** The cell of the example, with 5 mm of rain on curve number 80: it lies
    inside [valid_mask], its squared excess is far below the largest
    binary32 number and its denominator is positive. *)
Example runoff_cell_example :
  let p := of_int float32 5 in
  let cn := of_int float32 80 in
  in_valid_mask float32 p cn = true /\
  fle (squared_excess float32 p cn) (max_binary32 float32) = true /\
  fle p (of_int float32 (2 ^ 63)) = true /\
  strictly_positive (runoff_denominator float32 p cn) = true /\
  runoff_cell float32 p cn 1 = S754_finite false 12133521 (-22).
Proof. vm_compute. repeat split. Qed.

(** C3, refuted as stated.  A finite, non-negative precipitation of [2^70]
    on a land cell with curve number 100: the square overflows binary32 and
    the runoff is [+inf], which is not finite. *)
Lemma compute_runoff_overflow :
  isfinite (of_int float32 (2 ^ 70)) = true /\
  fle fzero (of_int float32 (2 ^ 70)) = true /\
  compute_runoff float32
    (mk_ndarray 1 1 [[of_int float32 (2 ^ 70)]])
    (mk_ndarray 1 1 [[of_int float32 100]])
    (mk_ndarray 1 1 [[1%Z]])
  = Ok (mk_ndarray 1 1 [[S754_infinity false]]) /\
  isfinite (S754_infinity false) = false.
Proof. vm_compute. repeat split. Qed.

(** The bound [2^63] on the precipitation is within a factor of two of the
    first overflow: at [2^64] the square is [2^128], which binary32 does
    not hold. *)
Lemma compute_runoff_overflow_threshold :
  compute_runoff float32
    (mk_ndarray 1 1 [[of_int float32 (2 ^ 64)]])
    (mk_ndarray 1 1 [[of_int float32 100]])
    (mk_ndarray 1 1 [[1%Z]])
  = Ok (mk_ndarray 1 1 [[S754_infinity false]]).
Proof. vm_compute. reflexivity. Qed.

(** With the largest binary32 precipitation and a curve number of [1e-35]
    numerator and denominator both overflow, and the runoff is NaN, which is
    neither finite nor [>= 0]. *)
Lemma compute_runoff_nan :
  isfinite (SFmax_float 24 128) = true /\
  fle fzero (SFmax_float 24 128) = true /\
  compute_runoff float32
    (mk_ndarray 1 1 [[SFmax_float 24 128]])
    (mk_ndarray 1 1 [[of_ratio float32 1 (10 ^ 35)]])
    (mk_ndarray 1 1 [[1%Z]])
  = Ok (mk_ndarray 1 1 [[S754_nan]]) /\
  fle fzero S754_nan = false.
Proof. vm_compute. repeat split. Qed.

(** With binary64 operands the square of [2^200] does not overflow, but the
    quotient does not fit the float32 result. *)
Lemma compute_runoff_overflow_binary64 :
  isfinite (of_int float64 (2 ^ 200)) = true /\
  fle fzero (of_int float64 (2 ^ 200)) = true /\
  isfinite (squared_excess float64 (of_int float64 (2 ^ 200))
              (of_int float64 100)) = true /\
  compute_runoff float64
    (mk_ndarray 1 1 [[of_int float64 (2 ^ 200)]])
    (mk_ndarray 1 1 [[of_int float64 100]])
    (mk_ndarray 1 1 [[1%Z]])
  = Ok (mk_ndarray 1 1 [[S754_infinity false]]).
Proof. vm_compute. repeat split. Qed.

(** *** C5 *)

Lemma compute_runoff_of_broadcast (d : dtype)
    (precipitation cn_map : ndarray spec_float) (mask : ndarray Z)
    (s : nat * nat) :
  broadcast_shape (shape cn_map) (shape mask) = Ok s ->
  broadcast_shape (shape mask) (shape precipitation) = Ok s ->
  exists out, compute_runoff d precipitation cn_map mask = Ok out /\
              shape out = s.
Proof.
  intros H1 H2. unfold compute_runoff. rewrite H1, H2. simpl.
  rewrite broadcast_shape_refl. simpl.
  assert (E : shape_eqb s s = true) by (apply shape_eqb_eq; reflexivity).
  rewrite E. simpl. eexists. split; [reflexivity|].
  destruct s; reflexivity.
Qed.

Lemma broadcast_shape_raises (s t : nat * nat) (e : exn) :
  broadcast_shape s t = Raise e -> e = ValueError.
Proof.
  unfold broadcast_shape, broadcast_dim.
  destruct (fst s =? fst t); [|destruct (fst s =? 1);
                                [|destruct (fst t =? 1)]];
    cbn [bind];
    (destruct (snd s =? snd t); [|destruct (snd s =? 1);
                                   [|destruct (snd t =? 1)]]);
    cbn [bind]; intro H; inversion H; reflexivity.
Qed.

(** The three broadcasts of [compute_runoff] decide how it ends. *)
Lemma compute_runoff_cases (d : dtype)
    (precipitation cn_map : ndarray spec_float) (mask : ndarray Z) :
  match broadcast_shape (shape cn_map) (shape mask),
        broadcast_shape (shape mask) (shape precipitation) with
  | Ok s_cn, Ok s_p =>
      match broadcast_shape s_p s_cn with
      | Ok _ =>
          (s_cn = s_p /\
           exists out, compute_runoff d precipitation cn_map mask = Ok out)
          \/
          (s_cn <> s_p /\
           compute_runoff d precipitation cn_map mask = Raise IndexError)
      | Raise _ =>
          compute_runoff d precipitation cn_map mask = Raise ValueError
      end
  | _, _ => compute_runoff d precipitation cn_map mask = Raise ValueError
  end.
Proof.
  unfold compute_runoff.
  destruct (broadcast_shape (shape cn_map) (shape mask)) as [s_cn|e1] eqn:E1.
  2:{ apply broadcast_shape_raises in E1. subst e1. reflexivity. }
  destruct (broadcast_shape (shape mask) (shape precipitation))
    as [s_p|e2] eqn:E2.
  2:{ apply broadcast_shape_raises in E2. subst e2. reflexivity. }
  cbn [bind].
  destruct (broadcast_shape s_p s_cn) as [s_valid|e3] eqn:E3.
  2:{ apply broadcast_shape_raises in E3. subst e3. reflexivity. }
  cbn [bind].
  destruct (shape_eqb s_valid s_p) eqn:Hp; cbn [andb].
  - destruct (shape_eqb s_valid s_cn) eqn:Hc.
    + left. apply shape_eqb_eq in Hp, Hc. split; [congruence | eauto].
    + right. split; [|reflexivity]. intro H. subst s_cn.
      apply shape_eqb_eq in Hp. subst s_valid.
      assert (Hrefl : shape_eqb s_p s_p = true)
        by (apply shape_eqb_eq; reflexivity).
      congruence.
  - right. split; [|reflexivity]. intro H. subst s_cn.
    rewrite broadcast_shape_refl in E3. inversion E3; subst s_valid.
    assert (Hrefl : shape_eqb s_p s_p = true)
      by (apply shape_eqb_eq; reflexivity).
    congruence.
Qed.

(** C5, as the code has it.  [compute_runoff] has no shape check of its
    own.  It returns a grid of shape [s] exactly when numpy broadcasting
    gives the pair (curve numbers, mask) and the pair (mask, precipitation)
    the shape [s].  In every other case it raises one of numpy's two
    exceptions: [ValueError] exactly when one of its three broadcasts
    fails, that of the curve numbers with the mask, of the mask with the
    precipitation, or of their two results; and [IndexError], from the
    boolean-mask indexing, exactly when the three broadcasts succeed and
    the first two give different shapes. *)
Theorem compute_runoff_returns_iff_broadcast (d : dtype)
    (precipitation cn_map : ndarray spec_float) (mask : ndarray Z)
    (s : nat * nat) :
  ((exists out, compute_runoff d precipitation cn_map mask = Ok out /\
                shape out = s)
   <->
   (broadcast_shape (shape cn_map) (shape mask) = Ok s /\
    broadcast_shape (shape mask) (shape precipitation) = Ok s))
  /\
  (compute_runoff d precipitation cn_map mask = Raise ValueError
   <->
   ((exists e, broadcast_shape (shape cn_map) (shape mask) = Raise e) \/
    (exists e,
       broadcast_shape (shape mask) (shape precipitation) = Raise e) \/
    (exists s_cn s_p e,
       broadcast_shape (shape cn_map) (shape mask) = Ok s_cn /\
       broadcast_shape (shape mask) (shape precipitation) = Ok s_p /\
       broadcast_shape s_p s_cn = Raise e)))
  /\
  (compute_runoff d precipitation cn_map mask = Raise IndexError
   <->
   (exists s_cn s_p s_valid,
      broadcast_shape (shape cn_map) (shape mask) = Ok s_cn /\
      broadcast_shape (shape mask) (shape precipitation) = Ok s_p /\
      broadcast_shape s_p s_cn = Ok s_valid /\
      s_cn <> s_p))
  /\
  (forall e, compute_runoff d precipitation cn_map mask = Raise e ->
             e = ValueError \/ e = IndexError).
Proof.
  split; [|pose proof (compute_runoff_cases d precipitation cn_map mask)
             as Hcases].
  { split.
    - intros [out [H Hs]]. apply compute_runoff_inv in H.
      destruct H as [s' [H1 [H2 ->]]]. unfold shape in Hs. simpl in Hs.
      destruct s' as [a b]. simpl in Hs. subst s. split; assumption.
    - intros [H1 H2]. apply compute_runoff_of_broadcast; assumption. }
  destruct (broadcast_shape (shape cn_map) (shape mask)) as [s_cn|e1].
  2:{ rewrite Hcases. split; [|split].
      - split; [intros _; left; eauto | reflexivity].
      - split; [discriminate|]. intros (? & ? & ? & H & _). discriminate.
      - intros e H. inversion H. left. reflexivity. }
  destruct (broadcast_shape (shape mask) (shape precipitation)) as [s_p|e2].
  2:{ rewrite Hcases. split; [|split].
      - split; [intros _; right; left; eauto | reflexivity].
      - split; [discriminate|]. intros (? & ? & ? & _ & H & _). discriminate.
      - intros e H. inversion H. left. reflexivity. }
  destruct (broadcast_shape s_p s_cn) as [s_valid|e3] eqn:E3.
  2:{ rewrite Hcases. split; [|split].
      - split; [intros _; right; right; exists s_cn, s_p, e3; auto
               | reflexivity].
      - split; [discriminate|].
        intros (a & b & c & Ha & Hb & Hc & _).
        inversion Ha; inversion Hb; subst. congruence.
      - intros e H. inversion H. left. reflexivity. }
  destruct Hcases as [[Heq [out Hout]] | [Hne Hraise]].
  - rewrite Hout. split; [|split].
    + split; [discriminate|].
      intros [[e H] | [[e H] | (a & b & e & Ha & Hb & Hc)]];
        try discriminate.
      inversion Ha; inversion Hb; subst. congruence.
    + split; [discriminate|].
      intros (a & b & c & Ha & Hb & _ & Hn).
      inversion Ha; inversion Hb; subst. congruence.
    + intros e H. discriminate.
  - rewrite Hraise. split; [|split].
    + split; [discriminate|].
      intros [[e H] | [[e H] | (a & b & e & Ha & Hb & Hc)]];
        try discriminate.
      inversion Ha; inversion Hb; subst. congruence.
    + split; [intros _; exists s_cn, s_p, s_valid; auto | reflexivity].
    + intros e H. inversion H. right. reflexivity.
Qed.

(** The two failures, on small grids: a 2 x 3 curve-number grid cannot be
    broadcast against a 2 x 2 mask; a 1 x 2 curve-number grid, a 1 x 1 mask
    and a 2 x 1 precipitation grid broadcast pairwise, to 1 x 2 and 2 x 1,
    and the boolean mask of shape 2 x 2 fits neither. *)
Lemma compute_runoff_raises_examples :
  compute_runoff float32 broadcast_example_precipitation
    (mk_ndarray 2 3 [[of_int float32 80; of_int float32 80; of_int float32 80];
                     [of_int float32 80; of_int float32 80; of_int float32 80]])
    broadcast_example_mask
  = Raise ValueError /\
  compute_runoff float32
    (mk_ndarray 2 1 [[of_int float32 5]; [of_int float32 10]])
    broadcast_example_cn (mk_ndarray 1 1 [[1%Z]])
  = Raise IndexError.
Proof. split; reflexivity. Qed.

(** Identical shapes are the case the specification has in mind. *)
Corollary compute_runoff_same_shape (d : dtype)
    (precipitation cn_map : ndarray spec_float) (mask : ndarray Z) :
  shape precipitation = shape cn_map -> shape cn_map = shape mask ->
  exists out, compute_runoff d precipitation cn_map mask = Ok out /\
              shape out = shape precipitation.
Proof.
  intros H1 H2. apply compute_runoff_of_broadcast.
  - rewrite H1, H2. apply broadcast_shape_refl.
  - rewrite H1, H2. apply broadcast_shape_refl.
Qed.

(** C5, refuted as stated.  A one-row curve-number grid against a 2 x 2
    precipitation grid and mask: the shapes differ, and the function returns
    a grid. *)
Lemma compute_runoff_broadcasts :
  shape broadcast_example_cn <> shape broadcast_example_precipitation /\
  compute_runoff float32 broadcast_example_precipitation
    broadcast_example_cn broadcast_example_mask
  = Ok (mk_ndarray 2 2
          [[S754_zero false; S754_finite false 12133521 (-22)];
           [S754_finite false 15772329 (-21); S754_zero false]]).
Proof. split; [discriminate | vm_compute; reflexivity]. Qed.

(** ** calculate_flow_direction *)

Lemma foldM_map {A B S} (f : S -> A -> result S) (g : S -> B -> result S)
    (h : A -> B) (l : list A) (s : S) :
  (forall s a, f s a = g s (h a)) -> foldM f l s = foldM g (map h l) s.
Proof.
  intro H. revert s. induction l as [|a l IH]; simpl; intro s;
    [reflexivity|].
  rewrite H. destruct (g s (h a)); simpl; auto.
Qed.

Lemma foldM_total {A S} (f : S -> A -> result S) (l : list A) (s : S) :
  (forall s a, In a l -> exists s', f s a = Ok s') ->
  exists s', foldM f l s = Ok s'.
Proof.
  revert s. induction l as [|a l IH]; simpl; intros s H; [eauto|].
  destruct (H s a (or_introl eq_refl)) as [s1 H1]. rewrite H1. simpl.
  apply IH. intros; apply H; auto.
Qed.

Lemma flt_irrefl (a : spec_float) : flt a a = false.
Proof.
  destruct (flt a a) eqn:E; [|reflexivity].
  rewrite (flt_asym a a E) in E. discriminate.
Qed.

Lemma flt_below_bound (a b x : spec_float) :
  flt a x = true -> flt b x = false -> flt b a = false.
Proof.
  intros Ha Hb. destruct (flt b a) eqn:E; [|reflexivity].
  rewrite (flt_trans b a x E Ha) in Hb. discriminate.
Qed.

Lemma flt_above_bound (a b x : spec_float) :
  flt a x = true -> flt b x = false -> isnan b = false -> flt a b = true.
Proof.
  intros Ha Hb Hn. destruct (flt_cotrans a x b Ha Hn) as [H | H];
    [exact H | congruence].
Qed.

Section FlowLemmas.

Variable d : dtype.
Variable w : ndarray spec_float.
Variable mask : ndarray Z.
Variables r c : nat.
Variable center : spec_float.

Lemma neighbor_step_pair (st : spec_float * Z) (i : nat) (off : Z * Z) :
  neighbor_step d w mask r c center st (i, off)
  = pair_step d w mask r c center st (off, nth i D8_VALUES 0%Z).
Proof.
  unfold neighbor_step, pair_step, neighbor_drop. destruct off as [dr dc].
  cbn [fst snd].
  destruct (get w (shift r dr) (shift c dc)) as [nb|]; [|reflexivity].
  cbn [bind]. destruct (isnan nb); [reflexivity|]. cbn [negb bind].
  destruct (get mask (shift r dr) (shift c dc)) as [m|]; [|reflexivity].
  cbn [bind]. destruct (m =? 1)%Z; [|reflexivity]. cbn [bind snd].
  destruct (fgt (fsub d center nb) fzero && flt (fsub d center nb) (fst st));
    reflexivity.
Qed.

Lemma scan_d8 (st : spec_float * Z) :
  foldM (neighbor_step d w mask r c center) (enumerate D8_OFFSETS) st
  = foldM (pair_step d w mask r c center) d8_neighbors st.
Proof.
  rewrite (foldM_map _ (pair_step d w mask r c center)
             (fun io => (snd io, nth (fst io) D8_VALUES 0%Z))).
  - reflexivity.
  - intros s [i off]. apply neighbor_step_pair.
Qed.

Lemma scan_inv_nil : scan_inv d w mask r c center [] (pinf, 0%Z).
Proof. left. split; [reflexivity|]. intros oc diff []. Qed.

Lemma scan_inv_step (seen : list ((Z * Z) * Z)) (st st' : spec_float * Z)
    (oc : (Z * Z) * Z) :
  scan_inv d w mask r c center seen st ->
  pair_step d w mask r c center st oc = Ok st' ->
  scan_inv d w mask r c center (seen ++ [oc]) st'.
Proof.
  intros Hinv Hstep. unfold pair_step in Hstep.
  destruct (neighbor_drop d w mask r c center (fst oc)) as [od|] eqn:Hdrop;
    [|discriminate].
  cbn [bind] in Hstep. inversion Hstep as [Hst']. clear Hstep.
  assert (Hbound : exists x, fst st = x /\
            (forall a, flt a x = true -> flt a pinf = true) /\
            (forall oc' d', In oc' seen ->
               neighbor_drop d w mask r c center (fst oc') = Ok (Some d') ->
               fgt d' fzero = true -> flt d' x = false)).
  { destruct Hinv as [[-> Hno] | (before & off & code & after & diff & _ & _
                                  & _ & Hfin & -> & Hmin & _)].
    - exists pinf. repeat split; auto.
    - exists diff. repeat split; auto.
      intros a Ha. exact (flt_trans a diff pinf Ha Hfin). }
  destruct Hbound as (x & Hx & Hxfin & Hxmin).
  destruct od as [dj|].
  - destruct (fgt dj fzero && flt dj (fst st)) eqn:Htest.
    + (* the neighbour replaces the minimum *)
      apply andb_true_iff in Htest. destruct Htest as [Hpos Hlt].
      rewrite Hx in Hlt.
      right. exists seen, (fst oc), (snd oc), [], dj.
      repeat split.
      * destruct oc; reflexivity.
      * exact Hdrop.
      * exact Hpos.
      * apply Hxfin. exact Hlt.
      * intros oc' d' Hin Hd' Hpos'. apply in_app_or in Hin.
        destruct Hin as [Hin | [<- | []]].
        -- apply flt_below_bound with (x := x); [exact Hlt|].
           eapply Hxmin; eassumption.
        -- rewrite Hdrop in Hd'. inversion Hd'. apply flt_irrefl.
      * intros oc' d' Hin Hd' Hpos'.
        apply flt_above_bound with (x := x); [exact Hlt | |].
        -- eapply Hxmin; eassumption.
        -- apply (flt_not_nan fzero d'). exact Hpos'.
    + (* the state is kept *)
      destruct Hinv as [[-> Hno] | (before & off & code & after & diff & Hs
                                    & Hd & Hp & Hfin & -> & Hmin & Hbefore)].
      * left. split; [reflexivity|].
        intros oc' d' Hin Hd' Hpos'. apply in_app_or in Hin.
        destruct Hin as [Hin | [<- | []]]; [eapply Hno; eassumption|].
        rewrite Hdrop in Hd'. inversion Hd'; subst d'.
        cbn [fst] in Htest. rewrite Hpos' in Htest. exact Htest.
      * right. exists before, off, code, (after ++ [oc]), diff.
        repeat split; try assumption.
        -- rewrite Hs, <- app_assoc. reflexivity.
        -- intros oc' d' Hin Hd' Hpos'. apply in_app_or in Hin.
           destruct Hin as [Hin | [<- | []]]; [eapply Hmin; eassumption|].
           rewrite Hdrop in Hd'. inversion Hd'; subst d'.
           cbn [fst] in Htest. rewrite Hpos' in Htest. exact Htest.
  - (* the neighbour is not eligible *)
    destruct Hinv as [[-> Hno] | (before & off & code & after & diff & Hs
                                  & Hd & Hp & Hfin & -> & Hmin & Hbefore)].
    + left. split; [reflexivity|].
      intros oc' d' Hin Hd' Hpos'. apply in_app_or in Hin.
      destruct Hin as [Hin | [<- | []]]; [eapply Hno; eassumption|].
      rewrite Hdrop in Hd'. discriminate.
    + right. exists before, off, code, (after ++ [oc]), diff.
      repeat split; try assumption.
      * rewrite Hs, <- app_assoc. reflexivity.
      * intros oc' d' Hin Hd' Hpos'. apply in_app_or in Hin.
        destruct Hin as [Hin | [<- | []]]; [eapply Hmin; eassumption|].
        rewrite Hdrop in Hd'. discriminate.
Qed.

Lemma scan_inv_fold (l seen : list ((Z * Z) * Z)) (st st' : spec_float * Z) :
  scan_inv d w mask r c center seen st ->
  foldM (pair_step d w mask r c center) l st = Ok st' ->
  scan_inv d w mask r c center (seen ++ l) st'.
Proof.
  revert seen st. induction l as [|oc l IH]; simpl; intros seen st Hinv H.
  - inversion H; subst st'. rewrite app_nil_r. exact Hinv.
  - destruct (pair_step d w mask r c center st oc) as [st1|] eqn:E;
      [|discriminate].
    cbn [bind] in H.
    replace (seen ++ oc :: l) with ((seen ++ [oc]) ++ l)
      by (rewrite <- app_assoc; reflexivity).
    apply IH with (st := st1); [|exact H].
    apply scan_inv_step with (st := st); assumption.
Qed.

(** A cell that is not skipped gets the code the scan ends with. *)
Lemma cell_direction_scan (code : Z) :
  get mask r c = Ok 1%Z -> get w r c = Ok center -> isnan center = false ->
  cell_direction d w mask r c = Ok code ->
  exists min_diff,
    scan_inv d w mask r c center d8_neighbors (min_diff, code).
Proof.
  intros Hm Hc Hn H. unfold cell_direction in H.
  rewrite Hm in H. cbn [bind] in H. change ((1 =? 0)%Z) with false in H.
  cbn iota in H. rewrite Hc in H. cbn [bind] in H. rewrite Hn in H.
  rewrite scan_d8 in H.
  destruct (foldM (pair_step d w mask r c center) d8_neighbors (pinf, 0%Z))
    as [[min_diff min_dir]|] eqn:E; [|discriminate].
  cbn [bind snd] in H. inversion H; subst code. exists min_diff.
  apply (scan_inv_fold d8_neighbors [] (pinf, 0%Z) _ scan_inv_nil E).
Qed.

End FlowLemmas.

(** Away from the border of a window whose mask covers it, no read of the
    scan is out of range. *)
Lemma cell_direction_total (d : dtype) (w : ndarray spec_float)
    (mask : ndarray Z) (r c : nat) :
  wf w -> wf mask -> nrows w <= nrows mask -> ncols w <= ncols mask ->
  interior (nrows w) (ncols w) r c = true ->
  exists code, cell_direction d w mask r c = Ok code.
Proof.
  intros Hw Hmask Hrows Hcols Hint. unfold interior in Hint.
  repeat rewrite andb_true_iff in Hint.
  destruct Hint as [[[Hr1 Hr2] Hc1] Hc2].
  apply Nat.leb_le in Hr1, Hc1. apply Nat.ltb_lt in Hr2, Hc2.
  assert (Hget : forall dr dc, (-1 <= dr <= 1)%Z -> (-1 <= dc <= 1)%Z ->
            (exists x, get w (shift r dr) (shift c dc) = Ok x) /\
            (exists m, get mask (shift r dr) (shift c dc) = Ok m)).
  { intros dr dc Hdr Hdc. unfold shift.
    split; apply get_ok; try assumption; lia. }
  unfold cell_direction.
  destruct (Hget 0%Z 0%Z) as [[x Hx] [m Hm]]; try lia.
  unfold shift in Hx, Hm. rewrite !Z.add_0_r, !Nat2Z.id in Hx, Hm.
  rewrite Hm. cbn [bind]. destruct (m =? 0)%Z; [eauto|].
  rewrite Hx. cbn [bind]. destruct (isnan x); [eauto|].
  rewrite scan_d8.
  destruct (foldM_total (pair_step d w mask r c x) d8_neighbors (pinf, 0%Z))
    as [st Hst].
  - intros s oc Hin. unfold pair_step, neighbor_drop.
    assert (Hoff : (-1 <= fst (fst oc) <= 1)%Z /\ (-1 <= snd (fst oc) <= 1)%Z).
    { simpl in Hin.
      repeat (destruct Hin as [<- | Hin]; [simpl; lia|]). destruct Hin. }
    destruct (Hget (fst (fst oc)) (snd (fst oc))) as [[nb Hnb] [mb Hmb]];
      try tauto.
    rewrite Hnb. cbn [bind]. destruct (isnan nb); cbn [negb bind]; [eauto|].
    rewrite Hmb. cbn [bind]. destruct (mb =? 1)%Z; cbn [bind]; eauto.
  - rewrite Hst. cbn [bind]. eauto.
Qed.

Lemma interior_inner (rows cols i j : nat) :
  i < rows - 2 -> j < cols - 2 -> interior rows cols (S i) (S j) = true.
Proof.
  intros Hi Hj. unfold interior. repeat rewrite andb_true_iff.
  repeat split; (apply Nat.leb_le || apply Nat.ltb_lt); lia.
Qed.

Lemma calculate_flow_direction_ok (d : dtype) (w : ndarray spec_float)
    (mask : ndarray Z) :
  wf w -> wf mask -> nrows w <= nrows mask -> ncols w <= ncols mask ->
  exists flow_dir out,
    flow_dir_array d w mask = Ok flow_dir /\
    calculate_flow_direction d w mask = Ok out /\
    out = inner flow_dir /\
    shape out = (nrows w - 2, ncols w - 2) /\
    wf out /\
    (forall i j, i < nrows w - 2 -> j < ncols w - 2 ->
       exists code, cell_direction d w mask (S i) (S j) = Ok code /\
                    get out i j = Ok code) /\
    (forall r c, r < nrows w -> c < ncols w ->
       interior (nrows w) (ncols w) r c = false ->
       get flow_dir r c = Ok 0%Z).
Proof.
  intros Hw Hmask Hrows Hcols.
  destruct (tabulateM_total
              (fun r c => if interior (nrows w) (ncols w) r c
                          then cell_direction d w mask r c else Ok 0%Z)
              (nrows w) (ncols w)) as [flow_dir Hfd].
  { intros i j _ _.
    destruct (interior (nrows w) (ncols w) i j) eqn:Hint; [|eauto].
    apply cell_direction_total; assumption. }
  fold (flow_dir_array d w mask) in Hfd.
  destruct (tabulateM_inv _ _ _ _ Hfd) as (Hnr & Hnc & Hwf & Hcells).
  exists flow_dir, (inner flow_dir).
  split; [exact Hfd|].
  split; [unfold calculate_flow_direction; rewrite Hfd; reflexivity|].
  split; [reflexivity|].
  split; [unfold shape, inner; simpl; rewrite Hnr, Hnc; reflexivity|].
  split; [apply wf_inner; exact Hwf|].
  split.
  - intros i j Hi Hj.
    destruct (Hcells (S i) (S j)) as [v [Hv Hg]]; try lia.
    rewrite interior_inner in Hv by assumption.
    exists v. split; [exact Hv|].
    rewrite get_inner; [exact Hg | exact Hwf | lia | lia].
  - intros r c Hr Hc Hint.
    destruct (Hcells r c Hr Hc) as [v [Hv Hg]].
    rewrite Hint in Hv. congruence.
Qed.

(** *** C8 *)

(** C8. On a window of shape [rows x cols] with a mask of the same shape,
    the solver returns a grid of shape [(rows - 2) x (cols - 2)].  Its cell
    [(i, j)] is the code of the interior cell [(i + 1, j + 1)] of the
    window; the border cells of [flow_dir] are never written and stay 0, and
    the slice [1:-1, 1:-1] leaves them out of the result. *)
Theorem calculate_flow_direction_interior (d : dtype)
    (window_data : ndarray spec_float) (mask : ndarray Z) :
  wf window_data -> wf mask -> shape mask = shape window_data ->
  2 <= nrows window_data -> 2 <= ncols window_data ->
  exists flow_dir out,
    flow_dir_array d window_data mask = Ok flow_dir /\
    calculate_flow_direction d window_data mask = Ok out /\
    out = inner flow_dir /\
    shape out = (nrows window_data - 2, ncols window_data - 2) /\
    wf out /\
    (forall i j, i < nrows window_data - 2 -> j < ncols window_data - 2 ->
       exists code,
         cell_direction d window_data mask (S i) (S j) = Ok code /\
         get out i j = Ok code) /\
    (forall r c, r < nrows window_data -> c < ncols window_data ->
       interior (nrows window_data) (ncols window_data) r c = false ->
       get flow_dir r c = Ok 0%Z).
Proof.
  intros Hw Hmask Hshape _ _. unfold shape in Hshape.
  injection Hshape as Hr Hc.
  apply calculate_flow_direction_ok; try assumption; lia.
Qed.

(** *** C2 *)

(** C2, as the code has it.  For an interior cell with mask 1 and an
    elevation that is not NaN, the code in the result is that of the
    eligible neighbour whose elevation drop is the least among the drops
    with [0 < diff < +inf]; every positive drop of a neighbour visited
    before it in the order NW, N, NE, E, SE, S, SW, W is strictly larger, so
    an equal drop found later does not replace it.  The code is 0 when no
    eligible neighbour has a drop with [0 < diff < +inf]: a drop that is
    [+inf] is never selected. *)
Theorem flow_direction_least_finite_drop (d : dtype)
    (window_data : ndarray spec_float) (mask : ndarray Z) (r c : nat)
    (center : spec_float) :
  wf window_data -> wf mask -> shape mask = shape window_data ->
  interior (nrows window_data) (ncols window_data) r c = true ->
  get mask r c = Ok 1%Z ->
  get window_data r c = Ok center -> isnan center = false ->
  exists out code,
    calculate_flow_direction d window_data mask = Ok out /\
    get out (r - 1) (c - 1) = Ok code /\
    selects_least_finite_drop d window_data mask r c center code.
Proof.
  intros Hw Hmask Hshape Hint Hm Hc Hn. unfold shape in Hshape.
  injection Hshape as Hrows Hcols.
  destruct (calculate_flow_direction_ok d window_data mask) as
    (flow_dir & out & _ & Hout & _ & _ & _ & Hcells & _);
    try assumption; try lia.
  assert (Hrc : 1 <= r < nrows window_data - 1 /\
                1 <= c < ncols window_data - 1).
  { unfold interior in Hint. repeat rewrite andb_true_iff in Hint.
    destruct Hint as [[[H1 H2] H3] H4].
    apply Nat.leb_le in H1, H3. apply Nat.ltb_lt in H2, H4. lia. }
  destruct (Hcells (r - 1) (c - 1)) as [code [Hcode Hget]]; try lia.
  replace (S (r - 1)) with r in Hcode by lia.
  replace (S (c - 1)) with c in Hcode by lia.
  exists out, code. split; [exact Hout|]. split; [exact Hget|].
  destruct (cell_direction_scan d window_data mask r c center code
              Hm Hc Hn Hcode) as [min_diff Hinv].
  destruct Hinv as [[Hst Hno] | (before & off & code' & after & diff & Hs
                                 & Hd & Hp & Hfin & Hst & Hmin & Hbefore)].
  - left. inversion Hst. split; [reflexivity | exact Hno].
  - right. inversion Hst; subst code' min_diff.
    exists before, off, after, diff. repeat split; assumption.
Qed.

Lemma flow_direction_least_finite_drop_witness :
  exists out code,
    calculate_flow_direction float32 peak_window (ones 3 3) = Ok out /\
    get out 0 0 = Ok code /\
    selects_least_finite_drop float32 peak_window (ones 3 3) 1 1
      (of_int float32 10) code.
Proof.
  apply (flow_direction_least_finite_drop float32 peak_window (ones 3 3) 1 1
           (of_int float32 10)).
  - split; [reflexivity | repeat constructor].
  - apply wf_tabulate.
  - reflexivity.
  - reflexivity.
  - reflexivity.
  - reflexivity.
  - reflexivity.
Defined.

(** On [peak_window] the least drop, 1, is found first to the NW; the equal
    drop to the NE does not replace it. *)
Example peak_window_flows_north_west :
  calculate_flow_direction float32 peak_window (ones 3 3)
  = Ok (mk_ndarray 1 1 [[128%Z]]).
Proof. vm_compute. reflexivity. Qed.

(** A flat window has no direction. *)
Example flat_window_has_no_direction :
  calculate_flow_direction float32
    (tabulate 3 3 (fun _ _ => of_int float32 5)) (ones 3 3)
  = Ok (mk_ndarray 1 1 [[0%Z]]).
Proof. vm_compute. reflexivity. Qed.

(** C2, refuted as stated.  The centre of [overflow_window] has mask 1 and
    an elevation that is not NaN; its northern neighbour is eligible and is
    the only neighbour with a positive drop, so it is the neighbour of
    least positive drop and the claim gives the cell the code 1.  The drop
    overflows to [+inf], [diff < min_diff] is false, and the code is 0. *)
Lemma flow_direction_overflow_drop :
  get (ones 3 3) 1 1 = Ok 1%Z /\
  get overflow_window 1 1 = Ok (SFmax_float 24 128) /\
  neighbor_drop float32 overflow_window (ones 3 3) 1 1 (SFmax_float 24 128)
    (-1, 0)%Z = Ok (Some pinf) /\
  fgt pinf fzero = true /\
  (forall oc diff, In oc d8_neighbors ->
     neighbor_drop float32 overflow_window (ones 3 3) 1 1
       (SFmax_float 24 128) (fst oc) = Ok (Some diff) ->
     fgt diff fzero = true -> oc = ((-1, 0), 1)%Z) /\
  calculate_flow_direction float32 overflow_window (ones 3 3)
  = Ok (mk_ndarray 1 1 [[0%Z]]).
Proof.
  repeat split; try (vm_compute; reflexivity).
  intros oc diff Hin. simpl in Hin.
  repeat (destruct Hin as [<- | Hin];
          [vm_compute; intros H1 H2;
           first [reflexivity | discriminate
                 | inversion H1; subst diff; discriminate] |]).
  destruct Hin.
Qed.

(** The same in binary64, with the largest binary64 number. *)
Lemma flow_direction_overflow_drop_binary64 :
  let big := SFmax_float 53 1024 in
  let window := mk_ndarray 3 3 [[big; SFopp big; big];
                                [big; big; big];
                                [big; big; big]] in
  neighbor_drop float64 window (ones 3 3) 1 1 big (-1, 0)%Z
    = Ok (Some pinf) /\
  calculate_flow_direction float64 window (ones 3 3)
    = Ok (mk_ndarray 1 1 [[0%Z]]).
Proof. vm_compute. split; reflexivity. Qed.

Lemma calculate_flow_direction_interior_witness :
  exists flow_dir out,
    flow_dir_array float32 peak_window (ones 3 3) = Ok flow_dir /\
    calculate_flow_direction float32 peak_window (ones 3 3) = Ok out /\
    out = inner flow_dir /\
    shape out = (3 - 2, 3 - 2) /\
    wf out /\
    (forall i j, i < 3 - 2 -> j < 3 - 2 ->
       exists code,
         cell_direction float32 peak_window (ones 3 3) (S i) (S j) = Ok code /\
         get out i j = Ok code) /\
    (forall r c, r < 3 -> c < 3 -> interior 3 3 r c = false ->
       get flow_dir r c = Ok 0%Z).
Proof.
  apply (calculate_flow_direction_interior float32 peak_window (ones 3 3)).
  - split; [reflexivity | repeat constructor].
  - apply wf_tabulate.
  - reflexivity.
  - simpl. lia.
  - simpl. lia.
Defined.

(** ** calculate_flow_direction_parallel *)


Lemma In_firstn {A} (n : nat) (l : list A) (x : A) :
  In x (firstn n l) -> In x l.
Proof.
  intro H. rewrite <- (firstn_skipn n l). apply in_or_app. left. exact H.
Qed.

Lemma In_skipn {A} (n : nat) (l : list A) (x : A) :
  In x (skipn n l) -> In x l.
Proof.
  intro H. rewrite <- (firstn_skipn n l). apply in_or_app. right. exact H.
Qed.

Lemma wf_read_window {A} (src : ndarray A) (win : Window) :
  wf src -> wf (read_window src win).
Proof.
  intros [Hr Hc]. unfold wf, read_window. simpl. split.
  - rewrite length_map, length_firstn, length_skipn. lia.
  - apply Forall_forall. intros row Hin. apply in_map_iff in Hin.
    destruct Hin as [row' [<- Hin]].
    rewrite length_firstn, length_skipn.
    rewrite Forall_forall in Hc. rewrite (Hc row'); [reflexivity|].
    apply In_firstn in Hin. apply In_skipn in Hin. exact Hin.
Qed.





Lemma pool_results_mapM (d : dtype) (src : ndarray spec_float)
    (windows : list Window) (mask : ndarray Z) :
  pool_results d src windows mask
  = mapM (fun win => process_window d (win, read_window src win, mask))
         windows.
Proof.
  unfold pool_results. induction windows as [|win ws IH]; [reflexivity|].
  simpl. simpl in IH. rewrite IH. reflexivity.
Qed.


(** *** C1 *)




(** ** The radar pipeline *)

Section PipelineLemmas.

Variable path : Type.
Variable os_path_exists : path -> bool.
Variable crop_tiff_to_campania : path -> result unit.
Variable align_radar_to_dem : path -> result unit.
Variable process_tiff : path -> result (ndarray spec_float).
Variable raster_profile : path -> result (nat * nat).
Variable write_raster : nat * nat -> ndarray spec_float -> result unit.

Local Notation "'process_file'" :=
  (process_radar_file path crop_tiff_to_campania align_radar_to_dem
     process_tiff).
Local Notation "'loop'" :=
  (accumulate_loop path os_path_exists crop_tiff_to_campania
     align_radar_to_dem process_tiff).
Local Notation "'accumulated'" :=
  (calculate_accumulated_runoff path os_path_exists crop_tiff_to_campania
     align_radar_to_dem process_tiff raster_profile write_raster).
Local Notation "'save'" := (save_accumulated path raster_profile write_raster).

Lemma remove_fresh (name : nat) (l : list nat) :
  (forall n, In n l -> n < name) -> remove Nat.eq_dec name l = l.
Proof.
  intro H. apply notin_remove. intro Hin. apply H in Hin. lia.
Qed.

(** The value [process_radar_file] returns does not depend on the disk. *)
Lemma process_radar_file_value (file : path) (st st' : fs_state) :
  fst (process_file file st) = fst (process_file file st').
Proof.
  unfold process_radar_file, NamedTemporaryFile.
  destruct (crop_tiff_to_campania file); [|reflexivity].
  destruct (align_radar_to_dem file); [|reflexivity].
  destruct (process_tiff file); reflexivity.
Qed.

Lemma process_radar_file_skips (file : path) (st : fs_state) :
  (exists e, crop_tiff_to_campania file = Raise e) \/
  (exists e, align_radar_to_dem file = Raise e) ->
  fst (process_file file st) = None.
Proof.
  unfold process_radar_file, NamedTemporaryFile.
  intros [[e He] | [e He]].
  - rewrite He. reflexivity.
  - rewrite He. destruct (crop_tiff_to_campania file); reflexivity.
Qed.

Lemma accumulate_loop_value (files : list path)
    (acc : option (ndarray spec_float)) (ind : list (ndarray spec_float))
    (st st' : fs_state) :
  fst (loop files acc ind st) = fst (loop files acc ind st').
Proof.
  revert acc ind st st'. induction files as [|file rest IH];
    intros acc ind st st'; [reflexivity|].
  cbn [accumulate_loop].
  destruct (os_path_exists file); cbn [negb]; [|apply IH].
  assert (Hv := process_radar_file_value file st st').
  destruct (process_file file st) as [runoff st1].
  destruct (process_file file st') as [runoff' st1'].
  cbn [fst] in Hv. subst runoff'.
  destruct runoff as [runoff|]; [|apply IH].
  destruct acc as [acc|]; [|apply IH].
  destruct (shape_eqb (shape runoff) (shape acc)); cbn [negb];
    [apply IH | reflexivity].
Qed.

Lemma accumulate_loop_app (pre rest : list path)
    (acc : option (ndarray spec_float)) (ind : list (ndarray spec_float))
    (st : fs_state) :
  loop (pre ++ rest) acc ind st
  = match loop pre acc ind st with
    | (EarlyReturn ind', st') => (EarlyReturn ind', st')
    | (Completed acc' ind', st') => loop rest acc' ind' st'
    end.
Proof.
  revert acc ind st. induction pre as [|file pre IH]; intros acc ind st;
    [reflexivity|].
  cbn [app accumulate_loop].
  destruct (os_path_exists file); cbn [negb]; [|apply IH].
  destruct (process_file file st) as [runoff st1].
  destruct runoff as [runoff|]; [|apply IH].
  destruct acc as [acc|]; [|apply IH].
  destruct (shape_eqb (shape runoff) (shape acc)); cbn [negb];
    [apply IH | reflexivity].
Qed.

(** What a run returns and writes follows from how the loop ends and from
    the first radar file. *)
Lemma accumulated_value (files : list path) (st : fs_state) :
  returned (accumulated files st)
  = match fst (loop files None [] st) with
    | Completed acc ind =>
        match mapM print_stats ind, acc with
        | Raise e, _ => Raise e
        | Ok _, None => Ok None
        | Ok _, Some acc =>
            match save files acc with
            | Ok _ => Ok (Some acc)
            | Raise e => Raise e
            end
        end
    | EarlyReturn _ => Ok None
    end /\
  written (accumulated files st)
  = match fst (loop files None [] st) with
    | Completed acc ind =>
        match mapM print_stats ind, acc with
        | Ok _, Some acc =>
            match save files acc with
            | Ok saved => Some saved
            | Raise _ => None
            end
        | _, _ => None
        end
    | EarlyReturn _ => None
    end.
Proof.
  unfold calculate_accumulated_runoff.
  destruct (loop files None [] st) as [[acc ind|ind] st']; cbn [fst];
    [|split; reflexivity].
  destruct (mapM print_stats ind); [|split; reflexivity].
  destruct acc as [acc|]; [|split; reflexivity].
  destruct (save files acc); split; reflexivity.
Qed.

(** *** C6 *)

(** C6. When the loop has reached a file with a running total [acc], and
    that file is processed into a runoff grid whose shape differs from the
    shape of [acc], the whole accumulation returns [None] and writes no
    output, whatever files follow.  A file whose crop or alignment fails is
    only skipped: the run returns and writes what it would without that
    file. *)
Theorem accumulation_aborts_on_shape_mismatch
    (pre post : list path) (file : path) (st st1 st2 : fs_state)
    (acc runoff : ndarray spec_float) (ind : list (ndarray spec_float)) :
  loop pre None [] st = (Completed (Some acc) ind, st1) ->
  os_path_exists file = true ->
  process_file file st1 = (Some runoff, st2) ->
  shape_eqb (shape runoff) (shape acc) = false ->
  (returned (accumulated (pre ++ file :: post) st) = Ok None /\
   written (accumulated (pre ++ file :: post) st) = None)
  /\
  (forall skipped,
     (exists e, crop_tiff_to_campania skipped = Raise e) \/
     (exists e, align_radar_to_dem skipped = Raise e) ->
     returned (accumulated (pre ++ skipped :: post) st)
       = returned (accumulated (pre ++ post) st) /\
     written (accumulated (pre ++ skipped :: post) st)
       = written (accumulated (pre ++ post) st)).
Proof.
  intros Hpre Hex Hfile Hshape. split.
  - unfold calculate_accumulated_runoff.
    rewrite accumulate_loop_app, Hpre. cbn [accumulate_loop].
    rewrite Hex. cbn [negb]. rewrite Hfile, Hshape. cbn [negb].
    split; reflexivity.
  - intros skipped Hskip.
    assert (Hsame : fst (loop (pre ++ skipped :: post) None [] st)
                    = fst (loop (pre ++ post) None [] st)).
    { rewrite !accumulate_loop_app, Hpre. cbn [accumulate_loop].
      destruct (os_path_exists skipped); cbn [negb]; [|reflexivity].
      assert (Hnone := process_radar_file_skips skipped st1 Hskip).
      destruct (process_file skipped st1) as [r st3]. cbn [fst] in Hnone.
      subst r. apply accumulate_loop_value. }
    assert (Hfirst : forall a, save (pre ++ skipped :: post) a
                               = save (pre ++ post) a).
    { intro a. unfold save_accumulated.
      destruct pre as [|first pre']; [|reflexivity].
      cbn in Hpre. discriminate. }
    destruct (accumulated_value (pre ++ skipped :: post) st) as [R1 W1].
    destruct (accumulated_value (pre ++ post) st) as [R2 W2].
    rewrite W1, W2, R1, R2, Hsame.
    destruct (fst (loop (pre ++ post) None [] st)) as [[a|] i|i];
      try (split; reflexivity).
    rewrite Hfirst. split; reflexivity.
Qed.

(** *** C7 *)

(** On the success path both temporary files are removed: the disk holds
    the files it held before the call. *)
Lemma process_radar_file_success_cleans (file : path) (st : fs_state)
    (runoff : ndarray spec_float) :
  names_below_counter st ->
  crop_tiff_to_campania file = Ok tt ->
  align_radar_to_dem file = Ok tt ->
  process_tiff file = Ok runoff ->
  fst (process_file file st) = Some runoff /\
  temp_files (snd (process_file file st)) = temp_files st.
Proof.
  intros Hfresh Hcrop Halign Htiff.
  unfold process_radar_file, NamedTemporaryFile.
  rewrite Hcrop, Halign, Htiff. cbn [fst snd]. split; [reflexivity|].
  unfold os_remove. cbn [temp_files next_name].
  cbn [remove].
  destruct (Nat.eq_dec (next_name st) (S (next_name st))) as [E|_]; [lia|].
  destruct (Nat.eq_dec (next_name st) (next_name st)) as [_|N];
    [|congruence].
  rewrite (remove_fresh (next_name st)) by exact Hfresh.
  cbn [remove].
  destruct (Nat.eq_dec (S (next_name st)) (S (next_name st))) as [_|N];
    [|congruence].
  apply remove_fresh. intros n Hn. apply Hfresh in Hn. lia.
Qed.

(** C7, where the code misses it.  When the crop raises,
    [process_radar_file] returns [None] at once; the temporary file made
    for the crop is still on disk when the call, and with it the
    iteration, ends. *)
Theorem process_radar_file_leaks_on_crop_failure (file : path)
    (st : fs_state) (e : exn) :
  crop_tiff_to_campania file = Raise e ->
  fst (process_file file st) = None /\
  temp_files (snd (process_file file st)) = next_name st :: temp_files st.
Proof.
  intro Hcrop. unfold process_radar_file, NamedTemporaryFile.
  rewrite Hcrop. split; reflexivity.
Qed.

(** When the alignment or the runoff computation raises, both temporary
    files stay on disk. *)
Lemma process_radar_file_leaks_on_later_failure (file : path)
    (st : fs_state) :
  crop_tiff_to_campania file = Ok tt ->
  (exists e, align_radar_to_dem file = Raise e) \/
  (align_radar_to_dem file = Ok tt /\ exists e, process_tiff file = Raise e) ->
  fst (process_file file st) = None /\
  temp_files (snd (process_file file st))
  = S (next_name st) :: next_name st :: temp_files st.
Proof.
  intros Hcrop H. unfold process_radar_file, NamedTemporaryFile.
  rewrite Hcrop. destruct H as [[e He] | [Ha [e He]]].
  - rewrite He. split; reflexivity.
  - rewrite Ha, He. split; reflexivity.
Qed.

End PipelineLemmas.

Lemma accumulation_aborts_on_shape_mismatch_witness :
  (returned (calculate_accumulated_runoff nat demo_exists demo_crop demo_align
               demo_process_tiff demo_profile demo_write
               ([0; 1] ++ 2 :: [1]) empty_disk) = Ok None /\
   written (calculate_accumulated_runoff nat demo_exists demo_crop demo_align
              demo_process_tiff demo_profile demo_write
              ([0; 1] ++ 2 :: [1]) empty_disk) = None)
  /\
  (forall skipped,
     (exists e, demo_crop skipped = Raise e) \/
     (exists e, demo_align skipped = Raise e) ->
     returned (calculate_accumulated_runoff nat demo_exists demo_crop demo_align
                 demo_process_tiff demo_profile demo_write
                 ([0; 1] ++ skipped :: [1]) empty_disk)
       = returned (calculate_accumulated_runoff nat demo_exists demo_crop
                     demo_align demo_process_tiff demo_profile demo_write
                     ([0; 1] ++ [1]) empty_disk)
     /\
     written (calculate_accumulated_runoff nat demo_exists demo_crop demo_align
                demo_process_tiff demo_profile demo_write
                ([0; 1] ++ skipped :: [1]) empty_disk)
       = written (calculate_accumulated_runoff nat demo_exists demo_crop
                    demo_align demo_process_tiff demo_profile demo_write
                    ([0; 1] ++ [1]) empty_disk)).
Proof.
  apply (accumulation_aborts_on_shape_mismatch nat demo_exists demo_crop
           demo_align demo_process_tiff demo_profile demo_write
           [0; 1] [1] 2 empty_disk
           (mk_fs 3 [0]) (mk_fs 5 [0])
           (mk_ndarray 1 1 [[of_int float32 3]])
           (mk_ndarray 1 2 [[of_int float32 1; of_int float32 2]])
           [mk_ndarray 1 1 [[of_int float32 3]]]).
  - vm_compute. reflexivity.
  - reflexivity.
  - vm_compute. reflexivity.
  - reflexivity.
Defined.

Lemma process_radar_file_leaks_on_crop_failure_witness :
  fst (process_radar_file nat demo_crop demo_align demo_process_tiff 0
         empty_disk) = None /\
  temp_files (snd (process_radar_file nat demo_crop demo_align demo_process_tiff
                     0 empty_disk))
  = next_name empty_disk :: temp_files empty_disk.
Proof.
  apply (process_radar_file_leaks_on_crop_failure nat demo_crop demo_align
           demo_process_tiff 0 empty_disk ExternalError).
  reflexivity.
Defined.

(** ** normalize *)

Lemma get_map_array {A B} (f : A -> B) (g : ndarray A) (r c : nat) (x : A) :
  get g r c = Ok x -> get (map_array f g) r c = Ok (f x).
Proof.
  unfold get, map_array. cbn [rows_of]. intro H.
  rewrite nth_error_map.
  destruct (nth_error (rows_of g) r) as [row|]; [|discriminate].
  cbn [option_map]. rewrite nth_error_map.
  destruct (nth_error row c) as [y|]; [|discriminate].
  cbn [option_map]. congruence.
Qed.

Lemma map_array_ext_ravel {A B} (f h : A -> B) (P : A -> Prop)
    (g : ndarray A) :
  Forall P (ravel g) -> (forall x, P x -> f x = h x) ->
  map_array f g = map_array h g.
Proof.
  unfold ravel, map_array. intros HP Hfh. f_equal.
  induction (rows_of g) as [|row rows IH]; [reflexivity|].
  cbn [concat] in HP. apply Forall_app in HP. destruct HP as [Hrow Hrows].
  cbn [map]. f_equal; [|apply IH; exact Hrows].
  apply map_ext_in. intros x Hx. apply Hfh.
  rewrite Forall_forall in Hrow. apply Hrow. exact Hx.
Qed.

Lemma fold_left_minimum_const (v : spec_float) (l : list spec_float) :
  Forall (fun x => x = v) l -> fold_left minimum l v = v.
Proof.
  induction 1 as [|x l Hx _ IH]; [reflexivity|].
  cbn [fold_left]. subst x.
  replace (minimum v v) with v; [exact IH|].
  unfold minimum. destruct (fle v v || isnan v); reflexivity.
Qed.

Lemma fold_left_maximum_const (v : spec_float) (l : list spec_float) :
  Forall (fun x => x = v) l -> fold_left maximum l v = v.
Proof.
  induction 1 as [|x l Hx _ IH]; [reflexivity|].
  cbn [fold_left]. subst x.
  replace (maximum v v) with v; [exact IH|].
  unfold maximum. destruct (fle v v || isnan v); reflexivity.
Qed.

Lemma fsub_diag (d : dtype) (v : spec_float) :
  isfinite v = true -> fsub d v v = fzero.
Proof.
  destruct v as [[]| | |s m e]; intro H; try discriminate; try reflexivity.
  unfold fsub, SFsub. rewrite Z.sub_diag. reflexivity.
Qed.

Lemma eps_positive (d : dtype) :
  exists m e, eps d = S754_finite false m e.
Proof. destruct d; vm_compute; eauto. Qed.

Lemma normalize_cell_constant (d : dtype) (v : spec_float) :
  isfinite v = true -> normalize_cell d v v v = fzero.
Proof.
  intro H. unfold normalize_cell. rewrite (fsub_diag d v H).
  destruct (eps_positive d) as [m [e ->]]. reflexivity.
Qed.

(** *** C9 *)

(** C9, as the code has it.  For every non-empty grid whose cells all hold
    the same finite value, [normalize] returns the grid of the same shape
    whose cells are all [+0.0]. *)
Theorem normalize_constant_grid (d : dtype) (array : ndarray spec_float)
    (v : spec_float) :
  ravel array <> [] ->
  Forall (fun x => x = v) (ravel array) ->
  isfinite v = true ->
  normalize d array = Ok (map_array (fun _ => fzero) array) /\
  shape (map_array (fun _ : spec_float => fzero) array) = shape array.
Proof.
  intros Hne Hall Hfin. split; [|reflexivity].
  unfold normalize.
  destruct (ravel array) as [|x l] eqn:E; [congruence|].
  inversion Hall as [|x' l' Hx Hl]; subst x' l' x.
  unfold np_min, np_max.
  rewrite (fold_left_minimum_const v l Hl), (fold_left_maximum_const v l Hl).
  cbn [bind]. f_equal.
  apply map_array_ext_ravel with (P := fun x => x = v).
  - rewrite E. exact Hall.
  - intros x ->. apply normalize_cell_constant. exact Hfin.
Qed.

Lemma normalize_constant_grid_witness :
  normalize float32 constant_grid
    = Ok (map_array (fun _ => fzero) constant_grid) /\
  shape (map_array (fun _ : spec_float => fzero) constant_grid)
    = shape constant_grid.
Proof.
  apply (normalize_constant_grid float32 constant_grid (of_int float32 7)).
  - discriminate.
  - repeat constructor.
  - reflexivity.
Defined.

(** C9, refuted as stated.  Both cells of [infinite_grid] hold [+inf];
    [inf - inf] is NaN and so is every cell of the result. *)
Lemma normalize_constant_infinity :
  normalize float32 infinite_grid
    = Ok (mk_ndarray 1 2 [[S754_nan; S754_nan]]) /\
  normalize float64 infinite_grid
    = Ok (mk_ndarray 1 2 [[S754_nan; S754_nan]]).
Proof. vm_compute. split; reflexivity. Qed.

(** *** C10 *)

Lemma get_In_ravel {A} (g : ndarray A) (r c : nat) (x : A) :
  get g r c = Ok x -> In x (ravel g).
Proof.
  unfold get, ravel. intro H.
  destruct (nth_error (rows_of g) r) as [row|] eqn:Er; [|discriminate].
  destruct (nth_error row c) as [y|] eqn:Ec; [|discriminate].
  inversion H; subst y. apply in_concat. exists row.
  split; eapply nth_error_In; eassumption.
Qed.

Lemma normalize_cell_le_one (d : dtype) (lo hi x : spec_float) :
  valid d lo = true -> valid d hi = true -> valid d x = true ->
  isfinite lo = true -> isfinite hi = true -> isfinite x = true ->
  fle lo x = true -> fle x hi = true ->
  isnan (normalize_cell d lo hi x) = true \/
  fle (normalize_cell d lo hi x) (of_int d 1) = true.
Proof.
  intros Vl Vh Vx Fl Fh Fx Hlo Hhi.
  assert (Hp := prec_positive d).
  assert (Hlh : fle lo hi = true) by (eapply fle_trans; eassumption).
  unfold normalize_cell.
  set (n := fsub d x lo). set (R := fsub d hi lo).
  assert (Hn : fle fzero n = true)
    by (apply SFsub_not_negative; assumption).
  assert (HR : fle fzero R = true)
    by (apply SFsub_not_negative; assumption).
  assert (VR : valid d R = true) by (apply SFsub_valid; assumption).
  assert (Vn : valid d n = true) by (apply SFsub_valid; assumption).
  assert (HnR : fle n R = true) by (apply SFsub_mono; assumption).
  assert (HRd : fle R (fadd d R (eps d)) = true).
  { apply SFadd_ge_left; try assumption;
      [apply eps_valid | apply eps_nonneg]. }
  apply fdiv_le_one; try assumption.
  - apply SFadd_valid; [exact Hp | exact VR | apply eps_valid].
  - apply denominator_positive. exact HR.
  - eapply fle_trans; eassumption.
Qed.

(** C10, as the code has it.  On every non-empty grid of finite values of
    its dtype, [normalize] returns a grid of the same shape.  A cell that
    holds the minimum maps to exactly [+0.0].  Every cell maps into the
    closed interval from 0 to 1 or to NaN: to a value [>= 0] and [<= 1]
    when its difference to the minimum does not overflow, and to NaN when
    it does.  (That the values stay below 1 does not hold: the maximum can
    map to exactly 1.) *)
Theorem normalize_finite_grid (d : dtype) (array : ndarray spec_float) :
  ravel array <> [] -> finite_grid d array ->
  exists lo hi out,
    np_min (ravel array) = Ok lo /\
    np_max (ravel array) = Ok hi /\
    normalize d array = Ok out /\
    shape out = shape array /\
    forall r c x, get array r c = Ok x ->
      exists y,
        get out r c = Ok y /\
        (x = lo -> y = fzero) /\
        (isnan y = true \/
         (fle fzero y = true /\ fle y (of_int d 1) = true)) /\
        (isfinite (fsub d x lo) = true ->
         fle fzero y = true /\ fle y (of_int d 1) = true) /\
        (isfinite (fsub d x lo) = false -> isnan y = true).
Proof.
  intros Hne Hfin. unfold finite_grid in Hfin.
  destruct (ravel array) as [|x0 l] eqn:E; [congruence|].
  assert (Hnan : Forall (fun x => isnan x = false) (x0 :: l)).
  { eapply Forall_impl; [|exact Hfin].
    intros a [_ Ha]. apply isfinite_not_nan, Ha. }
  inversion Hnan as [|x0' l' Hx0 Hl]; subst x0' l'.
  destruct (fold_left_minimum_spec l x0 Hx0 Hl) as (Hlo_in & Hlo_x0 & Hlo_all).
  destruct (fold_left_maximum_spec l x0 Hx0 Hl) as (Hhi_in & Hhi_x0 & Hhi_all).
  cbn zeta in *.
  set (lo := fold_left minimum l x0) in *.
  set (hi := fold_left maximum l x0) in *.
  rewrite Forall_forall in Hfin.
  destruct (Hfin lo Hlo_in) as [Vlo Flo].
  destruct (Hfin hi Hhi_in) as [Vhi Fhi].
  assert (Hle_all : forall x, In x (x0 :: l) -> fle lo x = true).
  { intros x [<- | Hx]; [exact Hlo_x0 | apply Hlo_all, Hx]. }
  assert (Hge_all : forall x, In x (x0 :: l) -> fle x hi = true).
  { intros x [<- | Hx]; [exact Hhi_x0 | apply Hhi_all, Hx]. }
  assert (Hden : strictly_positive (fadd d (fsub d hi lo) (eps d)) = true).
  { apply denominator_positive.
    apply SFsub_not_negative; try assumption; [apply prec_positive|].
    apply Hle_all, Hhi_in. }
  exists lo, hi, (map_array (normalize_cell d lo hi) array).
  split; [reflexivity|]. split; [reflexivity|].
  split; [unfold normalize; rewrite E; reflexivity|].
  split; [reflexivity|].
  intros r c x Hget.
  exists (normalize_cell d lo hi x).
  split; [apply (get_map_array (normalize_cell d lo hi) array r c x Hget)|].
  assert (Hx_in : In x (x0 :: l)).
  { rewrite <- E. eapply get_In_ravel; eassumption. }
  destruct (Hfin x Hx_in) as [Vx Fx].
  assert (Hnum : fle fzero (fsub d x lo) = true).
  { apply SFsub_not_negative; try assumption; [apply prec_positive|].
    apply Hle_all, Hx_in. }
  assert (Hone := normalize_cell_le_one d lo hi x Vlo Vhi Vx Flo Fhi Fx
                    (Hle_all x Hx_in) (Hge_all x Hx_in)).
  unfold normalize_cell in *.
  destruct (fdiv_not_negative d (fsub d x lo)
              (fadd d (fsub d hi lo) (eps d)) Hnum Hden) as [H1 H2].
  assert (Hnn : forall y, fle fzero y = true -> isnan y = true -> False).
  { intros y Hy Hn. destruct y; discriminate. }
  split; [|split; [|split]].
  - intros ->. rewrite (fsub_diag d lo Flo).
    apply fdiv_zero_positive, Hden.
  - destruct H1 as [H1 | H1]; [left; exact H1 | right].
    split; [exact H1|]. destruct Hone as [Hn | Hle]; [|exact Hle].
    exfalso. eapply Hnn; eassumption.
  - intro Hf. specialize (H2 Hf). split; [exact H2|].
    destruct Hone as [Hn | Hle]; [|exact Hle].
    exfalso. eapply Hnn; eassumption.
  - intro Hinf.
    assert (Hmono : fle (fsub d x lo) (fsub d hi lo) = true).
    { apply SFsub_mono; try assumption; [apply prec_positive | |].
      - apply Hle_all, Hx_in.
      - apply Hge_all, Hx_in. }
    destruct (nonneg_cases _ Hnum) as [[s En] | [En | (mn & en & En)]];
      rewrite En in Hinf; try discriminate.
    rewrite En in Hmono |- *.
    destruct (fsub d hi lo) as [s|[]| |s m e]; try discriminate.
    destruct (eps_positive d) as [m [e ->]]. reflexivity.
Qed.

Lemma normalize_finite_grid_witness :
  exists lo hi out,
    np_min (ravel codes_grid) = Ok lo /\
    np_max (ravel codes_grid) = Ok hi /\
    normalize float32 codes_grid = Ok out /\
    shape out = shape codes_grid /\
    forall r c x, get codes_grid r c = Ok x ->
      exists y,
        get out r c = Ok y /\
        (x = lo -> y = fzero) /\
        (isnan y = true \/
         (fle fzero y = true /\ fle y (of_int float32 1) = true)) /\
        (isfinite (fsub float32 x lo) = true ->
         fle fzero y = true /\ fle y (of_int float32 1) = true) /\
        (isfinite (fsub float32 x lo) = false -> isnan y = true).
Proof.
  apply (normalize_finite_grid float32 codes_grid).
  - discriminate.
  - repeat constructor.
Defined.

(** C10, refuted as stated.  On the binary32 grid [0, 64, 128] the
    denominator [128 + 1e-6] rounds to 128, and the cell that holds the
    maximum maps to exactly 1. *)
Lemma normalize_reaches_one :
  normalize float32 codes_grid
  = Ok (mk_ndarray 1 3 [[fzero; of_ratio float32 1 2; of_int float32 1]]).
Proof. vm_compute. reflexivity. Qed.

(** In binary64 the same happens from a range of [2^34] on. *)
Lemma normalize_reaches_one_binary64 :
  normalize float64
    (mk_ndarray 1 2 [[of_int float64 0; of_int float64 (2 ^ 34)]])
  = Ok (mk_ndarray 1 2 [[fzero; of_int float64 1]]).
Proof. vm_compute. reflexivity. Qed.

(** On a finite grid whose range overflows, the cell that holds the maximum
    maps to NaN. *)
Lemma normalize_range_overflow :
  normalize float32
    (mk_ndarray 1 2 [[SFopp (SFmax_float 24 128); SFmax_float 24 128]])
  = Ok (mk_ndarray 1 2 [[fzero; S754_nan]]).
Proof. vm_compute. reflexivity. Qed.

(** ** compute_runoff: the cells without runoff *)

(** A cell whose precipitation is not a positive number has no runoff: the
    threshold [0.2 S] is never negative. *)
Lemma runoff_cell_dry (d : dtype) (p cn : spec_float) (m : Z) :
  m = 0%Z \/ m = 1%Z -> strictly_positive p = false ->
  runoff_cell d p cn m = fzero.
Proof.
  intros [-> | ->] Hp; [apply runoff_cell_mask_zero|].
  unfold runoff_cell. cbv zeta.
  change ((1 =? 0)%Z) with false. change ((1 =? 1)%Z) with true.
  rewrite orb_false_r, andb_true_r.
  set (S := maximum _ fzero).
  destruct (literal_sign_clear d) as [[H15 F15] _].
  destruct (fgt p (fmul d (of_ratio d 1 5) S)) eqn:Hvalid; [|reflexivity].
  unfold fgt in Hvalid. apply above_not_below_zero in Hvalid.
  - congruence.
  - apply SFmul_not_below_zero; try assumption.
    apply maximum_zero_not_below_zero.
Qed.

(** A NaN curve number makes the retention NaN, and no precipitation
    compares above NaN. *)
Lemma runoff_cell_nan_curve_number (d : dtype) (p : spec_float) (m : Z) :
  m = 0%Z \/ m = 1%Z -> runoff_cell d p S754_nan m = fzero.
Proof.
  intros [-> | ->]; [apply runoff_cell_mask_zero|].
  unfold runoff_cell. cbv zeta.
  change ((1 =? 0)%Z) with false. change ((1 =? 1)%Z) with true.
  change (fle S754_nan fzero) with false. cbn [orb].
  rewrite andb_true_r.
  assert (Ht : fmul d (of_ratio d 1 5)
                 (maximum (fsub d (fdiv d (of_int d 1000) S754_nan)
                                  (of_int d 10)) fzero) = S754_nan)
    by (destruct d; reflexivity).
  rewrite Ht. unfold fgt. reflexivity.
Qed.

(** X1.  Where the precipitation is zero, negative or NaN, and where the
    curve number is NaN, [compute_runoff] returns exactly 0 under a 0/1
    mask: a NaN of the inputs never reaches the result through these cells. *)
Theorem compute_runoff_zero_without_rain (d : dtype)
    (precipitation cn_map : ndarray spec_float) (mask : ndarray Z)
    (out : ndarray spec_float) (r c : nat) (x : spec_float) :
  Forall (Forall (fun m => m = 0 \/ m = 1)%Z) (rows_of mask) ->
  compute_runoff d precipitation cn_map mask = Ok out ->
  get out r c = Ok x ->
  strictly_positive (bget S754_nan precipitation r c) = false \/
  isnan (bget S754_nan cn_map r c) = true ->
  x = fzero.
Proof.
  intros Hmask H Hx Hdry.
  rewrite (compute_runoff_cell d _ _ _ _ _ _ _ H Hx).
  pose proof (bget_zero_one mask r c Hmask) as Hm.
  destruct Hdry as [Hp | Hcn].
  - apply runoff_cell_dry; assumption.
  - destruct (bget S754_nan cn_map r c); try discriminate.
    apply runoff_cell_nan_curve_number; assumption.
Qed.

Lemma compute_runoff_zero_without_rain_witness :
  compute_runoff float32 broadcast_example_precipitation broadcast_example_cn
    broadcast_example_mask = Ok broadcast_example_out /\
  get broadcast_example_out 1 1 = Ok (S754_zero false) /\
  strictly_positive (bget S754_nan broadcast_example_precipitation 1 1)
    = false /\
  S754_zero false = fzero.
Proof.
  assert (H : compute_runoff float32 broadcast_example_precipitation
                broadcast_example_cn broadcast_example_mask
              = Ok broadcast_example_out) by (vm_compute; reflexivity).
  assert (Hx : get broadcast_example_out 1 1 = Ok (S754_zero false))
    by reflexivity.
  assert (Hp : strictly_positive
                 (bget S754_nan broadcast_example_precipitation 1 1) = false)
    by reflexivity.
  split; [exact H | split; [exact Hx | split; [exact Hp|]]].
  apply (compute_runoff_zero_without_rain float32
           broadcast_example_precipitation broadcast_example_cn
           broadcast_example_mask broadcast_example_out 1 1 _).
  - unfold broadcast_example_mask. simpl.
    repeat (first [right; reflexivity | constructor]).
  - exact H.
  - exact Hx.
  - left. exact Hp.
Defined.

(** [a < b <= c] gives [a < c]. *)
Lemma flt_fle_trans (a b c : spec_float) :
  flt a b = true -> fle b c = true -> flt a c = true.
Proof.
  unfold flt, fle. rewrite !SFltb_order_key, SFleb_order_key.
  intros (Ha & Hb & Hab) (_ & Hc & Hbc). repeat split; try assumption.
  destruct (order_key a) as [[a1 a2] a3], (order_key b) as [[b1 b2] b3],
           (order_key c) as [[c1 c2] c3].
  simpl in *.
  destruct Hbc as [Hbc | Hbc]; [|inversion Hbc; subst]; lia.
Qed.

(** The threshold [0.2 S] of a cell whose curve number was replaced by
    [1e-6] lies above [10^8]. *)
Lemma degenerate_threshold (d : dtype) :
  flt (fmul d (of_ratio d 1 5)
         (maximum (fsub d (fdiv d (of_int d 1000) (eps d)) (of_int d 10))
                  fzero))
      (of_int d (10 ^ 8)) = false.
Proof. destruct d; reflexivity. Qed.

Lemma runoff_cell_degenerate (d : dtype) (p cn : spec_float) (m : Z) :
  m = 0%Z \/ m = 1%Z -> fle cn fzero = true ->
  fle p (of_int d (10 ^ 8)) = true ->
  runoff_cell d p cn m = fzero.
Proof.
  intros [-> | ->] Hcn Hp; [apply runoff_cell_mask_zero|].
  unfold runoff_cell. cbv zeta. rewrite Hcn. cbn [orb].
  change ((1 =? 0)%Z) with false. change ((1 =? 1)%Z) with true.
  rewrite andb_true_r. fold (eps d).
  set (t2 := fmul d (of_ratio d 1 5) _).
  destruct (fgt p t2) eqn:Hvalid; [|reflexivity].
  unfold fgt in Hvalid.
  pose proof (flt_fle_trans t2 p _ Hvalid Hp) as Hlt.
  unfold t2 in Hlt. rewrite degenerate_threshold in Hlt. discriminate.
Qed.

(** X2.  Where the curve number is zero or negative the code computes with
    [1e-6] in its place; the retention is then so large that the cell has no
    runoff for any precipitation up to [10^8]. *)
Theorem compute_runoff_zero_without_curve_number (d : dtype)
    (precipitation cn_map : ndarray spec_float) (mask : ndarray Z)
    (out : ndarray spec_float) (r c : nat) (x : spec_float) :
  Forall (Forall (fun m => m = 0 \/ m = 1)%Z) (rows_of mask) ->
  compute_runoff d precipitation cn_map mask = Ok out ->
  get out r c = Ok x ->
  fle (bget S754_nan cn_map r c) fzero = true ->
  fle (bget S754_nan precipitation r c) (of_int d (10 ^ 8)) = true ->
  x = fzero.
Proof.
  intros Hmask H Hx Hcn Hp.
  rewrite (compute_runoff_cell d _ _ _ _ _ _ _ H Hx).
  apply runoff_cell_degenerate; try assumption.
  apply bget_zero_one, Hmask.
Qed.

Lemma compute_runoff_zero_without_curve_number_witness :
  compute_runoff float32 sea_example_precipitation no_curve_number
    (ones 1 2) = Ok (mk_ndarray 1 2 [[fzero; fzero]]) /\
  fle (bget S754_nan no_curve_number 0 1) fzero = true /\
  fle (bget S754_nan sea_example_precipitation 0 1)
      (of_int float32 (10 ^ 8)) = true /\
  fzero = fzero.
Proof.
  assert (H : compute_runoff float32 sea_example_precipitation
                no_curve_number (ones 1 2)
              = Ok (mk_ndarray 1 2 [[fzero; fzero]]))
    by (vm_compute; reflexivity).
  split; [exact H | split; [reflexivity | split; [reflexivity|]]].
  apply (compute_runoff_zero_without_curve_number float32
           sea_example_precipitation no_curve_number (ones 1 2)
           (mk_ndarray 1 2 [[fzero; fzero]]) 0 1 fzero).
  - simpl. repeat (first [right; reflexivity | constructor]).
  - exact H.
  - reflexivity.
  - reflexivity.
  - reflexivity.
Defined.

(** ** calculate_flow_direction: codes, slopes and masks that are too small *)

(** A cell of the result is the code of an interior cell of the window. *)
Lemma calculate_flow_direction_cell (d : dtype) (w : ndarray spec_float)
    (mask : ndarray Z) (out : ndarray Z) (i j : nat) (code : Z) :
  calculate_flow_direction d w mask = Ok out -> get out i j = Ok code ->
  i < nrows w - 2 /\ j < ncols w - 2 /\
  cell_direction d w mask (S i) (S j) = Ok code.
Proof.
  unfold calculate_flow_direction. intros H Hg.
  destruct (flow_dir_array d w mask) as [fd|] eqn:Hfd; [|discriminate].
  cbn [bind] in H. inversion H; subst out. unfold flow_dir_array in Hfd.
  destruct (tabulateM_inv _ _ _ _ Hfd) as (Hnr & Hnc & Hwf & Hcells).
  destruct (get_in_range _ _ _ _ (wf_inner fd Hwf) Hg) as [Hi Hj].
  cbn [inner nrows ncols] in Hi, Hj. rewrite Hnr in Hi. rewrite Hnc in Hj.
  rewrite get_inner in Hg by (assumption || lia).
  destruct (Hcells (S i) (S j)) as [v [Hv Hgv]]; try lia.
  rewrite interior_inner in Hv by assumption.
  split; [exact Hi | split; [exact Hj | congruence]].
Qed.

Lemma foldM_invariant {A S} (P : S -> Prop) (f : S -> A -> result S)
    (l : list A) (s s' : S) :
  P s -> (forall s a s', In a l -> P s -> f s a = Ok s' -> P s') ->
  foldM f l s = Ok s' -> P s'.
Proof.
  revert s. induction l as [|a l IH]; simpl; intros s Hs Hf H.
  - inversion H; subst. exact Hs.
  - destruct (f s a) as [s1|] eqn:E; [|discriminate]. cbn [bind] in H.
    apply IH with (s := s1); [|intros; eapply Hf; eauto|exact H].
    apply (Hf s a s1); auto.
Qed.

Lemma neighbor_step_code (d : dtype) (w : ndarray spec_float)
    (mask : ndarray Z) (r c : nat) (center : spec_float)
    (st st' : spec_float * Z) (io : nat * (Z * Z)) :
  In (snd st) (0%Z :: D8_VALUES) ->
  neighbor_step d w mask r c center st io = Ok st' ->
  In (snd st') (0%Z :: D8_VALUES).
Proof.
  intros Hst H. destruct io as [i [dr dc]]. unfold neighbor_step in H.
  destruct (get w (shift r dr) (shift c dc)) as [nb|]; [|discriminate].
  cbn [bind] in H.
  destruct (isnan nb); cbn [negb] in H; [inversion H; subst; exact Hst|].
  destruct (get mask (shift r dr) (shift c dc)) as [m|]; [|discriminate].
  cbn [bind] in H.
  destruct (m =? 1)%Z; [|inversion H; subst; exact Hst].
  assert (Hnth : In (nth i D8_VALUES 0%Z) (0%Z :: D8_VALUES)).
  { destruct (nth_in_or_default i D8_VALUES 0%Z) as [Hin | ->];
      [right; exact Hin | left; reflexivity]. }
  destruct (fgt (fsub d center nb) fzero && flt (fsub d center nb) (fst st));
    inversion H; subst; [exact Hnth | exact Hst].
Qed.

(** X3.  Every code of the result is 0 or one of the eight D8 values,
    whatever the elevations and the mask hold. *)
Theorem flow_direction_codes_are_d8 (d : dtype)
    (window_data : ndarray spec_float) (mask : ndarray Z) (out : ndarray Z)
    (i j : nat) (code : Z) :
  calculate_flow_direction d window_data mask = Ok out ->
  get out i j = Ok code ->
  In code (0%Z :: D8_VALUES).
Proof.
  intros H Hg.
  destruct (calculate_flow_direction_cell d _ _ _ _ _ _ H Hg)
    as (_ & _ & Hcell).
  unfold cell_direction in Hcell.
  destruct (get mask (S i) (S j)) as [m|]; [|discriminate].
  cbn [bind] in Hcell.
  destruct (m =? 0)%Z; [inversion Hcell; left; reflexivity|].
  destruct (get window_data (S i) (S j)) as [center|]; [|discriminate].
  cbn [bind] in Hcell.
  destruct (isnan center); [inversion Hcell; left; reflexivity|].
  destruct (foldM _ _ _) as [st|] eqn:E; [|discriminate].
  cbn [bind] in Hcell. inversion Hcell; subst code.
  apply (foldM_invariant (fun st => In (snd st) (0%Z :: D8_VALUES))) in E;
    [exact E | left; reflexivity|].
  intros s a s' _ Hs Hstep. eapply neighbor_step_code; eassumption.
Qed.

Lemma flow_direction_codes_are_d8_witness :
  calculate_flow_direction float32 peak_window (ones 3 3)
    = Ok (mk_ndarray 1 1 [[128%Z]]) /\
  In 128%Z (0%Z :: D8_VALUES).
Proof.
  assert (H : calculate_flow_direction float32 peak_window (ones 3 3)
              = Ok (mk_ndarray 1 1 [[128%Z]])) by (vm_compute; reflexivity).
  split; [exact H|].
  apply (flow_direction_codes_are_d8 float32 peak_window (ones 3 3)
           (mk_ndarray 1 1 [[128%Z]]) 0 0 128%Z H).
  reflexivity.
Defined.

(** *** The sign of a difference *)

Section SignsOfDifferences.

Variables p em : Z.
Hypothesis Hp : (0 < p)%Z.

Lemma binary_round_aux_not_positive (m ex : Z) (l : location) :
  strictly_positive (binary_round_aux p em true m ex l) = false.
Proof.
  unfold binary_round_aux.
  destruct (shr_fexp p em m ex l) as [mrs' e'].
  destruct (shr_fexp p em _ e' loc_Exact) as [mrs'' e''].
  destruct (shr_m mrs''); [reflexivity | | reflexivity].
  destruct (Z.leb e'' (em - p)); reflexivity.
Qed.

Lemma binary_normalize_not_positive (D e : Z) :
  (D <= 0)%Z ->
  strictly_positive (binary_normalize p em D e false) = false.
Proof.
  intro HD. destruct D as [|q|q]; try lia; [reflexivity|].
  cbn [binary_normalize]. unfold binary_round.
  destruct (shl_align _ _ _) as [mz ez].
  apply binary_round_aux_not_positive.
Qed.

(** The difference of two finite values of the format is not positive when
    the first is not above the second. *)
Lemma SFsub_not_positive (x y : spec_float) :
  valid_binary p em x = true -> valid_binary p em y = true ->
  isfinite x = true -> isfinite y = true ->
  SFleb x y = true ->
  strictly_positive (SFsub p em x y) = false.
Proof.
  intros Vx Vy Fx Fy Hle.
  destruct x as [sx| | |sx mx ex]; try discriminate;
    destruct y as [sy| | |sy my ey]; try discriminate.
  - destruct sx, sy; reflexivity.
  - destruct sy; [discriminate | reflexivity].
  - destruct sx; [reflexivity | discriminate].
  - cbn [valid_binary] in Vx, Vy. unfold bounded in Vx, Vy.
    apply andb_true_iff in Vx, Vy. destruct Vx as [Cx _], Vy as [Cy _].
    unfold SFsub. apply binary_normalize_not_positive.
    unfold SFleb, SFcompare in Hle.
    change (Pos.compare_cont Eq mx my) with (Pos.compare mx my) in Hle.
    destruct sx, sy; cbn [cond_Zopp negb]; try discriminate; try lia.
    + (* both negative *)
      assert (Hord : (ey < ex)%Z \/ (ey = ex /\ (my <= mx)%positive)).
      { destruct (Z.compare_spec ex ey); try discriminate;
          [right | left; lia].
        split; [lia|]. destruct (Pos.compare_spec mx my);
          try discriminate; lia. }
      assert (H := aligned_le p em Hp my ey mx ex Cy Cx Hord).
      rewrite Z.min_comm in H. lia.
    + (* both positive *)
      assert (Hord : (ex < ey)%Z \/ (ex = ey /\ (mx <= my)%positive)).
      { destruct (Z.compare_spec ex ey); try discriminate;
          [right | left; lia].
        split; [lia|]. destruct (Pos.compare_spec mx my);
          try discriminate; lia. }
      assert (H := aligned_le p em Hp mx ex my ey Cx Cy Hord). lia.
Qed.

(** A positive and finite difference has finite operands. *)
Lemma SFsub_finite_positive (x y : spec_float) :
  SFltb fzero (SFsub p em x y) = true ->
  SFltb (SFsub p em x y) pinf = true ->
  isfinite x = true /\ isfinite y = true.
Proof.
  destruct x as [sx|sx| |sx mx ex], y as [sy|sy| |sy my ey];
    try (split; reflexivity);
    try destruct sx; try destruct sy; cbn; intros H1 H2;
    try discriminate.
Qed.

End SignsOfDifferences.

Lemma flt_false_fle (a b : spec_float) :
  isnan a = false -> isnan b = false -> flt a b = false -> fle b a = true.
Proof.
  intros Ha Hb H. destruct (fle b a) eqn:E; [reflexivity|]. exfalso.
  assert (Hlt : ~ flt a b = true) by congruence.
  assert (Hle : ~ fle b a = true) by congruence.
  unfold flt in Hlt. unfold fle in Hle.
  rewrite SFltb_order_key in Hlt. rewrite SFleb_order_key in Hle.
  destruct (order_key a) as [[a1 a2] a3], (order_key b) as [[b1 b2] b3].
  simpl in Hlt, Hle.
  assert (Hne : ~ (b1 = a1 /\ b2 = a2 /\ b3 = a3))
    by (intros (-> & -> & ->); apply Hle; auto).
  assert (Hlt' : ~ (a1 < b1 \/ a1 = b1 /\ (a2 < b2 \/ a2 = b2 /\ a3 < b3))%Z)
    by (intro; apply Hlt; auto).
  apply Hle. repeat split; try assumption. left. lia.
Qed.

(** A drop that the scan can select, positive and finite, goes to a
    neighbour that is strictly lower than the cell. *)
Lemma positive_drop_lower (d : dtype) (center neighbor : spec_float) :
  valid d center = true -> valid d neighbor = true ->
  fgt (fsub d center neighbor) fzero = true ->
  flt (fsub d center neighbor) pinf = true ->
  flt neighbor center = true.
Proof.
  intros Vc Vn Hpos Hfin.
  destruct (SFsub_finite_positive _ _ _ _ Hpos Hfin) as [Fc Fn].
  destruct (flt neighbor center) eqn:E; [reflexivity|]. exfalso.
  apply flt_false_fle in E; try (apply isfinite_not_nan; assumption).
  pose proof (SFsub_not_positive (prec d) (emax d) (prec_positive d)
                center neighbor Vc Vn Fc Fn E) as Hneg.
  unfold fgt in Hpos. apply above_not_below_zero in Hpos; [|reflexivity].
  unfold fsub in Hpos. congruence.
Qed.

Lemma get_dtype_grid (d : dtype) (g : ndarray spec_float) (r c : nat)
    (x : spec_float) :
  dtype_grid d g -> get g r c = Ok x -> valid d x = true.
Proof.
  unfold dtype_grid, get. intros H Hg.
  destruct (nth_error (rows_of g) r) as [row|] eqn:Er; [|discriminate].
  destruct (nth_error row c) as [y|] eqn:Ec; [|discriminate].
  inversion Hg; subst y.
  rewrite Forall_forall in H. pose proof (H row (nth_error_In _ _ Er)) as Hrow.
  rewrite Forall_forall in Hrow. apply Hrow. eapply nth_error_In, Ec.
Qed.

(** X4.  Water flows downhill.  On a window of values of its dtype, a code
    other than 0 is the D8 code of a neighbour of the cell that is marked 1
    in the mask and whose elevation is strictly below the cell's: the solver
    never points to a higher, an equal, a NaN or a masked neighbour. *)
Theorem flow_direction_points_downhill (d : dtype)
    (window_data : ndarray spec_float) (mask : ndarray Z) (out : ndarray Z)
    (i j : nat) (code : Z) :
  dtype_grid d window_data ->
  calculate_flow_direction d window_data mask = Ok out ->
  get out i j = Ok code -> code <> 0%Z ->
  exists off center neighbor,
    In (off, code) d8_neighbors /\
    get window_data (S i) (S j) = Ok center /\
    get window_data (shift (S i) (fst off)) (shift (S j) (snd off))
      = Ok neighbor /\
    get mask (shift (S i) (fst off)) (shift (S j) (snd off)) = Ok 1%Z /\
    flt neighbor center = true.
Proof.
  intros Hvalid H Hg Hcode.
  destruct (calculate_flow_direction_cell d _ _ _ _ _ _ H Hg)
    as (_ & _ & Hcell).
  unfold cell_direction in Hcell.
  destruct (get mask (S i) (S j)) as [m|]; [|discriminate].
  cbn [bind] in Hcell.
  destruct (m =? 0)%Z; [inversion Hcell; congruence|].
  destruct (get window_data (S i) (S j)) as [center|] eqn:Hc; [|discriminate].
  cbn [bind] in Hcell.
  destruct (isnan center); [inversion Hcell; congruence|].
  rewrite scan_d8 in Hcell.
  destruct (foldM _ _ _) as [[min_diff min_dir]|] eqn:E; [|discriminate].
  cbn [bind snd] in Hcell. inversion Hcell; subst min_dir.
  pose proof (scan_inv_fold d window_data mask (S i) (S j) center
                d8_neighbors [] (pinf, 0%Z) _
                (scan_inv_nil d window_data mask (S i) (S j) center) E)
    as Hinv.
  cbn [app] in Hinv.
  destruct Hinv as [[Hst _] | (before & off & code' & after & diff & Hs
                               & Hd & Hp & Hfin & Hst & _ & _)].
  { inversion Hst. congruence. }
  inversion Hst; subst code' min_diff.
  unfold neighbor_drop in Hd.
  destruct (get window_data (shift (S i) (fst off)) (shift (S j) (snd off)))
    as [nb|] eqn:Hnb; [|discriminate].
  cbn [bind] in Hd. destruct (isnan nb); [discriminate|]. cbn [negb] in Hd.
  destruct (get mask (shift (S i) (fst off)) (shift (S j) (snd off)))
    as [mb|] eqn:Hmb; [|discriminate].
  cbn [bind] in Hd. destruct (mb =? 1)%Z eqn:Hone; [|discriminate].
  apply Z.eqb_eq in Hone. subst mb. inversion Hd; subst diff.
  exists off, center, nb.
  split; [rewrite Hs; apply in_elt|].
  split; [reflexivity|]. split; [exact Hnb|]. split; [exact Hmb|].
  apply (positive_drop_lower d); try assumption.
  - eapply get_dtype_grid; eassumption.
  - eapply get_dtype_grid; eassumption.
Qed.

Lemma flow_direction_points_downhill_witness :
  exists off center neighbor,
    In (off, 128%Z) d8_neighbors /\
    get peak_window 1 1 = Ok center /\
    get peak_window (shift 1 (fst off)) (shift 1 (snd off)) = Ok neighbor /\
    get (ones 3 3) (shift 1 (fst off)) (shift 1 (snd off)) = Ok 1%Z /\
    flt neighbor center = true.
Proof.
  apply (flow_direction_points_downhill float32 peak_window (ones 3 3)
           (mk_ndarray 1 1 [[128%Z]]) 0 0 128%Z).
  - unfold dtype_grid. simpl. repeat constructor.
  - vm_compute. reflexivity.
  - reflexivity.
  - discriminate.
Defined.

(** *** A mask smaller than the window *)

Lemma get_raises_IndexError {A} (g : ndarray A) (r c : nat) (e : exn) :
  get g r c = Raise e -> e = IndexError.
Proof.
  unfold get. destruct (nth_error (rows_of g) r) as [row|];
    [destruct (nth_error row c)|]; congruence.
Qed.

Lemma get_out_of_range {A} (g : ndarray A) (r c : nat) :
  wf g -> nrows g <= r \/ ncols g <= c -> get g r c = Raise IndexError.
Proof.
  intros [Hlen Hrows] Hout. unfold get.
  destruct (nth_error (rows_of g) r) as [row|] eqn:Er; [|reflexivity].
  assert (Hr : r < nrows g)
    by (rewrite <- Hlen; apply nth_error_Some; congruence).
  destruct Hout as [Hout | Hout]; [lia|].
  rewrite Forall_forall in Hrows.
  pose proof (Hrows row (nth_error_In _ _ Er)) as Hrow.
  destruct (nth_error row c) eqn:Ec; [|reflexivity].
  assert (c < length row) by (apply nth_error_Some; congruence). lia.
Qed.

Lemma mapM_raises {A B} (f : A -> result B) (l : list A) (a : A)
    (e0 e : exn) :
  In a l -> f a = Raise e0 ->
  (forall a' e', In a' l -> f a' = Raise e' -> e' = e) ->
  mapM f l = Raise e.
Proof.
  induction l as [|a' l IH]; simpl; intros Hin Hf Honly; [contradiction|].
  destruct (f a') as [b|e'] eqn:E; cbn [bind].
  - destruct Hin as [-> | Hin]; [congruence|].
    rewrite IH; [reflexivity | exact Hin | exact Hf|].
    intros a0 e' H0. apply Honly. right. exact H0.
  - f_equal. apply (Honly a'); [left; reflexivity | exact E].
Qed.

Lemma mapM_raises_only {A B} (f : A -> result B) (l : list A) (e0 e : exn) :
  (forall a e', In a l -> f a = Raise e' -> e' = e) ->
  mapM f l = Raise e0 -> e0 = e.
Proof.
  induction l as [|a l IH]; simpl; intros Honly H; [discriminate|].
  destruct (f a) as [b|e'] eqn:E; cbn [bind] in H.
  - destruct (mapM f l) as [bs|e''] eqn:E'; cbn [bind] in H; [discriminate|].
    inversion H; subst. apply IH; [|reflexivity].
    intros a0 e' H0. apply Honly. right. exact H0.
  - inversion H; subst. apply (Honly a); [left; reflexivity | exact E].
Qed.

Lemma tabulateM_raises {A} (f : nat -> nat -> result A) (r c i j : nat)
    (e0 e : exn) :
  i < r -> j < c -> f i j = Raise e0 ->
  (forall i' j' e', f i' j' = Raise e' -> e' = e) ->
  tabulateM r c f = Raise e.
Proof.
  intros Hi Hj Hf Honly. unfold tabulateM.
  assert (Hrow : mapM (fun j => f i j) (seq 0 c) = Raise e).
  { apply mapM_raises with (a := j) (e0 := e0); auto.
    - apply in_seq. lia.
    - intros j' e' _. apply Honly. }
  rewrite (mapM_raises _ _ i e e); auto.
  - apply in_seq. lia.
  - intros i' e' _ H. eapply mapM_raises_only; [|exact H].
    intros j' e'' _. apply Honly.
Qed.

Lemma foldM_raises_only {A S} (f : S -> A -> result S) (l : list A) (s : S)
    (e0 e : exn) :
  (forall s a e', f s a = Raise e' -> e' = e) ->
  foldM f l s = Raise e0 -> e0 = e.
Proof.
  intro Honly. revert s. induction l as [|a l IH]; simpl; intros s H;
    [discriminate|].
  destruct (f s a) as [s1|e'] eqn:E; cbn [bind] in H.
  - eapply IH, H.
  - inversion H; subst. eapply Honly, E.
Qed.

(** The solver raises nothing but [IndexError]. *)
Lemma cell_direction_raises (d : dtype) (w : ndarray spec_float)
    (mask : ndarray Z) (r c : nat) (e : exn) :
  cell_direction d w mask r c = Raise e -> e = IndexError.
Proof.
  unfold cell_direction. intro H.
  destruct (get mask r c) as [m|e1] eqn:Hm; cbn [bind] in H;
    [|inversion H; subst; eapply get_raises_IndexError, Hm].
  destruct (m =? 0)%Z; [discriminate|].
  destruct (get w r c) as [center|e1] eqn:Hc; cbn [bind] in H;
    [|inversion H; subst; eapply get_raises_IndexError, Hc].
  destruct (isnan center); [discriminate|].
  destruct (foldM _ _ _) as [st|e1] eqn:E; cbn [bind] in H; [discriminate|].
  inversion H; subst e1.
  eapply foldM_raises_only; [|exact E].
  intros s [i [dr dc]] e' Hstep. unfold neighbor_step in Hstep.
  destruct (get w (shift r dr) (shift c dc)) as [nb|e1] eqn:Hnb;
    cbn [bind] in Hstep;
    [|inversion Hstep; subst; eapply get_raises_IndexError, Hnb].
  destruct (isnan nb); cbn [negb] in Hstep; [discriminate|].
  destruct (get mask (shift r dr) (shift c dc)) as [mb|e1] eqn:Hmb;
    cbn [bind] in Hstep;
    [|inversion Hstep; subst; eapply get_raises_IndexError, Hmb].
  destruct (mb =? 1)%Z; [|discriminate].
  destruct (_ && _); discriminate.
Qed.

Lemma calculate_flow_direction_raises (d : dtype) (w : ndarray spec_float)
    (mask : ndarray Z) (e : exn) :
  calculate_flow_direction d w mask = Raise e -> e = IndexError.
Proof.
  unfold calculate_flow_direction, flow_dir_array, tabulateM. intro H.
  destruct (mapM _ (seq 0 (nrows w))) as [rows|e1] eqn:E; cbn [bind] in H;
    [discriminate|].
  inversion H; subst e1.
  eapply mapM_raises_only; [|exact E].
  intros i e' _ Hrow. eapply mapM_raises_only; [|exact Hrow].
  intros j e'' _ Hcell. cbv beta in Hcell.
  destruct (interior (nrows w) (ncols w) i j); [|discriminate].
  eapply cell_direction_raises, Hcell.
Qed.

Lemma small_mask_raises (d : dtype) (window_data : ndarray spec_float)
    (mask : ndarray Z) :
  wf mask -> 3 <= nrows window_data -> 3 <= ncols window_data ->
  nrows mask < nrows window_data - 1 \/ ncols mask < ncols window_data - 1 ->
  calculate_flow_direction d window_data mask = Raise IndexError.
Proof.
  intros Hwf Hr Hc Hsmall.
  assert (Hcell : exists r c, r < nrows window_data /\ c < ncols window_data /\
            interior (nrows window_data) (ncols window_data) r c = true /\
            get mask r c = Raise IndexError).
  { destruct Hsmall as [Hs | Hs].
    - exists (nrows window_data - 2), 1.
      split; [lia|]. split; [lia|]. split.
      + unfold interior. repeat rewrite andb_true_iff.
        repeat split; (apply Nat.leb_le || apply Nat.ltb_lt); lia.
      + apply get_out_of_range; [exact Hwf | left; lia].
    - exists 1, (ncols window_data - 2).
      split; [lia|]. split; [lia|]. split.
      + unfold interior. repeat rewrite andb_true_iff.
        repeat split; (apply Nat.leb_le || apply Nat.ltb_lt); lia.
      + apply get_out_of_range; [exact Hwf | right; lia]. }
  destruct Hcell as (r & c & Hlr & Hlc & Hint & Hget).
  unfold calculate_flow_direction, flow_dir_array.
  rewrite (tabulateM_raises _ _ _ r c IndexError IndexError Hlr Hlc);
    [reflexivity| |].
  - rewrite Hint. unfold cell_direction. rewrite Hget. reflexivity.
  - intros i' j' e' H.
    destruct (interior (nrows window_data) (ncols window_data) i' j');
      [|discriminate].
    eapply cell_direction_raises, H.
Qed.

(** X5.  A window with an interior cell and a mask that has fewer rows than
    [rows - 1] or fewer columns than [cols - 1] makes the solver raise
    [IndexError]: the mask is indexed with the coordinates of the window and
    a missing mask cell is not taken for sea. *)
Theorem calculate_flow_direction_small_mask (d : dtype)
    (window_data : ndarray spec_float) (mask : ndarray Z) :
  wf mask -> 3 <= nrows window_data -> 3 <= ncols window_data ->
  nrows mask < nrows window_data - 1 \/ ncols mask < ncols window_data - 1 ->
  calculate_flow_direction d window_data mask = Raise IndexError.
Proof.
  apply small_mask_raises.
Qed.

Lemma calculate_flow_direction_small_mask_witness :
  calculate_flow_direction float32 peak_window (ones 1 1) = Raise IndexError.
Proof.
  apply (calculate_flow_direction_small_mask float32 peak_window (ones 1 1)).
  - apply wf_tabulate.
  - simpl. lia.
  - simpl. lia.
  - left. simpl. lia.
Defined.

(** ** calculate_flow_direction_parallel: thin blocks, failures and masks
    that cover the raster *)

Lemma ravel_empty {A} (g : ndarray A) :
  wf g -> nrows g = 0 \/ ncols g = 0 -> ravel g = [].
Proof.
  intros [Hlen Hrows] H. unfold ravel. destruct H as [H | H].
  - rewrite H in Hlen. apply length_zero_iff_nil in Hlen. rewrite Hlen.
    reflexivity.
  - rewrite H in Hrows. clear Hlen.
    induction Hrows as [|row rows Hrow _ IH]; [reflexivity|].
    apply length_zero_iff_nil in Hrow. subst row. exact IH.
Qed.

(** A window with fewer than three rows or fewer than three columns has no
    interior cell: the solver reads neither elevations nor mask and returns a
    grid without cells. *)
Lemma calculate_flow_direction_thin (d : dtype) (w : ndarray spec_float)
    (mask : ndarray Z) :
  nrows w <= 2 \/ ncols w <= 2 ->
  exists out, calculate_flow_direction d w mask = Ok out /\
              shape out = (nrows w - 2, ncols w - 2) /\
              ravel out = [].
Proof.
  intro Hthin.
  assert (Hint : forall r c, interior (nrows w) (ncols w) r c = false).
  { intros r c. unfold interior.
    destruct (1 <=? r) eqn:E1, (r <? nrows w - 1) eqn:E2,
             (1 <=? c) eqn:E3, (c <? ncols w - 1) eqn:E4; try reflexivity.
    apply Nat.leb_le in E1, E3. apply Nat.ltb_lt in E2, E4. lia. }
  destruct (tabulateM_total
              (fun r c => if interior (nrows w) (ncols w) r c
                          then cell_direction d w mask r c else Ok 0%Z)
              (nrows w) (ncols w)) as [fd Hfd].
  { intros i j _ _. rewrite Hint. eauto. }
  destruct (tabulateM_inv _ _ _ _ Hfd) as (Hnr & Hnc & Hwf & _).
  exists (inner fd). split; [|split].
  - unfold calculate_flow_direction, flow_dir_array. rewrite Hfd. reflexivity.
  - unfold shape, inner. simpl. rewrite Hnr, Hnc. reflexivity.
  - apply ravel_empty; [apply wf_inner, Hwf|].
    cbn [inner nrows ncols]. rewrite Hnr, Hnc. lia.
Qed.

(** X6.  Blocks of fewer than three rows or three columns, such as the
    strips of a raster that is not tiled, give the engine nothing to write:
    every worker returns a grid without cells, whatever the elevations and
    the mask are, and no cell of the raster gets a direction code. *)
Theorem thin_blocks_give_no_codes (d : dtype) (src : ndarray spec_float)
    (windows : list Window) (mask : ndarray Z) :
  Forall (fun win => height win <= 2 \/ width win <= 2) windows ->
  exists results,
    pool_results d src windows mask = Ok results /\
    map fst results = windows /\
    Forall (fun wr => ravel (snd wr) = []) results.
Proof.
  intro Hthin. rewrite pool_results_mapM.
  induction Hthin as [|win ws Hwin _ IH].
  - exists []. repeat split. constructor.
  - destruct IH as (results & Hres & Hfst & Hempty).
    destruct (calculate_flow_direction_thin d (read_window src win) mask)
      as (out & Hout & _ & Hravel).
    { cbn [read_window nrows ncols]. lia. }
    exists ((win, out) :: results). split; [|split].
    + assert (Hpw : process_window d (win, read_window src win, mask)
                    = Ok (win, out))
        by (unfold process_window; rewrite Hout; reflexivity).
      cbn [mapM]. rewrite Hpw. cbn [bind]. rewrite Hres. reflexivity.
    + simpl. rewrite Hfst. reflexivity.
    + constructor; assumption.
Qed.

Lemma thin_blocks_give_no_codes_witness :
  exists results,
    pool_results float32 slope_grid row_strips sea_east = Ok results /\
    map fst results = row_strips /\
    Forall (fun wr => ravel (snd wr) = []) results.
Proof.
  apply (thin_blocks_give_no_codes float32 slope_grid row_strips sea_east).
  repeat constructor.
Defined.

(** X7.  A failure in one worker is a failure of the whole call.  When the
    mask has fewer rows than [rows - 1] or fewer columns than [cols - 1] of
    some block with an interior cell, the engine raises [IndexError] and
    returns no grid, whatever the other blocks hold. *)
Theorem tiled_run_raises_on_small_mask (raster : Type)
    (dst_open : nat * nat -> result raster)
    (dst_write : raster -> ndarray Z -> Window -> result raster)
    (d : dtype)
    (src : ndarray spec_float) (windows : list Window) (mask : ndarray Z)
    (win : Window) :
  wf mask -> In win windows ->
  3 <= nrows (read_window src win) -> 3 <= ncols (read_window src win) ->
  nrows mask < nrows (read_window src win) - 1 \/
  ncols mask < ncols (read_window src win) - 1 ->
  calculate_flow_direction_parallel raster dst_open dst_write d src windows
    mask = Raise IndexError.
Proof.
  intros Hwf Hin Hr Hc Hsmall.
  unfold calculate_flow_direction_parallel. rewrite pool_results_mapM.
  rewrite (mapM_raises _ windows win IndexError IndexError Hin);
    [reflexivity| |].
  - unfold process_window.
    rewrite (small_mask_raises d (read_window src win) mask Hwf Hr Hc Hsmall).
    reflexivity.
  - intros win' e' _ H. unfold process_window in H.
    destruct (calculate_flow_direction d (read_window src win') mask)
      as [res|e1] eqn:E; cbn [bind] in H; [discriminate|].
    inversion H; subst e1. eapply calculate_flow_direction_raises, E.
Qed.

Lemma tiled_run_raises_on_small_mask_witness :
  calculate_flow_direction_parallel _ log_open log_write float32 slope_grid
    two_tiles (ones 1 1)
  = Raise IndexError.
Proof.
  apply (tiled_run_raises_on_small_mask _ log_open log_write float32
           slope_grid two_tiles (ones 1 1) (mk_window 0 3 3 3)).
  - apply wf_tabulate.
  - right. left. reflexivity.
  - simpl. lia.
  - simpl. lia.
  - left. simpl. lia.
Defined.

(** X8.  With a mask that is at least as large as the raster no worker
    fails, whatever the windows are, also for windows that reach beyond the
    raster: the pool returns one result per window, in the order of the
    windows, of the shape of the block read less two rows and two columns. *)
Theorem tiled_run_returns_under_covering_mask (d : dtype)
    (src : ndarray spec_float) (windows : list Window) (mask : ndarray Z) :
  wf src -> wf mask -> nrows src <= nrows mask -> ncols src <= ncols mask ->
  exists results,
    pool_results d src windows mask = Ok results /\
    map fst results = windows /\
    Forall (fun wr =>
              shape (snd wr)
              = (nrows (read_window src (fst wr)) - 2,
                 ncols (read_window src (fst wr)) - 2)) results.
Proof.
  intros Hsrc Hmask Hrows Hcols.
  rewrite pool_results_mapM. induction windows as [|win ws IH].
  - exists []. repeat split. constructor.
  - destruct IH as (results & Hres & Hfst & Hshapes).
    destruct (calculate_flow_direction_ok d (read_window src win) mask)
      as (fd & res & _ & Hout & _ & Hshape & _);
      try assumption.
    + apply wf_read_window, Hsrc.
    + cbn [read_window nrows]. lia.
    + cbn [read_window ncols]. lia.
    + exists ((win, res) :: results). split; [|split].
      * assert (Hpw : process_window d (win, read_window src win, mask)
                      = Ok (win, res))
          by (unfold process_window; rewrite Hout; reflexivity).
        cbn [mapM]. rewrite Hpw. cbn [bind]. rewrite Hres. reflexivity.
      * simpl. rewrite Hfst. reflexivity.
      * constructor; assumption.
Qed.

Lemma tiled_run_returns_under_covering_mask_witness :
  exists results,
    pool_results float32 slope_grid two_tiles sea_east = Ok results /\
    map fst results = two_tiles /\
    Forall (fun wr =>
              shape (snd wr)
              = (nrows (read_window slope_grid (fst wr)) - 2,
                 ncols (read_window slope_grid (fst wr)) - 2)) results.
Proof.
  apply (tiled_run_returns_under_covering_mask float32 slope_grid two_tiles
           sea_east).
  - apply wf_tabulate.
  - apply wf_tabulate.
  - simpl. lia.
  - simpl. lia.
Defined.

(** ** normalize: NaN cells and arrays without cells *)

Lemma minimum_nan_l (y : spec_float) : minimum S754_nan y = S754_nan.
Proof. reflexivity. Qed.

Lemma minimum_nan_r (x : spec_float) : minimum x S754_nan = S754_nan.
Proof. destruct x as [[]|[]| |[] m e]; reflexivity. Qed.

Lemma fold_left_minimum_nan (l : list spec_float) :
  fold_left minimum l S754_nan = S754_nan.
Proof. induction l as [|y l IH]; [reflexivity | exact IH]. Qed.

(** [np.min] propagates NaN. *)
Lemma np_min_nan (l : list spec_float) :
  In S754_nan l -> np_min l = Ok S754_nan.
Proof.
  destruct l as [|x l]; [contradiction|]. intro Hin. cbn [np_min]. f_equal.
  destruct Hin as [-> | Hin]; [apply fold_left_minimum_nan|].
  revert x. induction l as [|y l IH]; intro x; [contradiction|].
  cbn [fold_left]. destruct Hin as [-> | Hin].
  - rewrite minimum_nan_r. apply fold_left_minimum_nan.
  - apply IH, Hin.
Qed.

Lemma normalize_cell_nan (d : dtype) (hi x : spec_float) :
  normalize_cell d S754_nan hi x = S754_nan.
Proof.
  unfold normalize_cell.
  replace (fsub d x S754_nan) with S754_nan
    by (destruct x as [[]|[]| |[] m e]; reflexivity).
  reflexivity.
Qed.

(** X9.  One NaN cell spoils the whole grid:  [np.min] returns NaN, and
    [normalize] returns a grid of the same shape in which every cell is NaN. *)
Theorem normalize_nan_poisons (d : dtype) (array : ndarray spec_float) :
  In S754_nan (ravel array) ->
  normalize d array = Ok (map_array (fun _ => S754_nan) array) /\
  shape (map_array (fun _ : spec_float => S754_nan) array) = shape array.
Proof.
  intro Hin. split; [|reflexivity]. unfold normalize.
  rewrite (np_min_nan _ Hin). cbn [bind].
  destruct (ravel array) as [|x0 l] eqn:E; [contradiction|].
  cbn [np_max bind]. f_equal. unfold map_array. f_equal.
  apply map_ext. intro row. apply map_ext. intro x.
  apply normalize_cell_nan.
Qed.

Lemma normalize_nan_poisons_witness :
  normalize float32 gap_grid = Ok (map_array (fun _ => S754_nan) gap_grid) /\
  shape (map_array (fun _ : spec_float => S754_nan) gap_grid)
    = shape gap_grid.
Proof.
  apply (normalize_nan_poisons float32 gap_grid).
  right. left. reflexivity.
Defined.

(** X10.  [normalize] raises [ValueError] on an array without cells, and
    only there: on every other array it returns a grid of the same shape,
    with the same number of cells. *)
Theorem normalize_raises_iff_empty (d : dtype) (array : ndarray spec_float) :
  (normalize d array = Raise ValueError <-> ravel array = []) /\
  (ravel array = [] \/
   exists out, normalize d array = Ok out /\ shape out = shape array /\
               length (ravel out) = length (ravel array)).
Proof.
  unfold normalize. destruct (ravel array) as [|x0 l] eqn:E.
  - split; [split; reflexivity | left; reflexivity].
  - split; [split; discriminate|]. right.
    cbn [np_min np_max bind]. eexists. split; [reflexivity|].
    split; [reflexivity|].
    rewrite <- E. unfold ravel, map_array. cbn [rows_of].
    rewrite !length_concat. rewrite map_map. f_equal.
    apply map_ext. intro row. apply length_map.
Qed.

(** ** The radar pipeline: runs without a result, the disk, and shapes *)

Lemma cell_of_get {A} (dflt : A) (g : ndarray A) (r c : nat) (x : A) :
  get g r c = Ok x -> cell dflt g r c = x.
Proof.
  unfold get, cell. intro H.
  destruct (nth_error (rows_of g) r) as [row|] eqn:Er; [|discriminate].
  destruct (nth_error row c) as [y|] eqn:Ec; [|discriminate].
  rewrite (nth_error_nth _ _ _ Er). rewrite (nth_error_nth _ _ _ Ec).
  congruence.
Qed.

(** The sum of two numbers [>= 0] is a number [>= 0]; it may be [+inf]. *)
Lemma fadd_nonneg (d : dtype) (x y : spec_float) :
  fle fzero x = true -> fle fzero y = true -> fle fzero (fadd d x y) = true.
Proof.
  destruct x as [sx|[]| |[] mx ex]; try discriminate;
    destruct y as [sy|[]| |[] my ey]; try discriminate; intros _ _;
    try reflexivity.
  - destruct sx, sy; reflexivity.
  - unfold fadd, SFadd. cbn [cond_Zopp].
    apply binary_normalize_nonneg. lia.
Qed.

Lemma array_add_nonneg (a b : ndarray spec_float) :
  nonneg_grid a -> nonneg_grid b -> shape b = shape a ->
  nonneg_grid (array_add a b).
Proof.
  intros [Hwa Ha] [Hwb Hb] Hshape. injection Hshape as Hr Hc.
  split; [apply wf_tabulate|].
  intros r c x Hx. unfold array_add in Hx.
  destruct (get_in_range _ _ _ _ (wf_tabulate _ _ _) Hx) as [Hlr Hlc].
  cbn [tabulate nrows ncols] in Hlr, Hlc.
  rewrite get_tabulate in Hx by assumption. inversion Hx; subst x.
  destruct (get_ok a r c Hwa Hlr Hlc) as [xa Hxa].
  destruct (get_ok b r c Hwb) as [xb Hxb]; try lia.
  rewrite (cell_of_get _ _ _ _ _ Hxa), (cell_of_get _ _ _ _ _ Hxb).
  apply fadd_nonneg; [eapply Ha | eapply Hb]; eassumption.
Qed.

Lemma zeros_like_nonneg (a : ndarray spec_float) :
  nonneg_grid (zeros_like a) /\ shape (zeros_like a) = shape a.
Proof.
  split; [split; [apply wf_tabulate|] | reflexivity].
  intros r c x Hx. unfold zeros_like in Hx.
  destruct (get_in_range _ _ _ _ (wf_tabulate _ _ _) Hx) as [Hlr Hlc].
  cbn [tabulate nrows ncols] in Hlr, Hlc.
  rewrite get_tabulate in Hx by assumption. inversion Hx. reflexivity.
Qed.

Section PipelineRuns.

Variable path : Type.
Variable os_path_exists : path -> bool.
Variable crop_tiff_to_campania : path -> result unit.
Variable align_radar_to_dem : path -> result unit.
Variable process_tiff : path -> result (ndarray spec_float).
Variable raster_profile : path -> result (nat * nat).
Variable write_raster : nat * nat -> ndarray spec_float -> result unit.

Local Notation "'process_file'" :=
  (process_radar_file path crop_tiff_to_campania align_radar_to_dem
     process_tiff).
Local Notation "'loop'" :=
  (accumulate_loop path os_path_exists crop_tiff_to_campania
     align_radar_to_dem process_tiff).
Local Notation "'accumulated'" :=
  (calculate_accumulated_runoff path os_path_exists crop_tiff_to_campania
     align_radar_to_dem process_tiff raster_profile write_raster).
Local Notation "'save'" := (save_accumulated path raster_profile write_raster).

Local Notation "'fails'" :=
  (step_fails crop_tiff_to_campania align_radar_to_dem process_tiff).

Lemma process_radar_file_fails (file : path) (st : fs_state) :
  fails file -> fst (process_file file st) = None.
Proof.
  unfold process_radar_file, NamedTemporaryFile, step_fails.
  intros [[e He] | [[e He] | [e He]]].
  - rewrite He. reflexivity.
  - rewrite He. destruct (crop_tiff_to_campania file); reflexivity.
  - rewrite He. destruct (crop_tiff_to_campania file); [|reflexivity].
    destruct (align_radar_to_dem file); reflexivity.
Qed.


(** What a run leaves in its record follows from how the loop ends. *)
Lemma accumulated_individual_runoffs (files : list path) (st : fs_state) :
  individual_runoffs (accumulated files st)
  = match fst (loop files None [] st) with
    | Completed _ ind => ind
    | EarlyReturn ind => ind
    end.
Proof.
  unfold calculate_accumulated_runoff.
  destruct (loop files None [] st) as [[acc ind|ind] st']; cbn [fst];
    [|reflexivity].
  destruct (mapM print_stats ind); [|reflexivity].
  destruct acc as [acc|]; [|reflexivity].
  destruct (save_accumulated _ _ _ _ _); reflexivity.
Qed.

Lemma accumulated_disk (files : list path) (st : fs_state) :
  disk (accumulated files st) = snd (loop files None [] st).
Proof.
  unfold calculate_accumulated_runoff.
  destruct (loop files None [] st) as [[acc ind|ind] st']; cbn [snd];
    [|reflexivity].
  destruct (mapM print_stats ind); [|reflexivity].
  destruct acc as [acc|]; [|reflexivity].
  destruct (save_accumulated _ _ _ _ _); reflexivity.
Qed.

(** A run returns a grid only when the loop has run to its end with that
    grid and the raster was written. *)
Lemma accumulated_returns_grid (files : list path) (st : fs_state)
    (total : ndarray spec_float) :
  returned (accumulated files st) = Ok (Some total) ->
  (exists ind, fst (loop files None [] st) = Completed (Some total) ind) /\
  exists profile, written (accumulated files st) = Some (profile, total).
Proof.
  unfold calculate_accumulated_runoff.
  destruct (loop files None [] st) as [[acc ind|ind] st']; cbn [fst];
    [|discriminate].
  destruct (mapM print_stats ind); [|discriminate].
  destruct acc as [acc|]; [|discriminate].
  unfold save_accumulated. destruct (print_stats acc); [|discriminate].
  cbn [bind]. destruct files as [|first rest]; [discriminate|].
  destruct (raster_profile first) as [profile|]; [|discriminate].
  cbn [bind]. destruct (write_raster profile acc); [|discriminate].
  cbn [bind returned written]. intro H. inversion H; subst acc.
  split; eauto.
Qed.

Lemma accumulate_loop_skips_all (files : list path)
    (acc : option (ndarray spec_float)) (ind : list (ndarray spec_float))
    (st : fs_state) :
  (forall file, In file files -> os_path_exists file = false \/ fails file) ->
  fst (loop files acc ind st) = Completed acc ind.
Proof.
  revert st. induction files as [|file rest IH]; intros st H; [reflexivity|].
  cbn [accumulate_loop].
  assert (Hrest : forall f, In f rest -> os_path_exists f = false \/ fails f)
    by (intros f Hf; apply H; right; exact Hf).
  destruct (os_path_exists file) eqn:Hex; cbn [negb]; [|apply IH, Hrest].
  destruct (H file (or_introl eq_refl)) as [Hno | Hfail]; [congruence|].
  pose proof (process_radar_file_fails file st Hfail) as Hnone.
  destruct (process_file file st) as [runoff st1]. cbn [fst] in Hnone.
  subst runoff. apply IH, Hrest.
Qed.

(** X11.  A run in which no radar file is processed to the end, because the
    directory lists none, the files are gone, or a step raises on each of
    them, returns [None], writes no raster and records no individual
    runoff. *)
Theorem no_processed_file_no_result (radar_files : list path)
    (st : fs_state) :
  (forall file, In file radar_files ->
     os_path_exists file = false \/ fails file) ->
  returned (accumulated radar_files st) = Ok None /\
  written (accumulated radar_files st) = None /\
  individual_runoffs (accumulated radar_files st) = [].
Proof.
  intro H. pose proof (accumulate_loop_skips_all radar_files None [] st H)
    as Hloop.
  unfold calculate_accumulated_runoff.
  destruct (loop radar_files None [] st) as [[acc ind|ind] st'];
    cbn [fst] in Hloop; [|discriminate].
  inversion Hloop; subst. repeat split.
Qed.

(** The counter only grows, and the names on disk stay below it. *)
Lemma process_radar_file_names (file : path) (st : fs_state) :
  names_below_counter st ->
  names_below_counter (snd (process_file file st)).
Proof.
  intro Hst. unfold process_radar_file, NamedTemporaryFile, os_remove.
  destruct (crop_tiff_to_campania file);
    [destruct (align_radar_to_dem file);
     [destruct (process_tiff file)|]|];
    cbn [fst snd]; unfold names_below_counter; cbn [temp_files next_name];
    intros name Hin;
    repeat (apply in_remove in Hin; destruct Hin as [Hin _]);
    cbn [In] in Hin;
    repeat (destruct Hin as [<- | Hin]; [lia|]);
    apply Hst in Hin; lia.
Qed.

Lemma accumulate_loop_clean (files : list path)
    (acc : option (ndarray spec_float)) (ind : list (ndarray spec_float))
    (st : fs_state) :
  names_below_counter st ->
  (forall file, In file files -> os_path_exists file = true ->
     crop_tiff_to_campania file = Ok tt /\
     align_radar_to_dem file = Ok tt /\
     exists runoff, process_tiff file = Ok runoff) ->
  temp_files (snd (loop files acc ind st)) = temp_files st.
Proof.
  revert acc ind st. induction files as [|file rest IH];
    intros acc ind st Hst H; [reflexivity|].
  cbn [accumulate_loop].
  assert (Hrest : forall f, In f rest -> os_path_exists f = true ->
            crop_tiff_to_campania f = Ok tt /\
            align_radar_to_dem f = Ok tt /\
            exists runoff, process_tiff f = Ok runoff)
    by (intros f Hf; apply H; right; exact Hf).
  destruct (os_path_exists file) eqn:Hex; cbn [negb]; [|apply IH; assumption].
  destruct (H file (or_introl eq_refl) Hex) as (Hcrop & Halign & runoff & Ht).
  destruct (process_radar_file_success_cleans path crop_tiff_to_campania
              align_radar_to_dem process_tiff file st runoff Hst Hcrop Halign
              Ht) as [Hv Hd].
  pose proof (process_radar_file_names file st Hst) as Hnames.
  destruct (process_file file st) as [v st1]. cbn [fst snd] in Hv, Hd, Hnames.
  subst v.
  destruct acc as [acc|].
  - destruct (shape_eqb (shape runoff) (shape acc)); cbn [negb snd];
      [|exact Hd].
    rewrite IH; assumption.
  - rewrite IH; assumption.
Qed.

(** X12.  When every radar file that exists passes the three steps, the run
    leaves the disk as it found it: each temporary file it made is removed
    again, also when the run stops at a shape mismatch. *)
Theorem successful_run_leaves_no_temp_file (radar_files : list path)
    (st : fs_state) :
  names_below_counter st ->
  (forall file, In file radar_files -> os_path_exists file = true ->
     crop_tiff_to_campania file = Ok tt /\
     align_radar_to_dem file = Ok tt /\
     exists runoff, process_tiff file = Ok runoff) ->
  temp_files (disk (accumulated radar_files st)) = temp_files st.
Proof.
  intros Hst H. rewrite accumulated_disk.
  apply accumulate_loop_clean; assumption.
Qed.






(** The accumulated grid of runoffs that are numbers [>= 0] is a grid of
    numbers [>= 0]. *)
Lemma accumulate_loop_nonneg (files : list path)
    (acc : option (ndarray spec_float)) (ind : list (ndarray spec_float))
    (st : fs_state) :
  (forall file g, process_tiff file = Ok g -> nonneg_grid g) ->
  (forall a, acc = Some a -> nonneg_grid a) ->
  match fst (loop files acc ind st) with
  | Completed (Some total) _ => nonneg_grid total
  | _ => True
  end.
Proof.
  intro Htiff. revert acc ind st. induction files as [|file rest IH];
    intros acc ind st Hacc.
  { cbn. destruct acc as [a|]; [apply Hacc; reflexivity | exact I]. }
  cbn [accumulate_loop].
  destruct (os_path_exists file); cbn [negb]; [|apply IH, Hacc].
  assert (Hrun : forall g, fst (process_file file st) = Some g ->
                           nonneg_grid g).
  { unfold process_radar_file, NamedTemporaryFile.
    destruct (crop_tiff_to_campania file); [|discriminate].
    destruct (align_radar_to_dem file); [|discriminate].
    destruct (process_tiff file) as [g0|] eqn:E; [|discriminate].
    cbn [fst]. intros g Hg. inversion Hg; subst. eapply Htiff, E. }
  destruct (process_file file st) as [[runoff|] st1]; [|apply IH, Hacc].
  cbn [fst] in Hrun. pose proof (Hrun runoff eq_refl) as Hrunoff.
  destruct acc as [acc|].
  - destruct (shape_eqb (shape runoff) (shape acc)) eqn:Hs; cbn [negb];
      [|exact I].
    apply shape_eqb_eq in Hs. apply IH. intros a Ha. inversion Ha; subst a.
    apply array_add_nonneg; [apply Hacc; reflexivity | exact Hrunoff
                            | exact Hs].
  - apply IH. intros a Ha. inversion Ha; subst a.
    destruct (zeros_like_nonneg runoff) as [Hz Hzs].
    apply array_add_nonneg; [exact Hz | exact Hrunoff | symmetry; exact Hzs].
Qed.

Lemma accumulated_nonneg (radar_files : list path) (st : fs_state)
    (total : ndarray spec_float) :
  (forall file g, process_tiff file = Ok g -> nonneg_grid g) ->
  returned (accumulated radar_files st) = Ok (Some total) ->
  nonneg_grid total.
Proof.
  intros Htiff Hret.
  destruct (accumulated_returns_grid _ _ _ Hret) as [[ind Hloop] _].
  pose proof (accumulate_loop_nonneg radar_files None [] st Htiff) as H.
  rewrite Hloop in H. apply H. discriminate.
Qed.

(** Every runoff the run records is a grid [process_tiff] returned. *)
Lemma accumulate_loop_individual (P : ndarray spec_float -> Prop)
    (files : list path) (acc : option (ndarray spec_float))
    (ind : list (ndarray spec_float)) (st : fs_state) :
  (forall file g, process_tiff file = Ok g -> P g) ->
  Forall P ind ->
  match fst (loop files acc ind st) with
  | Completed _ ind' => Forall P ind'
  | EarlyReturn ind' => Forall P ind'
  end.
Proof.
  intro Htiff. revert acc ind st. induction files as [|file rest IH];
    intros acc ind st Hind; [exact Hind|].
  cbn [accumulate_loop].
  destruct (os_path_exists file); cbn [negb]; [|apply IH, Hind].
  assert (Hrun : forall g, fst (process_file file st) = Some g -> P g).
  { unfold process_radar_file, NamedTemporaryFile.
    destruct (crop_tiff_to_campania file); [|discriminate].
    destruct (align_radar_to_dem file); [|discriminate].
    destruct (process_tiff file) as [g0|] eqn:E; [|discriminate].
    cbn [fst]. intros g Hg. inversion Hg; subst. eapply Htiff, E. }
  destruct (process_file file st) as [[runoff|] st1]; [|apply IH, Hind].
  cbn [fst] in Hrun. pose proof (Hrun runoff eq_refl) as Hrunoff.
  assert (Hind' : Forall P (ind ++ [runoff]))
    by (apply Forall_app; split; [exact Hind | repeat constructor; assumption]).
  destruct acc as [acc|]; [|apply IH, Hind'].
  destruct (shape_eqb (shape runoff) (shape acc)); cbn [negb];
    [apply IH, Hind' | exact Hind'].
Qed.

Lemma accumulated_individual (P : ndarray spec_float -> Prop)
    (radar_files : list path) (st : fs_state) :
  (forall file g, process_tiff file = Ok g -> P g) ->
  Forall P (individual_runoffs (accumulated radar_files st)).
Proof.
  intro Htiff.
  pose proof (accumulate_loop_individual P radar_files None [] st Htiff
                (Forall_nil P)) as H.
  rewrite accumulated_individual_runoffs.
  destruct (fst (loop radar_files None [] st)); exact H.
Qed.

End PipelineRuns.

Lemma no_processed_file_no_result_witness :
  returned (calculate_accumulated_runoff nat demo_exists demo_crop demo_align
              demo_process_tiff demo_profile demo_write [0; 0] empty_disk)
    = Ok None /\
  written (calculate_accumulated_runoff nat demo_exists demo_crop demo_align
             demo_process_tiff demo_profile demo_write [0; 0] empty_disk)
    = None /\
  individual_runoffs
    (calculate_accumulated_runoff nat demo_exists demo_crop demo_align
       demo_process_tiff demo_profile demo_write [0; 0] empty_disk) = [].
Proof.
  apply (no_processed_file_no_result nat demo_exists demo_crop demo_align
           demo_process_tiff demo_profile demo_write [0; 0] empty_disk).
  intros file [<- | [<- | []]]; right; left; exists ExternalError;
    reflexivity.
Defined.

Lemma successful_run_leaves_no_temp_file_witness :
  temp_files (disk (calculate_accumulated_runoff nat demo_exists demo_crop
                      demo_align demo_process_tiff demo_profile demo_write
                      [2; 2; 1] empty_disk))
  = temp_files empty_disk.
Proof.
  apply (successful_run_leaves_no_temp_file nat demo_exists demo_crop
           demo_align demo_process_tiff demo_profile demo_write [2; 2; 1]
           empty_disk).
  - intros name [].
  - intros file [<- | [<- | [<- | []]]] _;
      (split; [reflexivity | split; [reflexivity | eexists; reflexivity]]).
Defined.


(** ** process_tiff *)

Lemma get_map_array_inv {A B} (f : A -> B) (g : ndarray A) (r c : nat)
    (y : B) :
  get (map_array f g) r c = Ok y -> exists x, get g r c = Ok x /\ y = f x.
Proof.
  unfold get, map_array. cbn [rows_of]. rewrite nth_error_map.
  destruct (nth_error (rows_of g) r) as [row|]; [|discriminate].
  cbn [option_map]. rewrite nth_error_map.
  destruct (nth_error row c) as [x|]; [|discriminate].
  cbn [option_map]. intro H. inversion H. eauto.
Qed.

Lemma wf_map_array {A B} (f : A -> B) (g : ndarray A) :
  wf g -> wf (map_array f g).
Proof.
  intros [Hlen Hrows]. split; cbn [map_array rows_of nrows ncols].
  - rewrite length_map. exact Hlen.
  - apply Forall_map. eapply Forall_impl; [|exact Hrows].
    intros row Hrow. cbn beta. rewrite length_map. exact Hrow.
Qed.

Lemma ravel_map_array {A B} (f : A -> B) (g : ndarray A) :
  ravel (map_array f g) = map f (ravel g).
Proof. unfold ravel, map_array. cbn [rows_of]. symmetry. apply concat_map. Qed.

Lemma nan_to_num_finite (x : spec_float) :
  isfinite (clamp_negative (nan_to_num x)) = true /\
  fle fzero (clamp_negative (nan_to_num x)) = true.
Proof. destruct x as [[]|[]| |[] m e]; split; reflexivity. Qed.

Lemma replace_nodata_not_positive (isclose : spec_float -> spec_float -> bool)
    (nodata : option spec_float) (p : spec_float) :
  fle p fzero = true \/ isnan p = true \/
  (exists nd, nodata = Some nd /\ isclose p nd = true) ->
  strictly_positive (clamp_negative (replace_nodata isclose nodata p))
  = false.
Proof.
  intro H.
  assert (Hr : strictly_positive (replace_nodata isclose nodata p) = false).
  { unfold replace_nodata. destruct H as [H | [H | (nd & -> & ->)]];
      [| |reflexivity];
      (destruct nodata as [nd|]; [destruct (isclose p nd); [reflexivity|]|]);
      destruct p as [[]|[]| |[] m e]; try discriminate; reflexivity. }
  unfold clamp_negative.
  destruct (flt (replace_nodata isclose nodata p) fzero);
    [reflexivity | exact Hr].
Qed.

Section ProcessTiffLemmas.

Variable d : dtype.
Variable path : Type.
Variable rasterio_read :
  path -> result (ndarray spec_float * option spec_float).
Variable isclose : spec_float -> spec_float -> bool.

Local Notation "'tiff'" := (process_tiff d path rasterio_read isclose).

(** What [process_tiff] returns, step by step. *)
Lemma process_tiff_inv (file : path) (cn_map : ndarray spec_float)
    (mask : ndarray Z) (out : ndarray spec_float) :
  tiff file cn_map mask = Ok out ->
  exists precipitation nodata runoff,
    rasterio_read file = Ok (precipitation, nodata) /\
    ravel precipitation <> [] /\
    compute_runoff d
      (map_array clamp_negative
         (map_array (replace_nodata isclose nodata) precipitation))
      cn_map mask = Ok runoff /\
    out = map_array clamp_negative (map_array nan_to_num runoff).
Proof.
  unfold process_tiff. intro H.
  destruct (rasterio_read file) as [[precipitation nodata]|]; [|discriminate].
  cbn [bind fst snd] in H.
  destruct (np_max _) as [largest|] eqn:Emax; [|discriminate].
  cbn [bind] in H.
  destruct (compute_runoff _ _ _ _) as [runoff|] eqn:Erun; [|discriminate].
  cbn [bind] in H. inversion H; subst out.
  exists precipitation, nodata, runoff.
  split; [reflexivity|]. split; [|split; [exact Erun | reflexivity]].
  intro Hempty. rewrite !ravel_map_array, Hempty in Emax. discriminate.
Qed.

Lemma process_tiff_cells (file : path) (cn_map : ndarray spec_float)
    (mask : ndarray Z) (out : ndarray spec_float) :
  tiff file cn_map mask = Ok out -> finite_nonneg_grid out.
Proof.
  intro H.
  destruct (process_tiff_inv _ _ _ _ H)
    as (precipitation & nodata & runoff & _ & _ & Hrun & ->).
  destruct (compute_runoff_inv _ _ _ _ _ Hrun) as (s & _ & _ & ->).
  split; [apply wf_map_array, wf_map_array, wf_tabulate|].
  intros r c x Hx.
  apply get_map_array_inv in Hx. destruct Hx as (y & Hy & ->).
  apply get_map_array_inv in Hy. destruct Hy as (z & _ & ->).
  apply nan_to_num_finite.
Qed.

(** X14.  Whatever the raster holds, NaN, infinities, negative values or
    values so large that the runoff formula overflows, the grid
    [process_tiff] returns has nothing but finite numbers [>= 0] in its
    cells:  [np.nan_to_num] and the clamp repair what [compute_runoff]
    yields. *)
Theorem process_tiff_finite_and_not_negative (file : path)
    (cn_map : ndarray spec_float) (mask : ndarray Z)
    (out : ndarray spec_float) :
  tiff file cn_map mask = Ok out -> finite_nonneg_grid out.
Proof. apply process_tiff_cells. Qed.

(** X15.  When the raster library reads a raster, [process_tiff] returns a
    grid exactly when the raster has a cell and the three operands broadcast
    to one shape, which is the shape of the result: there is no check beyond
    numpy's own.  On a raster without cells it raises [ValueError]. *)
Theorem process_tiff_returns_iff (file : path) (cn_map : ndarray spec_float)
    (mask : ndarray Z) (precipitation : ndarray spec_float)
    (nodata : option spec_float) (s : nat * nat) :
  rasterio_read file = Ok (precipitation, nodata) ->
  ((exists out, tiff file cn_map mask = Ok out /\ shape out = s) <->
   (ravel precipitation <> [] /\
    broadcast_shape (shape cn_map) (shape mask) = Ok s /\
    broadcast_shape (shape mask) (shape precipitation) = Ok s)) /\
  (ravel precipitation = [] -> tiff file cn_map mask = Raise ValueError).
Proof.
  intro Hread. split; [split|].
  - intros (out & H & Hshape).
    destruct (process_tiff_inv _ _ _ _ H)
      as (precipitation' & nodata' & runoff & Hread' & Hne & Hrun & ->).
    rewrite Hread in Hread'. inversion Hread'; subst precipitation' nodata'.
    split; [exact Hne|].
    destruct (compute_runoff_inv _ _ _ _ _ Hrun) as (s' & H1 & H2 & ->).
    destruct s' as [r' c']. change ((r', c') = s) in Hshape. subst s.
    split; [exact H1 | exact H2].
  - intros (Hne & H1 & H2).
    destruct (compute_runoff_of_broadcast d
                (map_array clamp_negative
                   (map_array (replace_nodata isclose nodata) precipitation))
                cn_map mask s H1 H2) as (runoff & Hrun & Hshape).
    exists (map_array clamp_negative (map_array nan_to_num runoff)).
    split; [|exact Hshape].
    unfold process_tiff. rewrite Hread. cbn [bind fst snd].
    rewrite !ravel_map_array.
    destruct (ravel precipitation) as [|x0 l]; [congruence|].
    cbn [map np_max bind]. rewrite Hrun. reflexivity.
  - intro Hempty. unfold process_tiff. rewrite Hread. cbn [bind fst snd].
    rewrite !ravel_map_array, Hempty. reflexivity.
Qed.

(** X16.  Rain that is no rain: a raster cell that holds zero, a negative
    value, NaN or a value that [np.isclose] matches with the nodata value of
    the file gives a runoff of exactly 0 under a 0/1 mask. *)
Theorem process_tiff_ignores_invalid_rain (file : path)
    (cn_map : ndarray spec_float) (mask : ndarray Z)
    (precipitation : ndarray spec_float) (nodata : option spec_float)
    (out : ndarray spec_float) (r c : nat) (p x : spec_float) :
  rasterio_read file = Ok (precipitation, nodata) ->
  wf precipitation ->
  Forall (Forall (fun m => m = 0 \/ m = 1)%Z) (rows_of mask) ->
  tiff file cn_map mask = Ok out ->
  get out r c = Ok x ->
  get precipitation r c = Ok p ->
  fle p fzero = true \/ isnan p = true \/
  (exists nd, nodata = Some nd /\ isclose p nd = true) ->
  x = fzero.
Proof.
  intros Hread Hwf Hmask H Hx Hp Hbad.
  destruct (process_tiff_inv _ _ _ _ H)
    as (precipitation' & nodata' & runoff & Hread' & _ & Hrun & ->).
  rewrite Hread in Hread'. inversion Hread'; subst precipitation' nodata'.
  apply get_map_array_inv in Hx. destruct Hx as (y & Hy & ->).
  apply get_map_array_inv in Hy. destruct Hy as (z & Hz & ->).
  rewrite (compute_runoff_cell d _ _ _ _ _ _ _ Hrun Hz).
  rewrite (bget_of_get S754_nan _ r c
             (clamp_negative (replace_nodata isclose nodata p))).
  - rewrite runoff_cell_dry; [reflexivity | apply bget_zero_one, Hmask|].
    apply replace_nodata_not_positive, Hbad.
  - apply wf_map_array, wf_map_array, Hwf.
  - apply get_map_array, get_map_array, Hp.
Qed.

End ProcessTiffLemmas.

Lemma process_tiff_finite_and_not_negative_witness :
  process_tiff float32 nat demo_raster demo_isclose 1 demo_cn (ones 1 4)
    = Ok demo_runoff /\
  finite_nonneg_grid demo_runoff.
Proof.
  assert (H : process_tiff float32 nat demo_raster demo_isclose 1 demo_cn
                (ones 1 4) = Ok demo_runoff) by (vm_compute; reflexivity).
  split; [exact H|].
  apply (process_tiff_finite_and_not_negative float32 nat demo_raster
           demo_isclose 1 demo_cn (ones 1 4) demo_runoff H).
Defined.

Lemma process_tiff_returns_iff_witness :
  ((exists out,
      process_tiff float32 nat demo_raster demo_isclose 1 demo_cn (ones 1 4)
        = Ok out /\ shape out = (1, 4)) <->
   (ravel demo_rain <> [] /\
    broadcast_shape (shape demo_cn) (shape (ones 1 4)) = Ok (1, 4) /\
    broadcast_shape (shape (ones 1 4)) (shape demo_rain) = Ok (1, 4))) /\
  (ravel demo_rain = [] ->
   process_tiff float32 nat demo_raster demo_isclose 1 demo_cn (ones 1 4)
   = Raise ValueError).
Proof.
  apply (process_tiff_returns_iff float32 nat demo_raster demo_isclose 1
           demo_cn (ones 1 4) demo_rain (Some (of_int float32 (-9999)))
           (1, 4)).
  reflexivity.
Defined.

Lemma process_tiff_ignores_invalid_rain_witness :
  process_tiff float32 nat demo_raster demo_isclose 1 demo_cn (ones 1 4)
    = Ok demo_runoff /\
  get demo_runoff 0 2 = Ok fzero /\
  demo_isclose (of_int float32 (-9999)) (of_int float32 (-9999)) = true /\
  fzero = fzero.
Proof.
  assert (H : process_tiff float32 nat demo_raster demo_isclose 1 demo_cn
                (ones 1 4) = Ok demo_runoff) by (vm_compute; reflexivity).
  split; [exact H|]. split; [reflexivity|]. split; [reflexivity|].
  apply (process_tiff_ignores_invalid_rain float32 nat demo_raster
           demo_isclose 1 demo_cn (ones 1 4)
           demo_rain (Some (of_int float32 (-9999))) demo_runoff 0 2
           (of_int float32 (-9999)) fzero).
  - reflexivity.
  - split; [reflexivity | repeat constructor].
  - simpl. repeat (first [right; reflexivity | constructor]).
  - exact H.
  - reflexivity.
  - reflexivity.
  - right. right. exists (of_int float32 (-9999)). split; reflexivity.
Defined.

(** ** The radar pipeline with its own process_tiff *)

Lemma finite_nonneg_grid_nonneg (g : ndarray spec_float) :
  finite_nonneg_grid g -> nonneg_grid g.
Proof.
  intros [Hwf H]. split; [exact Hwf|].
  intros r c x Hx. apply (H r c x Hx).
Qed.

(** X17.  From the radar rasters to the accumulated grid.  Whatever the
    rasters hold, every runoff the run records has only finite numbers [>=
    0] in its cells, and the accumulated grid it returns has only numbers
    [>= 0]: no cell is negative or NaN.  A cell of the sum may be [+inf],
    when the binary32 addition overflows. *)
Theorem accumulated_runoff_never_negative (d : dtype) (path : Type)
    (os_path_exists : path -> bool)
    (crop_tiff_to_campania align_radar_to_dem : path -> result unit)
    (rasterio_read : path -> result (ndarray spec_float * option spec_float))
    (isclose : spec_float -> spec_float -> bool)
    (raster_profile : path -> result (nat * nat))
    (write_raster : nat * nat -> ndarray spec_float -> result unit)
    (cn_map : ndarray spec_float) (mask : ndarray Z)
    (radar_files : list path) (st : fs_state) (total : ndarray spec_float) :
  returned (radar_pipeline d path os_path_exists crop_tiff_to_campania
              align_radar_to_dem rasterio_read isclose raster_profile
              write_raster cn_map mask radar_files st) = Ok (Some total) ->
  nonneg_grid total /\
  Forall finite_nonneg_grid
    (individual_runoffs
       (radar_pipeline d path os_path_exists crop_tiff_to_campania
          align_radar_to_dem rasterio_read isclose raster_profile
          write_raster cn_map mask radar_files st)).
Proof.
  unfold radar_pipeline. intro H. split.
  - eapply accumulated_nonneg; [|exact H].
    intros file g Hg. eapply finite_nonneg_grid_nonneg, process_tiff_cells, Hg.
  - apply accumulated_individual.
    intros file g Hg. eapply process_tiff_cells, Hg.
Qed.

Lemma accumulated_runoff_never_negative_witness :
  exists total,
    returned (radar_pipeline float32 nat demo_exists demo_crop demo_align
                demo_raster demo_isclose demo_profile demo_write demo_cn
                (ones 1 4) [1; 2] empty_disk) = Ok (Some total) /\
    get total 0 0 = Ok pinf /\
    nonneg_grid total /\
    Forall finite_nonneg_grid
      (individual_runoffs
         (radar_pipeline float32 nat demo_exists demo_crop demo_align
            demo_raster demo_isclose demo_profile demo_write demo_cn
            (ones 1 4) [1; 2] empty_disk)).
Proof.
  eexists. split; [vm_compute; reflexivity|]. split; [reflexivity|].
  apply (accumulated_runoff_never_negative float32 nat demo_exists demo_crop
           demo_align demo_raster demo_isclose demo_profile demo_write
           demo_cn (ones 1 4) [1; 2] empty_disk).
  vm_compute. reflexivity.
Defined.

(** ** compute_flood_risk *)

(** The literals of the weighted sum, as binary32 values. *)
Example weights_binary32 :
  of_ratio float32 7 10 = S754_finite false 11744051 (-24) /\
  of_ratio float32 3 10 = S754_finite false 10066330 (-25).
Proof. split; reflexivity. Qed.

Lemma astype_valid (d : dtype) (x : spec_float) :
  valid d x = true -> astype d x = x.
Proof.
  destruct x as [s|s| |s m e]; try reflexivity.
  intro H. cbn [astype]. apply binary_round_canonical. exact H.
Qed.

Lemma map_array_id {A} (g : ndarray A) : map_array (fun x => x) g = g.
Proof.
  destruct g as [r c rows]. unfold map_array. cbn [nrows ncols rows_of].
  f_equal. rewrite <- (map_id rows) at 2. apply map_ext. intro row.
  apply map_id.
Qed.

Lemma astype_grid (d : dtype) (g : ndarray spec_float) :
  finite_grid d g -> map_array (astype d) g = g.
Proof.
  intro H. rewrite <- (map_array_id g) at 2.
  apply (map_array_ext_ravel _ _ _ g H).
  intros x [Hv _]. apply astype_valid, Hv.
Qed.

(** On a grid of finite values of its dtype no cell of the normalized grid
    is negative. *)
Lemma normalize_not_negative (d : dtype) (array : ndarray spec_float) :
  ravel array <> [] -> finite_grid d array ->
  exists out,
    normalize d array = Ok out /\ shape out = shape array /\
    forall y, In y (ravel out) -> isnan y = true \/ fle fzero y = true.
Proof.
  intros Hne Hfin. unfold finite_grid in Hfin.
  destruct (ravel array) as [|x0 l] eqn:E; [congruence|].
  assert (Hnan : Forall (fun x => isnan x = false) (x0 :: l)).
  { eapply Forall_impl; [|exact Hfin].
    intros a [_ Ha]. apply isfinite_not_nan, Ha. }
  inversion Hnan as [|x0' l' Hx0 Hl]; subst x0' l'.
  destruct (fold_left_minimum_spec l x0 Hx0 Hl) as (Hlo_in & Hlo_x0 & Hlo_all).
  destruct (fold_left_maximum_spec l x0 Hx0 Hl) as (Hhi_in & Hhi_x0 & Hhi_all).
  cbn zeta in *.
  set (lo := fold_left minimum l x0) in *.
  set (hi := fold_left maximum l x0) in *.
  rewrite Forall_forall in Hfin.
  destruct (Hfin lo Hlo_in) as [Vlo Flo].
  destruct (Hfin hi Hhi_in) as [Vhi Fhi].
  assert (Hle_all : forall x, In x (x0 :: l) -> fle lo x = true).
  { intros x [<- | Hx]; [exact Hlo_x0 | apply Hlo_all, Hx]. }
  assert (Hden : strictly_positive (fadd d (fsub d hi lo) (eps d)) = true).
  { apply denominator_positive.
    apply SFsub_not_negative; try assumption; [apply prec_positive|].
    apply Hle_all, Hhi_in. }
  exists (map_array (normalize_cell d lo hi) array).
  split; [unfold normalize; rewrite E; reflexivity|].
  split; [reflexivity|].
  intros y Hy. rewrite ravel_map_array, E in Hy. apply in_map_iff in Hy.
  destruct Hy as (x & <- & Hx).
  destruct (Hfin x Hx) as [Vx Fx].
  assert (Hnum : fle fzero (fsub d x lo) = true).
  { apply SFsub_not_negative; try assumption; [apply prec_positive|].
    apply Hle_all, Hx. }
  apply (fdiv_not_negative d _ _ Hnum Hden).
Qed.

Lemma bget_in_ravel (g : ndarray spec_float) (r c : nat) :
  bget S754_nan g r c = S754_nan \/ In (bget S754_nan g r c) (ravel g).
Proof.
  unfold bget.
  set (r' := if nrows g =? 1 then 0 else r).
  set (c' := if ncols g =? 1 then 0 else c).
  destruct (nth_in_or_default r' (rows_of g) []) as [Hrow | ->];
    [|left; destruct c'; reflexivity].
  destruct (nth_in_or_default c' (nth r' (rows_of g) []) S754_nan)
    as [Hin | ->]; [|left; reflexivity].
  right. unfold ravel. apply in_concat.
  exists (nth r' (rows_of g) []). split; assumption.
Qed.

(** One cell of the weighted sum. *)
Lemma weighted_cell_not_negative (a b : spec_float) :
  isnan a = true \/ fle fzero a = true ->
  isnan b = true \/ fle fzero b = true ->
  let x := fadd float32 (fmul float32 (of_ratio float32 7 10) a)
                        (fmul float32 (of_ratio float32 3 10) b) in
  isnan x = true \/ fle fzero x = true.
Proof.
  intros Ha Hb. cbn zeta.
  destruct Ha as [Ha | Ha].
  { destruct a; try discriminate. left. reflexivity. }
  destruct Hb as [Hb | Hb].
  { destruct b; try discriminate. left.
    destruct (fmul float32 (of_ratio float32 7 10) a); reflexivity. }
  right. apply fadd_nonneg.
  - apply SFmul_nonneg; try reflexivity;
      destruct a as [[]|[]| |[] m e]; try discriminate; reflexivity.
  - apply SFmul_nonneg; try reflexivity;
      destruct b as [[]|[]| |[] m e]; try discriminate; reflexivity.
Qed.

Section FloodRiskLemmas.

Variable path : Type.
Variable rasterio_read_band : path -> result (ndarray spec_float).
Variable gaussian_filter : ndarray spec_float -> ndarray spec_float.

Local Notation "'risk_of'" := (risk_map path rasterio_read_band).
Local Notation "'flood_risk'" :=
  (compute_flood_risk path rasterio_read_band gaussian_filter).

Lemma normalize_returns (d : dtype) (array : ndarray spec_float) :
  (ravel array = [] -> normalize d array = Raise ValueError) /\
  (ravel array <> [] ->
   exists out, normalize d array = Ok out /\ shape out = shape array).
Proof.
  unfold normalize. destruct (ravel array) as [|x0 l].
  - split; [reflexivity | congruence].
  - split; [discriminate|]. intros _. eexists. split; reflexivity.
Qed.

(** X18.  When the raster library reads the flow-direction raster,
    [compute_flood_risk] returns exactly when the runoff grid and the raster
    both have a cell and their shapes broadcast: it returns the filter's
    output on a grid of the broadcast shape, and it makes no other check
    that the two grids cover the same cells.  On a runoff grid without cells
    it raises [ValueError]. *)
Theorem compute_flood_risk_returns_iff (flow_direction_tiff : path)
    (runoff src : ndarray spec_float) (s : nat * nat) :
  rasterio_read_band flow_direction_tiff = Ok src ->
  ((exists risk,
      risk_of flow_direction_tiff runoff = Ok risk /\ shape risk = s /\
      flood_risk flow_direction_tiff runoff = Ok (gaussian_filter risk)) <->
   (ravel runoff <> [] /\ ravel src <> [] /\
    broadcast_shape (shape runoff) (shape src) = Ok s)) /\
  (ravel runoff = [] ->
   flood_risk flow_direction_tiff runoff = Raise ValueError).
Proof.
  intro Hread.
  assert (Hr : ravel (map_array (astype float32) runoff) = []
               <-> ravel runoff = []).
  { rewrite ravel_map_array.
    split; [apply map_eq_nil | intros ->; reflexivity]. }
  assert (Hs : ravel (map_array (astype float32) src) = []
               <-> ravel src = []).
  { rewrite ravel_map_array.
    split; [apply map_eq_nil | intros ->; reflexivity]. }
  destruct (normalize_returns float32 (map_array (astype float32) runoff))
    as [Hr0 Hr1].
  destruct (normalize_returns float32 (map_array (astype float32) src))
    as [Hs0 Hs1].
  unfold compute_flood_risk, risk_map. rewrite Hread. cbn [bind].
  split; [split|].
  - intros (risk & H & Hshape & _).
    destruct (normalize float32 (map_array (astype float32) runoff))
      as [rn|] eqn:Ern; [|discriminate].
    destruct (normalize float32 (map_array (astype float32) src))
      as [fn|] eqn:Efn; [|discriminate].
    cbn [bind] in H. unfold weighted_sum in H.
    assert (Hrne : ravel runoff <> [])
      by (intro E; apply Hr in E; apply Hr0 in E; discriminate).
    assert (Hsne : ravel src <> [])
      by (intro E; apply Hs in E; apply Hs0 in E; discriminate).
    destruct (Hr1 (fun E => Hrne (proj1 Hr E))) as (rn' & Ern' & Hrs).
    destruct (Hs1 (fun E => Hsne (proj1 Hs E))) as (fn' & Efn' & Hfs).
    inversion Ern'; subst rn'. inversion Efn'; subst fn'.
    rewrite Hrs, Hfs in H.
    change (shape (map_array (astype float32) runoff)) with (shape runoff)
      in H.
    change (shape (map_array (astype float32) src)) with (shape src) in H.
    destruct (broadcast_shape (shape runoff) (shape src)) as [[r' c']|];
      [|discriminate].
    cbn [bind] in H. inversion H; subst risk.
    change ((r', c') = s) in Hshape. subst s. auto.
  - intros (Hrne & Hsne & Hb).
    destruct (Hr1 (fun E => Hrne (proj1 Hr E))) as (rn & Ern & Hrs).
    destruct (Hs1 (fun E => Hsne (proj1 Hs E))) as (fn & Efn & Hfs).
    rewrite Ern, Efn. cbn [bind]. unfold weighted_sum. rewrite Hrs, Hfs.
    change (shape (map_array (astype float32) runoff)) with (shape runoff).
    change (shape (map_array (astype float32) src)) with (shape src).
    rewrite Hb. cbn [bind]. eexists. split; [reflexivity|].
    split; [|reflexivity]. destruct s; reflexivity.
  - intro E. rewrite (Hr0 (proj2 Hr E)). reflexivity.
Qed.

(** X19.  On a runoff grid and a flow-direction raster of finite binary32
    values, no cell of the grid handed to the filter is negative: each cell
    is a number [>= 0] or NaN. *)
Theorem risk_map_never_negative (flow_direction_tiff : path)
    (runoff src risk : ndarray spec_float) (r c : nat) (x : spec_float) :
  rasterio_read_band flow_direction_tiff = Ok src ->
  finite_grid float32 runoff -> finite_grid float32 src ->
  risk_of flow_direction_tiff runoff = Ok risk ->
  get risk r c = Ok x ->
  (isnan x = true \/ fle fzero x = true) /\
  flood_risk flow_direction_tiff runoff = Ok (gaussian_filter risk).
Proof.
  intros Hread Hrun Hsrc H Hx.
  split; [|unfold compute_flood_risk; rewrite H; reflexivity].
  unfold risk_map in H. rewrite Hread in H. cbn [bind] in H.
  rewrite (astype_grid float32 runoff Hrun) in H.
  rewrite (astype_grid float32 src Hsrc) in H.
  destruct (normalize float32 runoff) as [rn|] eqn:Ern; [|discriminate].
  destruct (normalize float32 src) as [fn|] eqn:Efn; [|discriminate].
  cbn [bind] in H.
  assert (Hrne : ravel runoff <> []).
  { intro E. unfold normalize in Ern. rewrite E in Ern. discriminate. }
  assert (Hsne : ravel src <> []).
  { intro E. unfold normalize in Efn. rewrite E in Efn. discriminate. }
  destruct (normalize_not_negative float32 runoff Hrne Hrun)
    as (rn' & Ern' & _ & Hrcells).
  destruct (normalize_not_negative float32 src Hsne Hsrc)
    as (fn' & Efn' & _ & Hfcells).
  rewrite Ern in Ern'. rewrite Efn in Efn'.
  inversion Ern'; subst rn'. inversion Efn'; subst fn'.
  unfold weighted_sum in H.
  destruct (broadcast_shape (shape rn) (shape fn)) as [s|]; [|discriminate].
  cbn [bind] in H. inversion H; subst risk.
  destruct (get_in_range _ _ _ _ (wf_tabulate _ _ _) Hx) as [Hlr Hlc].
  cbn [tabulate nrows ncols] in Hlr, Hlc.
  rewrite get_tabulate in Hx by assumption. inversion Hx; subst x.
  apply weighted_cell_not_negative.
  - destruct (bget_in_ravel rn r c) as [-> | Hin];
      [left; reflexivity | apply Hrcells, Hin].
  - destruct (bget_in_ravel fn r c) as [-> | Hin];
      [left; reflexivity | apply Hfcells, Hin].
Qed.

End FloodRiskLemmas.

Lemma compute_flood_risk_returns_iff_witness :
  ((exists risk,
      risk_map nat demo_flow_raster 0 demo_accumulated = Ok risk /\
      shape risk = (1, 3) /\
      compute_flood_risk nat demo_flow_raster (fun g => g) 0 demo_accumulated
      = Ok risk) <->
   (ravel demo_accumulated <> [] /\ ravel codes_grid <> [] /\
    broadcast_shape (shape demo_accumulated) (shape codes_grid)
    = Ok (1, 3))) /\
  (ravel demo_accumulated = [] ->
   compute_flood_risk nat demo_flow_raster (fun g => g) 0 demo_accumulated
   = Raise ValueError).
Proof.
  apply (compute_flood_risk_returns_iff nat demo_flow_raster (fun g => g) 0
           demo_accumulated codes_grid (1, 3)).
  reflexivity.
Defined.

Lemma risk_map_never_negative_witness :
  exists risk x,
    risk_map nat demo_flow_raster 0 demo_accumulated = Ok risk /\
    get risk 0 1 = Ok x /\
    (isnan x = true \/ fle fzero x = true) /\
    compute_flood_risk nat demo_flow_raster (fun g => g) 0 demo_accumulated
    = Ok risk.
Proof.
  eexists. eexists.
  split; [vm_compute; reflexivity|]. split; [reflexivity|].
  apply (risk_map_never_negative nat demo_flow_raster (fun g => g) 0
           demo_accumulated codes_grid _ 0 1 _).
  - reflexivity.
  - unfold finite_grid. simpl. repeat constructor.
  - unfold finite_grid. simpl. repeat constructor.
  - vm_compute. reflexivity.
  - reflexivity.
Defined.

(** ** get_radar_files *)

Module RadarFilesFacts.

Import String Ascii RadarFiles RadarFilesExamples.
Local Open Scope string_scope.

Lemma endswith_refl (s : string) : endswith s s = true.
Proof. destruct s; cbn [endswith]; rewrite String.eqb_refl; reflexivity. Qed.

Lemma endswith_append (a s suffix : string) :
  endswith s suffix = true -> endswith (a ++ s) suffix = true.
Proof.
  intro H. induction a as [|ch a IH]; [exact H|].
  cbn [append endswith]. rewrite IH.
  destruct (String.eqb (String ch (a ++ s)) suffix); reflexivity.
Qed.

(** Joining keeps the end of the path: what follows the directory is the
    name, whether the directory is empty, ends in a slash or not. *)
Lemma endswith_os_path_join (a b suffix : string) :
  endswith b suffix = true -> endswith (os_path_join a b) suffix = true.
Proof.
  intro H. unfold os_path_join.
  destruct (startswith b "/"); [exact H|].
  destruct a as [|ch a]; [exact H|].
  destruct (endswith (String ch a) "/").
  - apply endswith_append, H.
  - apply endswith_append. apply (endswith_append "/"), H.
Qed.

(** X20.  [get_radar_files] lists the directory once and returns one path
    per listed name that ends in [.tiff], in the order of the listing.
    Every path it returns ends with the name it was made from and so in
    [.tiff]; names with another ending, [.tif] among them, are left out.
    When the directory cannot be listed the exception is raised to the
    caller. *)
Theorem get_radar_files_end_in_tiff
    (os_listdir : string -> result (list string)) (directory : string) :
  match os_listdir directory with
  | Ok names =>
      exists files,
        get_radar_files os_listdir directory = Ok files /\
        Forall (fun p => endswith p ".tiff" = true) files /\
        Forall2 (fun p f => endswith p f = true) files
                (filter (fun f => endswith f ".tiff") names)
  | Raise e => get_radar_files os_listdir directory = Raise e
  end.
Proof.
  unfold get_radar_files.
  destruct (os_listdir directory) as [names|e]; [|reflexivity].
  cbn [bind]. eexists. split; [reflexivity|]. split.
  - apply Forall_map. apply Forall_forall. intros f Hf.
    apply filter_In in Hf. apply endswith_os_path_join, Hf.
  - induction (filter (fun f => endswith f ".tiff") names) as [|f l IH];
      [constructor|].
    cbn [map]. constructor; [|exact IH].
    apply endswith_os_path_join, endswith_refl.
Qed.

(** Of the four names of the example directory the two radar files are
    returned. *)
Example get_radar_files_demo :
  get_radar_files demo_listdir "data/radar"
  = Ok ["data/radar/radar_0800.tiff"; "data/radar/radar_0820.tiff"].
Proof. reflexivity. Qed.

End RadarFilesFacts.
